(** * DSA algorithm visualizer: playback engine and step producers

    A shallow embedding of

    - [AnimationController] (utils/animator.js): the playback engine that
      owns a snapshot sequence and a current step index;
    - [KMPMatcher] (algorithms/kmp.js), [TowerOfHanoi]
      (algorithms/towerOfHanoi.js) and [NQueens] (algorithms/nQueens.js):
      three step producers;
    - the render loop of [CanvasAnimator] (utils/animator.js).

    Conventions of the embedding.

    - Step indices and counts are integers ([Z]); array positions in the
      producers are naturals.
    - The speed multiplier, durations and clock readings are finite numbers,
      taken as rationals ([Q]): the engine only compares them and takes
      [Math.max]/[Math.min], which is exact.  A division yields a [jsnum],
      which adds the outcomes of a zero divisor (Infinity and NaN).
    - The three callbacks of the controller are observers: the model records
      each call in a log and the callback does not call back into the engine.
    - [performance.now()] is an input: a method that reads the clock takes
      the reading as an argument.
    - The host's frame scheduler is the set of requested, not yet fired and
      not cancelled frame callbacks. *)

From Stdlib Require Import ZArith QArith Qminmax List Bool Lia String Ascii.
From Stdlib Require Import DecimalString Sorted.
Import ListNotations.

Set Implicit Arguments.

(** ** JavaScript numbers produced by a division *)

Module JsNum.
Local Open Scope Q_scope.

Inductive jsnum : Type :=
| JFin (q : Q)
| JPosInf
| JNegInf
| JNaN.

(** [a / b] for finite [a], [b]. *)
Definition div (a b : Q) : jsnum :=
  if Qeq_bool b 0 then
    if Qeq_bool a 0 then JNaN
    else if Qle_bool 0 a then JPosInf else JNegInf
  else JFin (a / b).

(** [x * k] for a finite [k]. *)
Definition mul (x : jsnum) (k : Q) : jsnum :=
  match x with
  | JFin q => JFin (q * k)
  | JNaN => JNaN
  | JPosInf =>
      if Qeq_bool k 0 then JNaN else if Qle_bool 0 k then JPosInf else JNegInf
  | JNegInf =>
      if Qeq_bool k 0 then JNaN else if Qle_bool 0 k then JNegInf else JPosInf
  end.

(** [a >= x] for a finite [a]; every comparison with NaN is false. *)
Definition geb (a : Q) (x : jsnum) : bool :=
  match x with
  | JFin q => Qle_bool q a
  | JPosInf => false
  | JNegInf => true
  | JNaN => false
  end.

(** A finite number within [lo, hi]. *)
Definition in_range (lo hi : Q) (x : jsnum) : Prop :=
  match x with
  | JFin q => (lo <= q /\ q <= hi)%Q
  | _ => False
  end.

(** [Math.min(k, x)] and [Math.max(k, x)] for a finite [k]: NaN if [x] is
    NaN. *)
Definition min_with (k : Q) (x : jsnum) : jsnum :=
  match x with
  | JFin q => JFin (Qmin k q)
  | JPosInf => JFin k
  | JNegInf => JNegInf
  | JNaN => JNaN
  end.

Definition max_with (k : Q) (x : jsnum) : jsnum :=
  match x with
  | JFin q => JFin (Qmax k q)
  | JPosInf => JPosInf
  | JNegInf => JFin k
  | JNaN => JNaN
  end.

(** The length that [Array(x)] accepts: [x] is an integer from 0 to
    2^32 - 1.  For any other number [Array(x)] throws a [RangeError]
    ([None]). *)
Definition array_length (x : jsnum) : option nat :=
  match x with
  | JFin q =>
      let z := (Qnum q / Zpos (Qden q))%Z in
      if Qeq_bool q (inject_Z z) && (0 <=? z)%Z && (z <? 2 ^ 32)%Z
      then Some (Z.to_nat z)
      else None
  | _ => None
  end.

End JsNum.

(** ** The playback engine: [AnimationController] *)

Module Animator.
Import JsNum.
Local Open Scope Z_scope.

Section Controller.

(** A snapshot is opaque to the engine. *)
Variable Snapshot : Type.

(** The object handed to [onStateChange]. *)
Record status : Type := Status {
  st_isPlaying : bool;
  st_isPaused : bool;
  st_currentStep : Z;
  st_totalSteps : Z;
  st_speed : Q;
  st_progress : jsnum
}.

(** One call of a callback. *)
Inductive event : Type :=
| StepChanged (state : option Snapshot) (index total : Z)
| StateChanged (st : status)
| Completed.

(** The fields of the controller, followed by the host: the frame callbacks
    that are requested and pending, the next frame id (ids are positive, so an
    id is truthy), and the calls made to the callbacks, newest first. *)
Record engine : Type := Engine {
  isPlaying : bool;
  isPaused : bool;
  currentStep : Z;
  totalSteps : Z;
  speed : Q;
  steps : list Snapshot;
  animationFrameId : option positive;
  lastFrameTime : Q;
  stepDuration : Q;
  onStepChange : bool;
  onComplete : bool;
  onStateChange : bool;
  pending : list positive;
  nextFrameId : positive;
  log : list event
}.

(** [constructor()], with no callback registered and an idle host. *)
Definition constructor : engine :=
  {| isPlaying := false; isPaused := false; currentStep := 0;
     totalSteps := 0; speed := 1%Q; steps := [];
     animationFrameId := None; lastFrameTime := 0%Q; stepDuration := 500%Q;
     onStepChange := false; onComplete := false; onStateChange := false;
     pending := []; nextFrameId := 1%positive; log := [] |}.

(** Field updates. *)
Definition set_playing (p q : bool) (e : engine) : engine :=
  {| isPlaying := p; isPaused := q; currentStep := currentStep e;
     totalSteps := totalSteps e; speed := speed e; steps := steps e;
     animationFrameId := animationFrameId e;
     lastFrameTime := lastFrameTime e; stepDuration := stepDuration e;
     onStepChange := onStepChange e; onComplete := onComplete e;
     onStateChange := onStateChange e; pending := pending e;
     nextFrameId := nextFrameId e; log := log e |}.

Definition set_currentStep (i : Z) (e : engine) : engine :=
  {| isPlaying := isPlaying e; isPaused := isPaused e; currentStep := i;
     totalSteps := totalSteps e; speed := speed e; steps := steps e;
     animationFrameId := animationFrameId e;
     lastFrameTime := lastFrameTime e; stepDuration := stepDuration e;
     onStepChange := onStepChange e; onComplete := onComplete e;
     onStateChange := onStateChange e; pending := pending e;
     nextFrameId := nextFrameId e; log := log e |}.

Definition set_steps (l : list Snapshot) (n : Z) (e : engine) : engine :=
  {| isPlaying := isPlaying e; isPaused := isPaused e;
     currentStep := currentStep e;
     totalSteps := n; speed := speed e; steps := l;
     animationFrameId := animationFrameId e;
     lastFrameTime := lastFrameTime e; stepDuration := stepDuration e;
     onStepChange := onStepChange e; onComplete := onComplete e;
     onStateChange := onStateChange e; pending := pending e;
     nextFrameId := nextFrameId e; log := log e |}.

Definition set_speed (x : Q) (e : engine) : engine :=
  {| isPlaying := isPlaying e; isPaused := isPaused e;
     currentStep := currentStep e;
     totalSteps := totalSteps e; speed := x; steps := steps e;
     animationFrameId := animationFrameId e;
     lastFrameTime := lastFrameTime e; stepDuration := stepDuration e;
     onStepChange := onStepChange e; onComplete := onComplete e;
     onStateChange := onStateChange e; pending := pending e;
     nextFrameId := nextFrameId e; log := log e |}.

Definition set_lastFrameTime (t : Q) (e : engine) : engine :=
  {| isPlaying := isPlaying e; isPaused := isPaused e;
     currentStep := currentStep e;
     totalSteps := totalSteps e; speed := speed e; steps := steps e;
     animationFrameId := animationFrameId e;
     lastFrameTime := t; stepDuration := stepDuration e;
     onStepChange := onStepChange e; onComplete := onComplete e;
     onStateChange := onStateChange e; pending := pending e;
     nextFrameId := nextFrameId e; log := log e |}.

Definition set_frames (id : option positive) (p : list positive)
    (next : positive) (e : engine) : engine :=
  {| isPlaying := isPlaying e; isPaused := isPaused e;
     currentStep := currentStep e;
     totalSteps := totalSteps e; speed := speed e; steps := steps e;
     animationFrameId := id;
     lastFrameTime := lastFrameTime e; stepDuration := stepDuration e;
     onStepChange := onStepChange e; onComplete := onComplete e;
     onStateChange := onStateChange e; pending := p;
     nextFrameId := next; log := log e |}.

Definition emit (ev : event) (e : engine) : engine :=
  {| isPlaying := isPlaying e; isPaused := isPaused e;
     currentStep := currentStep e;
     totalSteps := totalSteps e; speed := speed e; steps := steps e;
     animationFrameId := animationFrameId e;
     lastFrameTime := lastFrameTime e; stepDuration := stepDuration e;
     onStepChange := onStepChange e; onComplete := onComplete e;
     onStateChange := onStateChange e; pending := pending e;
     nextFrameId := nextFrameId e; log := ev :: log e |}.

(** The host: [requestAnimationFrame] and [cancelAnimationFrame]. *)
Definition requestAnimationFrame (e : engine) : engine :=
  set_frames (Some (nextFrameId e)) (nextFrameId e :: pending e)
             (Pos.succ (nextFrameId e)) e.

Definition cancelAnimationFrame (id : positive) (e : engine) : engine :=
  set_frames (animationFrameId e)
             (filter (fun x => negb (Pos.eqb x id)) (pending e))
             (nextFrameId e) e.

(** [getCurrentState()]: [this.steps[this.currentStep] || null]. *)
Definition getCurrentState (e : engine) : option Snapshot :=
  if currentStep e <? 0 then None
  else nth_error (steps e) (Z.to_nat (currentStep e)).

(** [getEffectiveDuration()]. *)
Definition getEffectiveDuration (e : engine) : jsnum :=
  JsNum.div (stepDuration e) (speed e).

(** The [progress] field of a status. *)
Definition progress (e : engine) : jsnum :=
  if 0 <? totalSteps e then
    JsNum.mul
      (JsNum.div (inject_Z (currentStep e)) (inject_Z (totalSteps e - 1)))
      100%Q
  else JFin 0%Q.

Definition current_status (e : engine) : status :=
  {| st_isPlaying := isPlaying e; st_isPaused := isPaused e;
     st_currentStep := currentStep e; st_totalSteps := totalSteps e;
     st_speed := speed e; st_progress := progress e |}.

Definition notifyStepChange (e : engine) : engine :=
  if onStepChange e
  then emit (StepChanged (getCurrentState e) (currentStep e) (totalSteps e)) e
  else e.

Definition notifyStateChange (e : engine) : engine :=
  if onStateChange e then emit (StateChanged (current_status e)) e else e.

Definition setSteps (l : list Snapshot) (e : engine) : engine :=
  notifyStateChange
    (set_currentStep 0 (set_steps l (Z.of_nat (List.length l)) e)).

Definition setSpeed (x : Q) (e : engine) : engine :=
  notifyStateChange (set_speed (Qmax (1 # 4)%Q (Qmin 4%Q x)) e).

Definition pause (e : engine) : engine :=
  let e1 := set_playing false true e in
  let e2 :=
    match animationFrameId e1 with
    | Some id =>
        let e' := cancelAnimationFrame id e1 in
        set_frames None (pending e') (nextFrameId e') e'
    | None => e1
    end in
  notifyStateChange e2.

Definition reset (e : engine) : engine :=
  notifyStateChange (notifyStepChange (set_currentStep 0 e)).

Definition stop (e : engine) : engine :=
  notifyStateChange (notifyStepChange (set_currentStep 0 (pause e))).

Definition goToStep (step : Z) (e : engine) : engine :=
  notifyStateChange
    (notifyStepChange
       (set_currentStep (Z.max 0 (Z.min step (totalSteps e - 1))) e)).

Definition stepForward (e : engine) : engine :=
  if currentStep e <? totalSteps e - 1 then
    notifyStateChange
      (notifyStepChange (set_currentStep (currentStep e + 1) e))
  else e.

Definition stepBackward (e : engine) : engine :=
  if 0 <? currentStep e then
    notifyStateChange
      (notifyStepChange (set_currentStep (currentStep e - 1) e))
  else e.

(** [animate()], the body of the advancing loop, with the clock reading
    [now]. *)
Definition animate (now : Q) (e : engine) : engine :=
  if negb (isPlaying e) then e
  else
    let deltaTime := (now - lastFrameTime e)%Q in
    if JsNum.geb deltaTime (getEffectiveDuration e) then
      let e1 := set_lastFrameTime now e in
      if currentStep e1 <? totalSteps e1 - 1 then
        requestAnimationFrame
          (notifyStepChange (set_currentStep (currentStep e1 + 1) e1))
      else
        let e2 := pause e1 in
        if onComplete e2 then emit Completed e2 else e2
    else requestAnimationFrame e.

(** [play()] in its three parts: the restart from the final index; the
    switch to playing, where the clock is read ([t0]); the first call of
    [animate()], which reads the clock again ([t1]), then the status
    notification. *)
Definition play_restart (e : engine) : engine :=
  if totalSteps e - 1 <=? currentStep e then reset e else e.

Definition play_start (t0 : Q) (e : engine) : engine :=
  set_lastFrameTime t0 (set_playing true false e).

Definition play (t0 t1 : Q) (e : engine) : engine :=
  notifyStateChange (animate t1 (play_start t0 (play_restart e))).

Definition toggle (t0 t1 : Q) (e : engine) : engine :=
  if isPlaying e then pause e else play t0 t1 e.

(** The host fires the frame callback [id] at time [now]: nothing happens
    unless it is pending. *)
Definition frame (id : positive) (now : Q) (e : engine) : engine :=
  if existsb (Pos.eqb id) (pending e) then
    animate now
      (set_frames (animationFrameId e)
         (filter (fun x => negb (Pos.eqb x id)) (pending e))
         (nextFrameId e) e)
  else e.

(** Calls on an engine whose sequence stays the same. *)
Inductive call : Type :=
| Play (t0 t1 : Q)
| Pause
| Toggle (t0 t1 : Q)
| Stop
| Reset
| GoToStep (i : Z)
| StepForward
| StepBackward
| SetSpeed (x : Q)
| Frame (id : positive) (now : Q).

Definition exec (c : call) (e : engine) : engine :=
  match c with
  | Play t0 t1 => play t0 t1 e
  | Pause => pause e
  | Toggle t0 t1 => toggle t0 t1 e
  | Stop => stop e
  | Reset => reset e
  | GoToStep i => goToStep i e
  | StepForward => stepForward e
  | StepBackward => stepBackward e
  | SetSpeed x => setSpeed x e
  | Frame id now => frame id now e
  end.

Definition run (cs : list call) (e : engine) : engine :=
  fold_left (fun e c => exec c e) cs e.


(** ** Predicates on engines *)

(** The position is a valid index of the loaded sequence, or 0 when the
    sequence is empty. *)
Definition in_bounds (e : engine) : Prop :=
  0 <= currentStep e <= Z.max 0 (totalSteps e - 1).

(** A status whose progress is the NaN of 0/0, taken at index 0 of 1. *)
Definition zero_over_zero (ev : event) : Prop :=
  match ev with
  | StateChanged st =>
      st_totalSteps st = 1 /\ st_currentStep st = 0
      /\ st_progress st = JNaN
  | _ => True
  end.

Definition single (e : engine) : Prop :=
  totalSteps e = 1 /\ currentStep e = 0.

(** The engine holds a single snapshot and every callback call made since
    the log was [base] is a [zero_over_zero] one. *)
Definition since (base : list event) (e : engine) : Prop :=
  single e
  /\ exists new, log e = (new ++ base)%list /\ Forall zero_over_zero new.

(** The reading of a load that the source does not meet: [setSteps] replaces
    the sequence, resets the index to 0, and leaves the engine not playing,
    with no frame of the advancing loop pending. *)
Definition load_cancels_playback : Prop :=
  forall (l : list Snapshot) (e : engine),
    steps (setSteps l e) = l
    /\ currentStep (setSteps l e) = 0
    /\ isPlaying (setSteps l e) = false
    /\ pending (setSteps l e) = [].


(** ** The end of an engine *)

Definition set_callbacks (a b c : bool) (e : engine) : engine :=
  {| isPlaying := isPlaying e; isPaused := isPaused e;
     currentStep := currentStep e;
     totalSteps := totalSteps e; speed := speed e; steps := steps e;
     animationFrameId := animationFrameId e;
     lastFrameTime := lastFrameTime e; stepDuration := stepDuration e;
     onStepChange := a; onComplete := b;
     onStateChange := c; pending := pending e;
     nextFrameId := nextFrameId e; log := log e |}.

(** [destroy()]: the pending frame is cancelled, the sequence emptied and
    the callbacks dropped; [totalSteps], the flags and the frame id stay. *)
Definition destroy (e : engine) : engine :=
  let e1 :=
    match animationFrameId e with
    | Some id => cancelAnimationFrame id e
    | None => e
    end in
  set_callbacks false false false (set_steps [] (totalSteps e1) e1).

(** ** Predicates on notifications *)

(** A step notification that carries the snapshot of [l] at its index,
    with the length of [l] as total. *)
Definition carries_snapshot (l : list Snapshot) (ev : event) : Prop :=
  match ev with
  | StepChanged state index total =>
      0 <= index /\ total = Z.of_nat (List.length l)
      /\ state = nth_error l (Z.to_nat index)
      /\ (l <> [] -> state <> None)
  | _ => True
  end.

(** A status whose progress is a number of [0, 100]. *)
Definition progress_is_percent (ev : event) : Prop :=
  match ev with
  | StateChanged st => in_range 0 100 (st_progress st)
  | _ => True
  end.

(** The speed is within its bounds. *)
Definition speed_ok (e : engine) : Prop :=
  (1 # 4 <= speed e)%Q /\ (speed e <= 4)%Q.

(** ** Predicates on runs *)

(** The sequence [l] is loaded and the position lies within it. *)
Definition loaded (l : list Snapshot) (e : engine) : Prop :=
  steps e = l /\ totalSteps e = Z.of_nat (List.length l) /\ in_bounds e.

(** [l] is loaded and every callback call made since the log was [base]
    satisfies [P]. *)
Definition tracked (l : list Snapshot) (P : event -> Prop)
    (base : list event) (e : engine) : Prop :=
  loaded l e
  /\ exists new, log e = (new ++ base)%list /\ Forall P new.

(** The callback that receives [ev] is registered on [e]. *)
Definition registered (e : engine) (ev : event) : Prop :=
  match ev with
  | StepChanged _ _ _ => onStepChange e = true
  | StateChanged _ => onStateChange e = true
  | Completed => onComplete e = true
  end.

(** What no method but [setSteps] and [destroy] changes. *)
Definition config (e : engine) : Q * list Snapshot * Z * bool * bool * bool :=
  (stepDuration e, steps e, totalSteps e,
   onStepChange e, onComplete e, onStateChange e).

(** [e'] has the configuration of [e], and its log is the log of [e] with
    calls of registered callbacks added. *)
Definition extends (e e' : engine) : Prop :=
  config e' = config e
  /\ exists new, log e' = (new ++ log e)%list /\ Forall (registered e) new.

(** What a call made by hand on the position or the speed leaves alone. *)
Definition loop_state (e : engine)
    : bool * bool * option positive * list positive * Q :=
  (isPlaying e, isPaused e, animationFrameId e, pending e, lastFrameTime e).

(** ** The advancing loop over time *)

(** The engine holds the id of a frame callback that is pending. *)
Definition holds_frame (e : engine) : Prop :=
  exists id, animationFrameId e = Some id /\ In id (pending e).

(** The host fires, at time [now], the frame callback the engine holds. *)
Definition tick (now : Q) (e : engine) : engine :=
  match animationFrameId e with
  | Some id => frame id now e
  | None => e
  end.

Definition ticks (ts : list Q) (e : engine) : engine :=
  fold_left (fun e t => tick t e) ts e.

(** From the time [t] on, each time of [ts] is at least [d] after the one
    before. *)
Fixpoint spaced (d : jsnum) (t : Q) (ts : list Q) : Prop :=
  match ts with
  | [] => True
  | u :: rest => JsNum.geb (u - t) d = true /\ spaced d u rest
  end.

(** The frame callbacks [fs], each with its time, fired in order. *)
Definition fire (fs : list (positive * Q)) : list call :=
  List.map (fun f => Frame (fst f) (snd f)) fs.

End Controller.

(** ** Two engines on a sequence of three snapshots *)

(** An engine playing a sequence of three snapshots, with one frame of the
    advancing loop pending. *)
Definition playing3 : engine nat :=
  play 0 0 (setSteps [10; 20; 30]%nat (constructor nat)).

(** An engine at the final index of a sequence of three snapshots. *)
Definition at_end3 : engine nat :=
  goToStep 2 (setSteps [10; 20; 30]%nat (constructor nat)).

End Animator.

(** ** The canvas render loop: [CanvasAnimator] *)

(** The loop of [CanvasAnimator]: the map of animations, the flag
    [isRunning] and the frame requests.  Drawing is left to the callbacks of
    the animations, which are observers as the controller's are; the canvas
    itself ([setupCanvas], [getContext], [resize]) is not modelled.  The
    duration of an animation is a finite number, and an animation id is a
    string. *)

Module Canvas.
Import JsNum.

(** [Math.min(x, 1)]. *)
Definition min_one (x : jsnum) : jsnum :=
  match x with
  | JFin q => JFin (Qmin q 1)
  | JPosInf => JFin 1
  | JNegInf => JNegInf
  | JNaN => JNaN
  end.

(** [x >= 1]. *)
Definition at_least_one (x : jsnum) : bool :=
  match x with
  | JFin q => Qle_bool 1 q
  | JPosInf => true
  | JNegInf => false
  | JNaN => false
  end.

(** An entry of the map: whether [render] and [onComplete] are set, [loop],
    [duration], and the fields [startTime] and [progress] that
    [addAnimation] adds. *)
Record animation : Type := Animation {
  has_render : bool;
  has_onComplete : bool;
  loop : bool;
  duration : Q;
  startTime : Q;
  progress : jsnum
}.

(** One call made by [render()]: [clearRect], [anim.render(ctx, progress,
    elapsed)] or [anim.onComplete()]. *)
Inductive event : Type :=
| Cleared
| Rendered (id : string) (p : jsnum) (elapsed : Q)
| Completed (id : string).

(** The fields of the animator, followed by the host: the frame callbacks
    that are requested and pending, the next frame id (ids are positive), and
    the calls made, newest first. *)
Record animator : Type := Animator {
  animations : list (string * animation);
  isRunning : bool;
  animationFrameId : option nat;
  lastTime : Q;
  frames : list nat;
  nextFrameId : nat;
  log : list event
}.

(** The fields that the constructor sets. *)
Definition constructor : animator :=
  {| animations := []; isRunning := false; animationFrameId := None;
     lastTime := 0; frames := []; nextFrameId := 1; log := [] |}.

(** [Map.set]: the entry of an id that is present is replaced where it is,
    a new one is added last. *)
Fixpoint map_set (id : string) (an : animation)
    (m : list (string * animation)) : list (string * animation) :=
  match m with
  | [] => [(id, an)]
  | (k, v) :: rest =>
      if String.eqb k id then (k, an) :: rest
      else (k, v) :: map_set id an rest
  end.

(** [Map.delete]. *)
Definition map_delete (id : string) (m : list (string * animation))
    : list (string * animation) :=
  filter (fun kv => negb (String.eqb (fst kv) id)) m.

(** [stop()]. *)
Definition stop (a : animator) : animator :=
  match animationFrameId a with
  | Some f =>
      {| animations := animations a; isRunning := false;
         animationFrameId := None; lastTime := lastTime a;
         frames := filter (fun g => negb (g =? f)%nat) (frames a);
         nextFrameId := nextFrameId a; log := log a |}
  | None =>
      {| animations := animations a; isRunning := false;
         animationFrameId := None; lastTime := lastTime a;
         frames := frames a; nextFrameId := nextFrameId a; log := log a |}
  end.

(** [removeAnimation(id)]. *)
Definition removeAnimation (id : string) (a : animator) : animator :=
  let a1 :=
    {| animations := map_delete id (animations a); isRunning := isRunning a;
       animationFrameId := animationFrameId a; lastTime := lastTime a;
       frames := frames a; nextFrameId := nextFrameId a; log := log a |} in
  match animations a1 with
  | [] => stop a1
  | _ :: _ => a1
  end.

(** [clearAnimations()]. *)
Definition clearAnimations (a : animator) : animator :=
  stop
    {| animations := []; isRunning := isRunning a;
       animationFrameId := animationFrameId a; lastTime := lastTime a;
       frames := frames a; nextFrameId := nextFrameId a; log := log a |}.

(** [destroy()]. *)
Definition destroy (a : animator) : animator :=
  let a1 := stop a in
  {| animations := []; isRunning := isRunning a1;
     animationFrameId := animationFrameId a1; lastTime := lastTime a1;
     frames := frames a1; nextFrameId := nextFrameId a1; log := log a1 |}.

(** The body of the [forEach] of [render()] for one animation: the entry
    afterwards, the calls made, in order, and whether its id is pushed on
    [completedAnimations]. *)
Definition update (now : Q) (id : string) (an : animation)
    : animation * list event * bool :=
  let elapsed := (now - startTime an)%Q in
  let p := min_one (div elapsed (duration an)) in
  let rendered := if has_render an then [Rendered id p elapsed] else [] in
  if at_least_one p then
    let completed := if has_onComplete an then [Completed id] else [] in
    if loop an then
      ({| has_render := has_render an; has_onComplete := has_onComplete an;
          loop := loop an; duration := duration an;
          startTime := now; progress := JFin 0 |},
       (rendered ++ completed)%list, false)
    else
      ({| has_render := has_render an; has_onComplete := has_onComplete an;
          loop := loop an; duration := duration an;
          startTime := startTime an; progress := p |},
       (rendered ++ completed)%list, true)
  else
    ({| has_render := has_render an; has_onComplete := has_onComplete an;
        loop := loop an; duration := duration an;
        startTime := startTime an; progress := p |},
     rendered, false).

(** [this.animations.forEach(...)] in [render()]: the map afterwards, the
    calls made, in order, and [completedAnimations]. *)
Fixpoint forEach (now : Q) (m : list (string * animation))
    : list (string * animation) * list event * list string :=
  match m with
  | [] => ([], [], [])
  | (id, an) :: rest =>
      let '(an', ev, done) := update now id an in
      let '(rest', evs, ids) := forEach now rest in
      ((id, an') :: rest', (ev ++ evs)%list, if done then id :: ids else ids)
  end.

(** [render()], with the reading of the clock. *)
Definition render (now : Q) (a : animator) : animator :=
  if isRunning a then
    let '(m, evs, ids) := forEach now (animations a) in
    let a1 :=
      {| animations := m; isRunning := true;
         animationFrameId := animationFrameId a; lastTime := now;
         frames := frames a; nextFrameId := nextFrameId a;
         log := (rev evs ++ Cleared :: log a)%list |} in
    let a2 := fold_left (fun acc id => removeAnimation id acc) ids a1 in
    {| animations := animations a2; isRunning := isRunning a2;
       animationFrameId := Some (nextFrameId a2); lastTime := lastTime a2;
       frames := (frames a2 ++ [nextFrameId a2])%list;
       nextFrameId := S (nextFrameId a2); log := log a2 |}
  else a.

(** [start()], with the readings of the clock in [start] and in
    [render]. *)
Definition start (t1 t2 : Q) (a : animator) : animator :=
  render t2
    {| animations := animations a; isRunning := true;
       animationFrameId := animationFrameId a; lastTime := t1;
       frames := frames a; nextFrameId := nextFrameId a; log := log a |}.

(** What is passed to [addAnimation]. *)
Record config : Type := Config {
  cf_render : bool;
  cf_onComplete : bool;
  cf_loop : bool;
  cf_duration : Q
}.

(** [addAnimation(id, animation)], with the reading of the clock in
    [addAnimation] and those of the [start()] it may call. *)
Definition addAnimation (id : string) (c : config) (t0 t1 t2 : Q)
    (a : animator) : animator :=
  let an :=
    {| has_render := cf_render c; has_onComplete := cf_onComplete c;
       loop := cf_loop c; duration := cf_duration c;
       startTime := t0; progress := JFin 0 |} in
  let a1 :=
    {| animations := map_set id an (animations a); isRunning := isRunning a;
       animationFrameId := animationFrameId a; lastTime := lastTime a;
       frames := frames a; nextFrameId := nextFrameId a; log := log a |} in
  if isRunning a then a1 else start t1 t2 a1.

(** The host runs the frame callback [f], if it is pending: the callback
    is [() => this.render()]. *)
Definition fire (f : nat) (now : Q) (a : animator) : animator :=
  if existsb (Nat.eqb f) (frames a) then
    render now
      {| animations := animations a; isRunning := isRunning a;
         animationFrameId := animationFrameId a; lastTime := lastTime a;
         frames := filter (fun g => negb (g =? f)%nat) (frames a);
         nextFrameId := nextFrameId a; log := log a |}
  else a.

(** What drives an animator that is used through its animations: the three
    methods on animations, [destroy()], and the host's frames. *)
Inductive call : Type :=
| AddAnimation (id : string) (c : config) (t0 t1 t2 : Q)
| RemoveAnimation (id : string)
| ClearAnimations
| Destroy
| Frame (f : nat) (now : Q).

Definition exec (c : call) (a : animator) : animator :=
  match c with
  | AddAnimation id cf t0 t1 t2 => addAnimation id cf t0 t1 t2 a
  | RemoveAnimation id => removeAnimation id a
  | ClearAnimations => clearAnimations a
  | Destroy => destroy a
  | Frame f now => fire f now a
  end.

Definition run (cs : list call) (a : animator) : animator :=
  fold_left (fun acc c => exec c acc) cs a.

(** The loop runs exactly while there is an animation. *)
Definition runs_while_animated (a : animator) : Prop :=
  isRunning a = true <-> animations a <> [].

(** At the reading [now] of the clock the animation has run for its
    duration, which is positive. *)
Definition finished (now : Q) (an : animation) : Prop :=
  (0 < duration an /\ duration an <= now - startTime an)%Q.

(** At the reading [now] the animation has not yet run for its duration,
    which is positive. *)
Definition unfinished (now : Q) (an : animation) : Prop :=
  (0 < duration an /\ now - startTime an < duration an)%Q.

(** The animation [an], started again at [now]. *)
Definition restarted (now : Q) (an : animation) : animation :=
  {| has_render := has_render an; has_onComplete := has_onComplete an;
     loop := loop an; duration := duration an;
     startTime := now; progress := JFin 0 |}.

(** The animation [an], with the progress [p]. *)
Definition with_progress (p : jsnum) (an : animation) : animation :=
  {| has_render := has_render an; has_onComplete := has_onComplete an;
     loop := loop an; duration := duration an;
     startTime := startTime an; progress := p |}.

(** No id has two entries in the map. *)
Definition keys_unique (a : animator) : Prop :=
  NoDup (List.map fst (animations a)).

(** The progress is the number one. *)
Definition is_one (p : jsnum) : Prop :=
  match p with
  | JFin q => (q == 1)%Q
  | _ => False
  end.

End Canvas.

(** ** Text of numbers and characters in template strings *)

Module Template.
Local Open Scope string_scope.

Definition nat_str (n : nat) : string :=
  NilZero.string_of_uint (Nat.to_uint n).

(** [a.join(', ')] on an array of numbers. *)
Fixpoint join (l : list nat) : string :=
  match l with
  | [] => EmptyString
  | [x] => nat_str x
  | x :: rest => nat_str x ++ ", " ++ join rest
  end.

(** [${s[i]}]: the character, or the text of [undefined]. *)
Definition char_str (c : option ascii) : string :=
  match c with
  | Some a => String a EmptyString
  | None => "undefined"
  end.

End Template.

(** ** A step producer: [KMPMatcher] *)

Module KMP.
Import Template.
Local Open Scope string_scope.
Local Open Scope nat_scope.

(** A pushed state.  A field the source leaves out of a state is [None]
    (or [false] for the flags [mismatch] and [complete]). *)
Record snapshot : Type := Snapshot {
  text : string;
  pattern : string;
  textIndex : nat;
  patternIndex : nat;
  lps : list nat;
  matches : list nat;
  comparing : option (list nat);
  matchFound : option nat;
  mismatch : bool;
  jump : option nat;
  complete : bool;
  description : string
}.

(** [a === b] on two characters read from strings, where a read past the
    end is [undefined] ([None]). *)
Definition char_eqb (a b : option ascii) : bool :=
  match a, b with
  | Some x, Some y => Ascii.eqb x y
  | None, None => true
  | _, _ => false
  end.

(** [a[i] = v] on an array without holes: overwrite, or append at
    [i = a.length].  Past that the source would leave holes; the model stops
    ([None]). *)
Fixpoint overwrite (a : list nat) (i v : nat) : list nat :=
  match a, i with
  | [], _ => []
  | _ :: rest, 0 => v :: rest
  | x :: rest, S k => x :: overwrite rest k v
  end.

Definition array_set (a : list nat) (i v : nat) : option (list nat) :=
  if i <? List.length a then Some (overwrite a i v)
  else if i =? List.length a then Some (a ++ [v])%list
  else None.

(** The loop of [buildLPS].  [None] stands for running out of fuel or for a
    read of [lps] outside its bounds, which the source would turn into
    [undefined]; [buildLPS_total] shows that neither happens. *)
Fixpoint buildLPS_loop (fuel : nat) (pat : string) (lps : list nat)
    (len i : nat) : option (list nat) :=
  match fuel with
  | 0 => None
  | S fuel' =>
      if i <? String.length pat then
        if char_eqb (String.get i pat) (String.get len pat) then
          match array_set lps i (len + 1) with
          | Some lps' => buildLPS_loop fuel' pat lps' (len + 1) (i + 1)
          | None => None
          end
        else if negb (len =? 0) then
          match nth_error lps (len - 1) with
          | Some len' => buildLPS_loop fuel' pat lps len' i
          | None => None
          end
        else
          match array_set lps i 0 with
          | Some lps' => buildLPS_loop fuel' pat lps' len (i + 1)
          | None => None
          end
      else Some lps
  end.

(** [buildLPS(pattern)]; the fuel covers every run of the loop. *)
Definition buildLPS (pat : string) : option (list nat) :=
  buildLPS_loop (2 * String.length pat + 1) pat [0] 0 1.

Section Search.

Variables (txt pat : string) (table : list nat).

Let n := String.length txt.
Let m := String.length pat.

Definition state_built : snapshot :=
  {| text := txt; pattern := pat; textIndex := 0; patternIndex := 0;
     lps := table; matches := []; comparing := Some [];
     matchFound := None; mismatch := false; jump := None; complete := false;
     description := "Built LPS array: [" ++ join table ++ "]" |}.

Definition state_comparing (i j : nat) (ms : list nat) : snapshot :=
  {| text := txt; pattern := pat; textIndex := i; patternIndex := j;
     lps := table; matches := ms; comparing := Some [i; j];
     matchFound := None; mismatch := false; jump := None; complete := false;
     description :=
       "Comparing text[" ++ nat_str i ++ "]='" ++ char_str (String.get i txt)
       ++ "' with pattern[" ++ nat_str j ++ "]='"
       ++ char_str (String.get j pat) ++ "'" |}.

Definition state_found (i j : nat) (ms : list nat) : snapshot :=
  {| text := txt; pattern := pat; textIndex := i; patternIndex := j;
     lps := table; matches := ms; comparing := Some [];
     matchFound := Some (i - j); mismatch := false; jump := None;
     complete := false;
     description := "Found match at index " ++ nat_str (i - j) ++ "!" |}.

Definition state_jump (i j k : nat) (ms : list nat) : snapshot :=
  {| text := txt; pattern := pat; textIndex := i; patternIndex := j;
     lps := table; matches := ms; comparing := None;
     matchFound := None; mismatch := true; jump := Some k; complete := false;
     description :=
       "Mismatch! Using LPS to jump pattern index from " ++ nat_str j
       ++ " to " ++ nat_str k |}.

Definition state_forward (i j : nat) (ms : list nat) : snapshot :=
  {| text := txt; pattern := pat; textIndex := i; patternIndex := j;
     lps := table; matches := ms; comparing := None;
     matchFound := None; mismatch := true; jump := None; complete := false;
     description := "Mismatch! Moving text index forward" |}.

Definition state_complete (ms : list nat) : snapshot :=
  {| text := txt; pattern := pat; textIndex := n; patternIndex := 0;
     lps := table; matches := ms; comparing := None;
     matchFound := None; mismatch := false; jump := None; complete := true;
     description :=
       "Search complete. Found " ++ nat_str (List.length ms)
       ++ " match(es)" |}.

(** The [while (i < n)] loop of [search]: the final [matches] and the states
    pushed, in order.  [i - j] is the start of the match ([j <= i]
    throughout). *)
Fixpoint search_loop (fuel i j : nat) (ms : list nat)
    : option (list nat * list snapshot) :=
  match fuel with
  | 0 => None
  | S fuel' =>
      if i <? n then
        let s := state_comparing i j ms in
        if char_eqb (String.get i txt) (String.get j pat) then
          let i' := i + 1 in
          let j' := j + 1 in
          if j' =? m then
            let ms' := (ms ++ [i' - j'])%list in
            match nth_error table (j' - 1) with
            | Some k =>
                match search_loop fuel' i' k ms' with
                | Some (r, l) => Some (r, s :: state_found i' j' ms' :: l)
                | None => None
                end
            | None => None
            end
          else
            match search_loop fuel' i' j' ms with
            | Some (r, l) => Some (r, s :: l)
            | None => None
            end
        else if negb (j =? 0) then
          match nth_error table (j - 1) with
          | Some k =>
              match search_loop fuel' i k ms with
              | Some (r, l) => Some (r, s :: state_jump i j k ms :: l)
              | None => None
              end
          | None => None
          end
        else
          match search_loop fuel' (i + 1) j ms with
          | Some (r, l) => Some (r, s :: state_forward i j ms :: l)
          | None => None
          end
      else Some (ms, [])
  end.

End Search.

(** [search()] on a matcher holding [txt] and [pat]: the returned [matches]
    and the value of [this.states] afterwards.  The fuel covers every run of
    the loop ([search_total]). *)
Definition search (txt pat : string) : option (list nat * list snapshot) :=
  if (String.length pat =? 0) || (String.length txt =? 0) then Some ([], [])
  else
    match buildLPS pat with
    | None => None
    | Some table =>
        match search_loop txt pat table (2 * String.length txt + 1) 0 0 [] with
        | Some (ms, l) =>
            Some (ms,
                  (state_built txt pat table :: l
                   ++ [state_complete txt pat table ms])%list)
        | None => None
        end
    end.

(** ** The states of [generateLPSStates] *)

(** A state of the construction of the table.  A field the source leaves
    out is [None], or [false] for a flag. *)
Record lps_snapshot : Type := LpsSnapshot {
  ls_pattern : string;
  ls_lps : list nat;
  ls_i : option nat;
  ls_len : option nat;
  ls_comparing : option (list nat);
  ls_match : bool;
  ls_mismatch : bool;
  ls_complete : bool;
  ls_description : string
}.

Section LpsStates.

Variable pat : string.

Definition lps_state_start : lps_snapshot :=
  {| ls_pattern := pat; ls_lps := [0]; ls_i := Some 1; ls_len := Some 0;
     ls_comparing := None; ls_match := false; ls_mismatch := false;
     ls_complete := false;
     ls_description :=
       "Building LPS (Longest Proper Prefix which is also Suffix)" |}.

Definition lps_state_match (t : list nat) (i len : nat) : lps_snapshot :=
  {| ls_pattern := pat; ls_lps := t; ls_i := Some i; ls_len := Some len;
     ls_comparing := Some [i; len - 1]; ls_match := true;
     ls_mismatch := false; ls_complete := false;
     ls_description :=
       "Match! pattern[" ++ nat_str i ++ "]='" ++ char_str (String.get i pat)
       ++ "' == pattern[" ++ nat_str (len - 1) ++ "]='"
       ++ char_str (String.get (len - 1) pat) ++ "', lps[" ++ nat_str i
       ++ "]=" ++ nat_str len |}.

Definition lps_state_fallback (t : list nat) (i len k : nat) : lps_snapshot :=
  {| ls_pattern := pat; ls_lps := t; ls_i := Some i; ls_len := Some len;
     ls_comparing := Some [i; len]; ls_match := false;
     ls_mismatch := true; ls_complete := false;
     ls_description :=
       "Mismatch! Falling back len from " ++ nat_str len ++ " to "
       ++ nat_str k |}.

Definition lps_state_none (t : list nat) (i : nat) : lps_snapshot :=
  {| ls_pattern := pat; ls_lps := t; ls_i := Some i; ls_len := Some 0;
     ls_comparing := None; ls_match := false;
     ls_mismatch := false; ls_complete := false;
     ls_description := "No prefix found, lps[" ++ nat_str i ++ "]=0" |}.

Definition lps_state_complete (t : list nat) : lps_snapshot :=
  {| ls_pattern := pat; ls_lps := t; ls_i := None; ls_len := None;
     ls_comparing := None; ls_match := false;
     ls_mismatch := false; ls_complete := true;
     ls_description := "LPS array complete: [" ++ join t ++ "]" |}.

(** The loop of [generateLPSStates]: the final table and the states pushed,
    in order.  [None] as in [buildLPS_loop]. *)
Fixpoint lps_states_loop (fuel : nat) (lps : list nat) (len i : nat)
    : option (list nat * list lps_snapshot) :=
  match fuel with
  | 0 => None
  | S fuel' =>
      if i <? String.length pat then
        if char_eqb (String.get i pat) (String.get len pat) then
          match array_set lps i (len + 1) with
          | Some lps' =>
              match lps_states_loop fuel' lps' (len + 1) (i + 1) with
              | Some (t, l) => Some (t, lps_state_match lps' i (len + 1) :: l)
              | None => None
              end
          | None => None
          end
        else if negb (len =? 0) then
          match nth_error lps (len - 1) with
          | Some len' =>
              match lps_states_loop fuel' lps len' i with
              | Some (t, l) =>
                  Some (t, lps_state_fallback lps i len len' :: l)
              | None => None
              end
          | None => None
          end
        else
          match array_set lps i 0 with
          | Some lps' =>
              match lps_states_loop fuel' lps' len (i + 1) with
              | Some (t, l) => Some (t, lps_state_none lps' i :: l)
              | None => None
              end
          | None => None
          end
      else Some (lps, [])
  end.

(** [generateLPSStates()] on a matcher holding [pat]. *)
Definition generateLPSStates : option (list lps_snapshot) :=
  match lps_states_loop (2 * String.length pat + 1) [0] 0 1 with
  | Some (t, l) =>
      Some (lps_state_start :: l ++ [lps_state_complete t])%list
  | None => None
  end.

End LpsStates.

(** ** Occurrences and borders *)

(** [pat] occurs in [txt] at index [k]. *)
Definition occurs_at (txt pat : string) (k : nat) : Prop :=
  k + String.length pat <= String.length txt
  /\ forall q, q < String.length pat ->
               String.get (k + q) txt = String.get q pat.

(** The first [k] characters of [pat] are also the last [k] of its first
    [j]. *)
Definition border (pat : string) (j k : nat) : Prop :=
  k <= j
  /\ forall q, q < k -> String.get q pat = String.get (j - k + q) pat.

(** [v] is the length of the longest border of the first [i + 1] characters
    of [pat] that is shorter than them. *)
Definition longest_border (pat : string) (i v : nat) : Prop :=
  v <= i /\ border pat (i + 1) v
  /\ forall k, k <= i -> border pat (i + 1) k -> k <= v.

(** Every entry of the table is the longest border at its index. *)
Definition table_correct (pat : string) (t : list nat) : Prop :=
  forall i v, nth_error t i = Some v -> longest_border pat i v.

(** The first [j] characters of [pat] are the [j] characters of [txt]
    before index [i]. *)
Definition prefix_ends_at (txt pat : string) (i j : nat) : Prop :=
  j <= i
  /\ forall q, q < j -> String.get (i - j + q) txt = String.get q pat.

(** The state of the loop of [buildLPS]: the table so far is correct, [len]
    is a border of the first [i] characters, and no border of the first
    [i + 1] is longer than [len + 1]. *)
Definition lps_invariant (pat : string) (lps : list nat) (len i : nat)
    : Prop :=
  List.length lps = i /\ len < i /\ table_correct pat lps
  /\ border pat i len
  /\ forall k, k <= i -> border pat (i + 1) k -> k <= len + 1.

(** The state of the loop of [search]: the first [j] characters of the
    pattern end at [i], no longer prefix than [j + 1] ends at [i + 1], and
    [ms] lists, in increasing order, the occurrences that end at or before
    [i]. *)
Definition search_invariant (txt pat : string) (i j : nat) (ms : list nat)
    : Prop :=
  i <= String.length txt /\ j < String.length pat
  /\ prefix_ends_at txt pat i j
  /\ (forall k, k <= String.length pat ->
                prefix_ends_at txt pat (i + 1) k -> k <= j + 1)
  /\ (forall p, occurs_at txt pat p -> p + String.length pat <= i ->
                In p ms)
  /\ (forall p, In p ms ->
                occurs_at txt pat p /\ p + String.length pat <= i)
  /\ StronglySorted lt ms.

(** The list [b] is [a] with entries added at its end. *)
Definition grows_to (a b : list nat) : Prop := exists c, b = (a ++ c)%list.

(** A state of a search that is consistent with the search: it holds the
    strings and the table of the search, indices within the strings, and
    the matches found so far. *)
Definition state_consistent (txt pat : string) (table ms : list nat)
    (s : snapshot) : Prop :=
  text s = txt /\ pattern s = pat /\ lps s = table
  /\ textIndex s <= String.length txt
  /\ patternIndex s <= String.length pat
  /\ grows_to (matches s) ms.

(** ** Predicates on tables and runs *)

(** Every entry of a failure table is at most its own index, so a fallback
    strictly shortens the matched prefix. *)
Definition table_ok (t : list nat) : Prop :=
  forall k v, nth_error t k = Some v -> v <= k.


(** The states that report a match. *)
Definition reported (l : list snapshot) : list nat :=
  flat_map
    (fun s => match matchFound s with Some k => [k] | None => [] end) l.

End KMP.

(** ** A step producer: [TowerOfHanoi] *)

Module Hanoi.
Import Template.
Local Open Scope string_scope.
Local Open Scope nat_scope.

(** A peg is an array of disks, the top disk last.  A disk read from an
    empty peg is [undefined] ([None]). *)
Definition peg : Type := list (option nat).

Record move : Type := Move {
  disk : nat;
  from : nat;
  to : nat
}.

Record snapshot : Type := Snapshot {
  pegs : list peg;
  last_move : option move;
  moveNumber : nat;
  movingDisk : option nat;
  fromPeg : option nat;
  toPeg : option nat;
  description : string
}.

(** [setNumDisks(n)], for a number [n]: the [numDisks] that it stores,
    [Math.max(1, Math.min(8, n))].  Its [reset()] builds the pegs with
    [Array.from] and does not throw. *)
Definition setNumDisks (n : JsNum.jsnum) : JsNum.jsnum :=
  JsNum.max_with 1 (JsNum.min_with 8 n).

(** [getMinMoves()]. *)
Definition getMinMoves (numDisks : nat) : nat := 2 ^ numDisks - 1.

(** [Array.from({ length: numDisks }, (_, i) => numDisks - i)]. *)
Definition full_peg (numDisks : nat) : peg :=
  List.map (fun i => Some (numDisks - i)) (seq 0 numDisks).

Definition initial_pegs (numDisks : nat) : list peg :=
  [full_peg numDisks; []; []].

(** The closure [recordMoves] of [generateStates]: the moves it pushes. *)
Fixpoint recordMoves (n source target auxiliary : nat) : list move :=
  match n with
  | 0 => []
  | S k =>
      (recordMoves k source auxiliary target
       ++ {| disk := n; from := source; to := target |}
       :: recordMoves k auxiliary target source)%list
  end.

Fixpoint replace_peg (ps : list peg) (i : nat) (p : peg) : list peg :=
  match ps, i with
  | [], _ => []
  | _ :: rest, 0 => p :: rest
  | q :: rest, S k => q :: replace_peg rest k p
  end.

(** [const disk = pegs[from].pop(); pegs[to].push(disk)].  A peg index
    outside the array would raise a TypeError ([None]). *)
Definition apply_move (ps : list peg) (mv : move) : option (list peg) :=
  match nth_error ps (from mv) with
  | None => None
  | Some pf =>
      let d := last pf None in
      let ps1 := replace_peg ps (from mv) (removelast pf) in
      match nth_error ps1 (to mv) with
      | None => None
      | Some pt => Some (replace_peg ps1 (to mv) (pt ++ [d])%list)
      end
  end.

Definition state_initial (ps : list peg) : snapshot :=
  {| pegs := ps; last_move := None; moveNumber := 0; movingDisk := None;
     fromPeg := None; toPeg := None;
     description := "Initial state: All disks on the first peg" |}.

Definition state_move (ps : list peg) (mv : move) (index : nat) : snapshot :=
  {| pegs := ps; last_move := Some mv; moveNumber := index + 1;
     movingDisk := Some (disk mv); fromPeg := Some (from mv);
     toPeg := Some (to mv);
     description :=
       "Move disk " ++ nat_str (disk mv) ++ " from Peg "
       ++ nat_str (from mv + 1) ++ " to Peg " ++ nat_str (to mv + 1) |}.

(** [moves.forEach((move, index) => ...)]: the states pushed. *)
Fixpoint play_moves (ps : list peg) (moves : list move) (index : nat)
    : option (list snapshot) :=
  match moves with
  | [] => Some []
  | mv :: rest =>
      match apply_move ps mv with
      | None => None
      | Some ps' =>
          match play_moves ps' rest (index + 1) with
          | None => None
          | Some l => Some (state_move ps' mv index :: l)
          end
      end
  end.

(** [generateStates()] on a tower of [numDisks] disks. *)
Definition generateStates (numDisks : nat) : option (list snapshot) :=
  let ps := initial_pegs numDisks in
  match play_moves ps (recordMoves numDisks 0 2 1) 0 with
  | None => None
  | Some l => Some (state_initial ps :: l)
  end.

(** ** [solve()] and its recorded moves *)

(** A move as [hanoi] records it, with the field [pegsState]. *)
Record recorded : Type := Recorded {
  r_move : move;
  pegsState : option (list peg)
}.

(** [simulateMove(from, to)] with [this.moves] as [moves]: the moves without
    a [pegsState] are applied to fresh pegs (one with a [pegsState] is
    skipped), then the move itself. *)
Fixpoint apply_unrecorded (ps : list peg) (moves : list recorded)
    : option (list peg) :=
  match moves with
  | [] => Some ps
  | r :: rest =>
      match pegsState r with
      | Some _ => apply_unrecorded ps rest
      | None =>
          match apply_move ps (r_move r) with
          | Some ps' => apply_unrecorded ps' rest
          | None => None
          end
      end
  end.

Definition simulateMove (numDisks : nat) (moves : list recorded)
    (source target : nat) : option (list peg) :=
  match apply_unrecorded (initial_pegs numDisks) moves with
  | Some ps =>
      (* [apply_move] reads the two pegs of a move only *)
      apply_move ps {| disk := 0; from := source; to := target |}
  | None => None
  end.

(** [hanoi(n, source, target, auxiliary)] with [this.moves] as [moves]: the
    value of [this.moves] afterwards. *)
Fixpoint hanoi (numDisks n source target auxiliary : nat)
    (moves : list recorded) : option (list recorded) :=
  match n with
  | 0 => Some moves
  | S k =>
      match hanoi numDisks k source auxiliary target moves with
      | None => None
      | Some moves1 =>
          match simulateMove numDisks moves1 source target with
          | None => None
          | Some st =>
              hanoi numDisks k auxiliary target source
                (moves1
                 ++ [{| r_move :=
                          {| disk := n; from := source; to := target |};
                        pegsState := Some st |}])%list
          end
      end
  end.

(** [solve()]. *)
Definition solve (numDisks : nat) : option (list recorded) :=
  hanoi numDisks numDisks 0 2 1 [].

(** The recorded move has the state that its move alone gives from the
    first position. *)
Definition first_position_state (numDisks : nat) (r : recorded) : Prop :=
  pegsState r <> None
  /\ pegsState r = apply_move (initial_pegs numDisks) (r_move r).

(** ** Legal positions *)

(** The disk [x] may lie under the disk [y]. *)
Definition above (x y : option nat) : Prop :=
  match x, y with
  | Some a, Some b => b < a
  | _, _ => False
  end.

(** A peg of disks, each smaller than all those under it. *)
Definition descending (p : peg) : Prop := StronglySorted above p.

(** Three pegs, each descending. *)
Definition legal (ps : list peg) : Prop :=
  List.length ps = 3 /\ Forall descending ps.

(** The disks of [p] are all larger than [n]. *)
Definition big (n : nat) (p : peg) : Prop :=
  Forall (fun d => match d with Some x => n < x | None => False end) p.

(** The state of a move shows the disk the move names on top of the peg
    the move goes to. *)
Definition shows_its_disk (s : snapshot) : Prop :=
  match last_move s with
  | Some mv => last (nth (to mv) (pegs s) []) None = Some (disk mv)
  | None => True
  end.

(** The pegs [a], [b] and [c] are the three pegs. *)
Definition three_pegs (a b c : nat) : Prop :=
  a < 3 /\ b < 3 /\ c < 3 /\ a <> b /\ b <> c /\ a <> c.

(** The pegs [a], [b], [c] of [ps] hold [pa], [pb], [pc]. *)
Definition holds (ps : list peg) (a b c : nat) (pa pb pc : peg) : Prop :=
  List.length ps = 3
  /\ nth a ps [] = pa /\ nth b ps [] = pb /\ nth c ps [] = pc.

(** Every move goes between two of the three pegs. *)
Definition on_pegs (k : nat) (mv : move) : Prop := from mv < k /\ to mv < k.

End Hanoi.

(** ** A step producer: [NQueens.generateStates] *)

Module NQueens.
Import Template.
Local Open Scope string_scope.
Local Open Scope nat_scope.

(** A queen [{ row, col }]. *)
Definition queen : Type := (nat * Z)%type.

(** The content of a state of the returned array, as it is once
    [generateStates] has returned.  [currentRow] and [currentCol] can be
    [-1]; [checking] and [safe] are [None] where the source has [null] or
    leaves the field out. *)
Record snapshot : Type := Snapshot {
  board : list (list nat);
  queens : list queen;
  currentRow : Z;
  currentCol : Z;
  checking : option (nat * nat);
  conflicts : list queen;
  safe : option bool;
  description : string;
  solutionsFound : nat;
  isSolution : bool;
  isBacktrack : bool
}.

Section Solver.

(** [this.n] and the argument [findFirst]. *)
Variables (n : nat) (findFirst : bool).

(** The queens of the rows below [k], read from [board] (the array of one
    column per row, [-1] for none):
    [for (r = 0; r < k; r++) if (board[r] >= 0) queens.push(...)]. *)
Definition placed_queens (b : list Z) (k : nat) : list queen :=
  flat_map
    (fun r =>
       match nth_error b r with
       | Some c => if (0 <=? c)%Z then [(r, c)] else []
       | None => []
       end)
    (seq 0 k).

(** An [n] by [n] grid of zeros with a one at every queen of [qs]; every
    column the source writes to a grid is below [n]. *)
Definition has_queen (qs : list queen) (r c : nat) : bool :=
  existsb (fun q => (fst q =? r) && (snd q =? Z.of_nat c)%Z) qs.

Definition grid_of (qs : list queen) : list (list nat) :=
  List.map
    (fun r =>
       List.map (fun c => if has_queen qs r c then 1 else 0) (seq 0 n))
    (seq 0 n).

(** The rows below [row] whose queen attacks [(row, col)]. *)
Definition find_conflicts (b : list Z) (row col : nat) : list queen :=
  flat_map
    (fun r =>
       match nth_error b r with
       | Some c =>
           if (c =? Z.of_nat col)%Z
              || (Z.abs (Z.of_nat r - Z.of_nat row)
                  =? Z.abs (c - Z.of_nat col))%Z
           then [(r, c)] else []
       | None => []
       end)
    (seq 0 row).

(** [board[row] = v]. *)
Fixpoint set_row (b : list Z) (row : nat) (v : Z) : list Z :=
  match b, row with
  | [], _ => []
  | _ :: rest, 0 => v :: rest
  | x :: rest, S k => x :: set_row rest k v
  end.

Definition state_start : snapshot :=
  {| board := grid_of []; queens := []; currentRow := 0; currentCol := -1;
     checking := None; conflicts := []; safe := None;
     description := "Starting N-Queens solver";
     solutionsFound := 0; isSolution := false; isBacktrack := false |}.

Definition state_solution (b : list Z) (found : nat) : snapshot :=
  {| board := grid_of (placed_queens b n); queens := placed_queens b n;
     currentRow := -1; currentCol := -1;
     checking := None; conflicts := []; safe := None;
     description := "Solution " ++ nat_str found ++ " found!";
     solutionsFound := found; isSolution := true; isBacktrack := false |}.

(** The state of a check.  It is pushed with references to the arrays
    [boardGrid] and [queens], which the same iteration then changes: a safe
    square is set in [boardGrid], and its queen is pushed on [queens] and
    popped again only when the search below returns [false] ([kept] says
    that it returned [true]). *)
Definition state_check (b : list Z) (row col : nat) (found : nat)
    (kept : bool) : snapshot :=
  let qs := placed_queens b row in
  let cf := find_conflicts b row col in
  let ok := match cf with [] => true | _ => false end in
  {| board :=
       if ok then grid_of (qs ++ [(row, Z.of_nat col)])%list else grid_of qs;
     queens :=
       if ok && kept then (qs ++ [(row, Z.of_nat col)])%list else qs;
     currentRow := Z.of_nat row; currentCol := Z.of_nat col;
     checking := Some (row, col); conflicts := cf; safe := Some ok;
     description :=
       if ok
       then "Row " ++ nat_str (row + 1) ++ ", Col " ++ nat_str (col + 1)
            ++ ": Safe position"
       else "Row " ++ nat_str (row + 1) ++ ", Col " ++ nat_str (col + 1)
            ++ ": Conflicts detected";
     solutionsFound := found; isSolution := false; isBacktrack := false |}.

Definition state_placed (b : list Z) (row col : nat) (found : nat)
    : snapshot :=
  let qs := (placed_queens b row ++ [(row, Z.of_nat col)])%list in
  {| board := grid_of qs; queens := qs;
     currentRow := Z.of_nat row; currentCol := Z.of_nat col;
     checking := None; conflicts := []; safe := None;
     description :=
       "Placed queen at row " ++ nat_str (row + 1) ++ ", column "
       ++ nat_str (col + 1);
     solutionsFound := found; isSolution := false; isBacktrack := false |}.

(** The state of a backtrack: its grid is read from the array [board] as
    it is now ([b']), its queens are those read for the check ([b]) that lie
    below [row]. *)
Definition state_backtrack (b b' : list Z) (row col : nat) (found : nat)
    : snapshot :=
  {| board := grid_of (placed_queens b' row);
     queens := filter (fun q => fst q <? row) (placed_queens b row);
     currentRow := Z.of_nat row; currentCol := Z.of_nat col;
     checking := None; conflicts := []; safe := None;
     description := "Backtracking from row " ++ nat_str (row + 1);
     solutionsFound := found; isSolution := false; isBacktrack := true |}.

(** The result of a call of the closure [solve]: the returned boolean, the
    array [board] and the counter [solutionsFound] afterwards, and the states
    pushed, in order. *)
Definition outcome : Type := (bool * list Z * nat * list snapshot)%type.

(** [solve(row)]; [fuel] bounds the depth of the recursion, and [None] is
    a search cut short by it. *)
Fixpoint solve (fuel : nat) (row : nat) (b : list Z) (found : nat)
    : option outcome :=
  match fuel with
  | 0 => None
  | S fuel' =>
      if n <=? row then
        let found' := found + 1 in
        Some (findFirst, b, found', [state_solution b found'])
      else
        (fix columns (cols : list nat) (b : list Z) (found : nat)
           : option outcome :=
           match cols with
           | [] => Some (false, b, found, [])
           | col :: rest =>
               match find_conflicts b row col with
               | [] =>
                   let b1 := set_row b row (Z.of_nat col) in
                   match solve fuel' (row + 1) b1 found with
                   | None => None
                   | Some (true, b2, found2, l) =>
                       Some (true, b2, found2,
                             state_check b row col found true
                             :: state_placed b row col found :: l)
                   | Some (false, b2, found2, l) =>
                       let b3 := set_row b2 row (-1) in
                       match columns rest b3 found2 with
                       | None => None
                       | Some (r, b4, found4, l') =>
                           Some (r, b4, found4,
                                 state_check b row col found false
                                 :: state_placed b row col found
                                 :: l
                                 ++ state_backtrack b b3 row col found2
                                 :: l')%list
                       end
                   end
               | _ :: _ =>
                   match columns rest b found with
                   | None => None
                   | Some (r, b', found', l') =>
                       Some (r, b', found',
                             state_check b row col found false :: l')
                   end
               end
           end) (seq 0 n) b found
  end.

(** [generateStates(findFirst)]: the returned array.  The recursion is at
    most [n + 1] calls deep ([solve_total]). *)
Definition generateStates : option (list snapshot) :=
  match solve (n + 1) 0 (repeat (-1)%Z n) 0 with
  | None => None
  | Some (_, _, _, l) => Some (state_start :: l)
  end.

End Solver.

(** ** [isSafe], [solveRecursive] and [solve()] *)

(** The board of [solve()]: rows of zeros and ones. *)
Definition grid : Type := list (list nat).

(** [board[i][j]], [undefined] ([None]) outside the board. *)
Definition cell (g : grid) (i j : nat) : option nat :=
  match nth_error g i with
  | Some r => nth_error r j
  | None => None
  end.

(** [board[i][j] === 1]. *)
Definition is_queen (g : grid) (i j : nat) : bool :=
  match cell g i j with
  | Some 1 => true
  | _ => false
  end.

Fixpoint set_nth (r : list nat) (j v : nat) : list nat :=
  match r, j with
  | [], _ => []
  | _ :: rest, 0 => v :: rest
  | x :: rest, S k => x :: set_nth rest k v
  end.

(** [board[i][j] = v] for a square of the board. *)
Fixpoint grid_set (g : grid) (i j v : nat) : grid :=
  match g, i with
  | [], _ => []
  | r :: rest, 0 => set_nth r j v :: rest
  | r :: rest, S k => r :: grid_set rest k j v
  end.

Inductive step_type : Type := Try | Place | Remove.

(** The [type] of a conflict that [findConflicts] reports. *)
Inductive conflict_type : Type := Column | Diagonal.

(** A step pushed by [solveRecursive]. *)
Record step : Type := Step {
  sp_type : step_type;
  sp_row : nat;
  sp_col : nat;
  sp_board : grid;
  sp_safe : option bool;
  sp_description : string
}.

Section Recursive.

Variable n : nat.

(** The three loops of [isSafe]: the column above [row]; the diagonal up
    and to the left, from the square before [(i, j)]; the diagonal up and
    to the right, from the square [(i - 1, j)], as far as the board goes. *)
Definition column_free (g : grid) (row col : nat) : bool :=
  forallb (fun i => negb (is_queen g i col)) (seq 0 row).

Fixpoint upper_left_free (g : grid) (i j : nat) : bool :=
  match i, j with
  | S i', S j' => if is_queen g i' j' then false else upper_left_free g i' j'
  | _, _ => true
  end.

Fixpoint upper_right_free (g : grid) (i j : nat) : bool :=
  match i with
  | S i' =>
      if j <? n then
        if is_queen g i' j then false else upper_right_free g i' (j + 1)
      else true
  | 0 => true
  end.

(** [isSafe(board, row, col)]. *)
Definition isSafe (g : grid) (row col : nat) : bool :=
  column_free g row col && upper_left_free g row col
  && upper_right_free g row (col + 1).

Definition step_try (g : grid) (row col : nat) : step :=
  {| sp_type := Try; sp_row := row; sp_col := col; sp_board := g;
     sp_safe := Some (isSafe g row col);
     sp_description :=
       "Trying queen at row " ++ nat_str (row + 1) ++ ", column "
       ++ nat_str (col + 1) |}.

Definition step_place (g : grid) (row col : nat) : step :=
  {| sp_type := Place; sp_row := row; sp_col := col; sp_board := g;
     sp_safe := None;
     sp_description :=
       "Placed queen at row " ++ nat_str (row + 1) ++ ", column "
       ++ nat_str (col + 1) |}.

Definition step_remove (g : grid) (row col : nat) : step :=
  {| sp_type := Remove; sp_row := row; sp_col := col; sp_board := g;
     sp_safe := None;
     sp_description :=
       "Backtracking: removed queen from row " ++ nat_str (row + 1)
       ++ ", column " ++ nat_str (col + 1) |}.

(** The loop over the columns of [solveRecursive(row)], with the call
    [solveRecursive(row + 1)] as [next]: the board afterwards, and the
    solutions and the steps pushed, in order. *)
Definition try_columns
    (next : grid -> option (bool * grid * list grid * list step))
    (row : nat)
    : list nat -> grid -> option (grid * list grid * list step) :=
  fix loop (cols : list nat) (g : grid) :=
    match cols with
    | [] => Some (g, [], [])
    | col :: rest =>
        if isSafe g row col then
          let g1 := grid_set g row col 1 in
          match next g1 with
          | None => None
          | Some (_, g2, sols, steps) =>
              let g3 := grid_set g2 row col 0 in
              match loop rest g3 with
              | None => None
              | Some (g4, sols', steps') =>
                  Some (g4, (sols ++ sols')%list,
                        (step_try g row col :: step_place g1 row col
                         :: steps ++ step_remove g3 row col :: steps')%list)
              end
          end
        else
          match loop rest g with
          | None => None
          | Some (g', sols', steps') =>
              Some (g', sols', step_try g row col :: steps')
          end
    end.

(** [solveRecursive(row)] on the board [g]: the returned boolean, the board
    afterwards, and the solutions and the steps pushed.  [fuel] bounds the
    depth of the recursion. *)
Fixpoint solveRecursive (fuel : nat) (row : nat) (g : grid)
    : option (bool * grid * list grid * list step) :=
  match fuel with
  | 0 => None
  | S fuel' =>
      if n <=? row then Some (true, g, [g], [])
      else
        match try_columns (solveRecursive fuel' (row + 1)) row (seq 0 n) g
        with
        | Some (g', sols, steps) => Some (false, g', sols, steps)
        | None => None
        end
  end.

(** [findConflicts(board, row, col)]: the queens of the column [col], then
    the queens on the diagonals of [(row, col)], those of the row [row] left
    out of both; read on a board of [n] rows. *)
Definition same_diagonal (i j row col : nat) : bool :=
  (Z.abs (Z.of_nat i - Z.of_nat row)
   =? Z.abs (Z.of_nat j - Z.of_nat col))%Z.

Definition findConflicts (g : grid) (row col : nat)
    : list (nat * nat * conflict_type) :=
  (flat_map
     (fun i =>
        if negb (i =? row) && is_queen g i col then [(i, col, Column)]
        else [])
     (seq 0 n)
   ++ flat_map
        (fun i =>
           flat_map
             (fun j =>
                if is_queen g i j && negb (i =? row) && negb (j =? col)
                then if same_diagonal i j row col then [(i, j, Diagonal)]
                     else []
                else [])
             (seq 0 n))
        (seq 0 n))%list.

(** The board of zeros that [reset()] builds. *)
Definition empty_grid : grid := repeat (repeat 0 n) n.

(** [solve()]: the returned [this.solutions], with [this.board] and
    [this.steps] afterwards. *)
Definition solve_all : option (list grid * grid * list step) :=
  match solveRecursive (n + 1) 0 empty_grid with
  | Some (_, g, sols, steps) => Some (sols, g, steps)
  | None => None
  end.

End Recursive.

(** [reset()] with the number [n] as [this.n]: the board it builds, or the
    [RangeError] ([None]) of [Array(this.n)]. *)
Definition reset (n : JsNum.jsnum) : option grid :=
  option_map empty_grid (JsNum.array_length n).

(** [setSize(n)], for a number [n]: the [this.n] that it stores,
    [Math.max(4, Math.min(12, n))], and the outcome of the [reset()] that it
    then calls. *)
Definition setSize (n : JsNum.jsnum) : JsNum.jsnum * option grid :=
  let stored := JsNum.max_with 4 (JsNum.min_with 12 n) in
  (stored, reset stored).

(** ** Placements *)

(** The queens in rows [r'] and [r], columns [c'] and [c], attack each
    other. *)
Definition attacks (r' : nat) (c' : Z) (r : nat) (c : Z) : Prop :=
  c' = c \/ Z.abs (Z.of_nat r' - Z.of_nat r) = Z.abs (c' - c).

(** The rows below [row] of the array [b] hold queens on the board, none
    attacking another. *)
Definition safe_rows (n : nat) (b : list Z) (row : nat) : Prop :=
  List.length b = n
  /\ forall r, r < row ->
       exists c, nth_error b r = Some c /\ (0 <= c < Z.of_nat n)%Z
                 /\ forall r' c', r' < r -> nth_error b r' = Some c' ->
                                  ~ attacks r' c' r c.

(** A solution of the problem: one queen in each row, in the order of the
    rows, each on the board, none attacking another. *)
Definition valid_solution (n : nat) (qs : list queen) : Prop :=
  List.map fst qs = seq 0 n
  /\ Forall (fun q => (0 <= snd q < Z.of_nat n)%Z) qs
  /\ forall i j qi qj,
      i < j -> nth_error qs i = Some qi -> nth_error qs j = Some qj ->
      ~ attacks (fst qi) (snd qi) (fst qj) (snd qj).

(** In [l], every solution state holds a solution of the problem. *)
Definition solutions_valid (n : nat) (l : list snapshot) : Prop :=
  Forall (fun s => isSolution s = true -> valid_solution n (queens s)) l.

(** The array [b'] is [b] below [row], and as long. *)
Definition same_below (row : nat) (b b' : list Z) : Prop :=
  List.length b' = List.length b
  /\ forall r, r < row -> nth_error b' r = nth_error b r.

(** The board [g] has [n] rows, and no queen in the row [row] or in a row
    after it: the boards on which [solveRecursive(row)] works. *)
Definition filled_below (n : nat) (g : grid) (row : nat) : Prop :=
  List.length g = n
  /\ forall i j, row <= i -> is_queen g i j = false.

(** The last state of [l] is a solution state. *)
Definition ends_in_solution (l : list snapshot) : bool :=
  match rev l with
  | s :: _ => isSolution s
  | [] => false
  end.

(** [generateStates(true)] on a board of size [n] ends in a solution
    state. *)
Definition first_solution_found (n : nat) : bool :=
  match generateStates n true with
  | Some l => ends_in_solution l
  | None => false
  end.

(** The boards of the solution states of [l]. *)
Definition solution_boards (l : list snapshot) : list grid :=
  List.map board (filter isSolution l).

(** Each state of [l] reports, as [solutionsFound], [c] plus the number of
    solution states up to and including it. *)
Fixpoint counted (c : nat) (l : list snapshot) : Prop :=
  match l with
  | [] => True
  | s :: rest =>
      let c' := if isSolution s then c + 1 else c in
      solutionsFound s = c' /\ counted c' rest
  end.

(** The number of solution states of [l]. *)
Definition solutions_in (l : list snapshot) : nat :=
  List.length (filter isSolution l).
(** What a call of the search that starts with [found] solutions reports:
    its states count on from [found]; it returns [true] only under
    [findFirst], with a solution state pushed last and none before; and
    under [findFirst] it returns [false] without any solution state. *)
Definition search_report (findFirst : bool) (found : nat) (out : outcome)
    : Prop :=
  let '(r, _, found', l) := out in
  counted found l
  /\ found' = found + solutions_in l
  /\ (r = true ->
      findFirst = true
      /\ exists l0 s, l = (l0 ++ [s])%list /\ isSolution s = true
                      /\ solutions_in l0 = 0)
  /\ (findFirst = true -> r = false -> solutions_in l = 0).

End NQueens.

(** * Properties of the playback engine *)

Module AnimatorFacts.
Import JsNum Animator.
Local Open Scope Z_scope.

Section Facts.

Variable Snapshot : Type.
Local Abbreviation engine := (engine Snapshot).

Create Rewrite HintDb engine_fields.

(** ** What the notifications and the host leave alone *)

Ltac by_cases_on_callbacks :=
  unfold notifyStateChange, notifyStepChange;
  repeat match goal with
         | |- context [if ?b then _ else _] => destruct b eqn:?
         end;
  cbn; (reflexivity || assumption).

Lemma notifyStateChange_isPlaying (e : engine) :
  isPlaying (notifyStateChange e) = isPlaying e.
Proof. by_cases_on_callbacks. Qed.

Lemma notifyStateChange_isPaused (e : engine) :
  isPaused (notifyStateChange e) = isPaused e.
Proof. by_cases_on_callbacks. Qed.

Lemma notifyStateChange_currentStep (e : engine) :
  currentStep (notifyStateChange e) = currentStep e.
Proof. by_cases_on_callbacks. Qed.

Lemma notifyStateChange_totalSteps (e : engine) :
  totalSteps (notifyStateChange e) = totalSteps e.
Proof. by_cases_on_callbacks. Qed.

Lemma notifyStateChange_speed (e : engine) :
  speed (notifyStateChange e) = speed e.
Proof. by_cases_on_callbacks. Qed.

Lemma notifyStateChange_steps (e : engine) :
  steps (notifyStateChange e) = steps e.
Proof. by_cases_on_callbacks. Qed.

Lemma notifyStateChange_animationFrameId (e : engine) :
  animationFrameId (notifyStateChange e) = animationFrameId e.
Proof. by_cases_on_callbacks. Qed.

Lemma notifyStateChange_lastFrameTime (e : engine) :
  lastFrameTime (notifyStateChange e) = lastFrameTime e.
Proof. by_cases_on_callbacks. Qed.

Lemma notifyStateChange_stepDuration (e : engine) :
  stepDuration (notifyStateChange e) = stepDuration e.
Proof. by_cases_on_callbacks. Qed.

Lemma notifyStateChange_onStepChange (e : engine) :
  onStepChange (notifyStateChange e) = onStepChange e.
Proof. by_cases_on_callbacks. Qed.

Lemma notifyStateChange_onComplete (e : engine) :
  onComplete (notifyStateChange e) = onComplete e.
Proof. by_cases_on_callbacks. Qed.

Lemma notifyStateChange_onStateChange (e : engine) :
  onStateChange (notifyStateChange e) = onStateChange e.
Proof. by_cases_on_callbacks. Qed.

Lemma notifyStateChange_pending (e : engine) :
  pending (notifyStateChange e) = pending e.
Proof. by_cases_on_callbacks. Qed.

Lemma notifyStateChange_nextFrameId (e : engine) :
  nextFrameId (notifyStateChange e) = nextFrameId e.
Proof. by_cases_on_callbacks. Qed.

Lemma notifyStepChange_isPlaying (e : engine) :
  isPlaying (notifyStepChange e) = isPlaying e.
Proof. by_cases_on_callbacks. Qed.

Lemma notifyStepChange_isPaused (e : engine) :
  isPaused (notifyStepChange e) = isPaused e.
Proof. by_cases_on_callbacks. Qed.

Lemma notifyStepChange_currentStep (e : engine) :
  currentStep (notifyStepChange e) = currentStep e.
Proof. by_cases_on_callbacks. Qed.

Lemma notifyStepChange_totalSteps (e : engine) :
  totalSteps (notifyStepChange e) = totalSteps e.
Proof. by_cases_on_callbacks. Qed.

Lemma notifyStepChange_speed (e : engine) :
  speed (notifyStepChange e) = speed e.
Proof. by_cases_on_callbacks. Qed.

Lemma notifyStepChange_steps (e : engine) :
  steps (notifyStepChange e) = steps e.
Proof. by_cases_on_callbacks. Qed.

Lemma notifyStepChange_animationFrameId (e : engine) :
  animationFrameId (notifyStepChange e) = animationFrameId e.
Proof. by_cases_on_callbacks. Qed.

Lemma notifyStepChange_lastFrameTime (e : engine) :
  lastFrameTime (notifyStepChange e) = lastFrameTime e.
Proof. by_cases_on_callbacks. Qed.

Lemma notifyStepChange_stepDuration (e : engine) :
  stepDuration (notifyStepChange e) = stepDuration e.
Proof. by_cases_on_callbacks. Qed.

Lemma notifyStepChange_onStepChange (e : engine) :
  onStepChange (notifyStepChange e) = onStepChange e.
Proof. by_cases_on_callbacks. Qed.

Lemma notifyStepChange_onComplete (e : engine) :
  onComplete (notifyStepChange e) = onComplete e.
Proof. by_cases_on_callbacks. Qed.

Lemma notifyStepChange_onStateChange (e : engine) :
  onStateChange (notifyStepChange e) = onStateChange e.
Proof. by_cases_on_callbacks. Qed.

Lemma notifyStepChange_pending (e : engine) :
  pending (notifyStepChange e) = pending e.
Proof. by_cases_on_callbacks. Qed.

Lemma notifyStepChange_nextFrameId (e : engine) :
  nextFrameId (notifyStepChange e) = nextFrameId e.
Proof. by_cases_on_callbacks. Qed.

#[local] Hint Rewrite
  notifyStateChange_isPlaying notifyStateChange_isPaused
  notifyStateChange_currentStep notifyStateChange_totalSteps
  notifyStateChange_speed notifyStateChange_steps
  notifyStateChange_animationFrameId notifyStateChange_lastFrameTime
  notifyStateChange_stepDuration notifyStateChange_onStepChange
  notifyStateChange_onComplete notifyStateChange_onStateChange
  notifyStateChange_pending notifyStateChange_nextFrameId
  notifyStepChange_isPlaying notifyStepChange_isPaused
  notifyStepChange_currentStep notifyStepChange_totalSteps
  notifyStepChange_speed notifyStepChange_steps
  notifyStepChange_animationFrameId notifyStepChange_lastFrameTime
  notifyStepChange_stepDuration notifyStepChange_onStepChange
  notifyStepChange_onComplete notifyStepChange_onStateChange
  notifyStepChange_pending notifyStepChange_nextFrameId
  : engine_fields.

Ltac fields := repeat (autorewrite with engine_fields; cbn [
  isPlaying isPaused currentStep totalSteps speed steps animationFrameId
  lastFrameTime stepDuration onStepChange onComplete onStateChange pending
  nextFrameId log
  set_playing set_currentStep set_steps set_speed set_lastFrameTime
  set_frames emit requestAnimationFrame cancelAnimationFrame]).

(** ** The position after each method *)

Lemma pause_currentStep (e : engine) :
  currentStep (pause e) = currentStep e.
Proof.
  unfold pause; fields. destruct (animationFrameId e); fields; reflexivity.
Qed.

Lemma pause_totalSteps (e : engine) :
  totalSteps (pause e) = totalSteps e.
Proof.
  unfold pause; fields. destruct (animationFrameId e); fields; reflexivity.
Qed.

Lemma pause_isPlaying (e : engine) : isPlaying (pause e) = false.
Proof.
  unfold pause; fields. destruct (animationFrameId e); fields; reflexivity.
Qed.

Lemma pause_onStateChange (e : engine) :
  onStateChange (pause e) = onStateChange e.
Proof.
  unfold pause; fields. destruct (animationFrameId e); fields; reflexivity.
Qed.

Lemma reset_currentStep (e : engine) : currentStep (reset e) = 0.
Proof. unfold reset; fields; reflexivity. Qed.

Lemma reset_totalSteps (e : engine) : totalSteps (reset e) = totalSteps e.
Proof. unfold reset; fields; reflexivity. Qed.

Lemma stop_currentStep (e : engine) : currentStep (stop e) = 0.
Proof. unfold stop; fields; reflexivity. Qed.

Lemma stop_totalSteps (e : engine) : totalSteps (stop e) = totalSteps e.
Proof. unfold stop; fields; apply pause_totalSteps. Qed.

Lemma goToStep_currentStep (i : Z) (e : engine) :
  currentStep (goToStep i e) = Z.max 0 (Z.min i (totalSteps e - 1)).
Proof. unfold goToStep; fields; reflexivity. Qed.

Lemma goToStep_totalSteps (i : Z) (e : engine) :
  totalSteps (goToStep i e) = totalSteps e.
Proof. unfold goToStep; fields; reflexivity. Qed.

Lemma stepForward_currentStep (e : engine) :
  currentStep (stepForward e)
  = if currentStep e <? totalSteps e - 1 then currentStep e + 1
    else currentStep e.
Proof.
  unfold stepForward; destruct (currentStep e <? totalSteps e - 1);
    fields; reflexivity.
Qed.

Lemma stepForward_totalSteps (e : engine) :
  totalSteps (stepForward e) = totalSteps e.
Proof.
  unfold stepForward; destruct (currentStep e <? totalSteps e - 1);
    fields; reflexivity.
Qed.

Lemma stepBackward_currentStep (e : engine) :
  currentStep (stepBackward e)
  = if 0 <? currentStep e then currentStep e - 1 else currentStep e.
Proof.
  unfold stepBackward; destruct (0 <? currentStep e); fields; reflexivity.
Qed.

Lemma stepBackward_totalSteps (e : engine) :
  totalSteps (stepBackward e) = totalSteps e.
Proof.
  unfold stepBackward; destruct (0 <? currentStep e); fields; reflexivity.
Qed.

Lemma setSpeed_currentStep (x : Q) (e : engine) :
  currentStep (setSpeed x e) = currentStep e.
Proof. unfold setSpeed; fields; reflexivity. Qed.

Lemma setSpeed_totalSteps (x : Q) (e : engine) :
  totalSteps (setSpeed x e) = totalSteps e.
Proof. unfold setSpeed; fields; reflexivity. Qed.

(** A frame of the advancing loop moves the position by at most one step
    forward, and never past the final index. *)
Lemma animate_currentStep (now : Q) (e : engine) :
  currentStep (animate now e) = currentStep e
  \/ (currentStep e < totalSteps e - 1
      /\ currentStep (animate now e) = currentStep e + 1).
Proof.
  unfold animate.
  destruct (isPlaying e); cbn [negb]; [|left; reflexivity].
  destruct (JsNum.geb _ _); [|left; reflexivity].
  fields.
  destruct (currentStep e <? totalSteps e - 1) eqn:Hlt.
  - right. apply Z.ltb_lt in Hlt. fields. split; [exact Hlt|reflexivity].
  - left. destruct (onComplete (pause _)); fields;
      rewrite pause_currentStep; reflexivity.
Qed.

Lemma animate_totalSteps (now : Q) (e : engine) :
  totalSteps (animate now e) = totalSteps e.
Proof.
  unfold animate.
  destruct (isPlaying e); cbn [negb]; [|reflexivity].
  destruct (JsNum.geb _ _); [|reflexivity].
  fields.
  destruct (currentStep e <? totalSteps e - 1); fields; [reflexivity|].
  destruct (onComplete (pause _)); fields; rewrite pause_totalSteps;
    reflexivity.
Qed.

Lemma play_restart_currentStep (e : engine) :
  currentStep (play_restart e)
  = if totalSteps e - 1 <=? currentStep e then 0 else currentStep e.
Proof.
  unfold play_restart; destruct (totalSteps e - 1 <=? currentStep e);
    [apply reset_currentStep|reflexivity].
Qed.

Lemma play_restart_totalSteps (e : engine) :
  totalSteps (play_restart e) = totalSteps e.
Proof.
  unfold play_restart; destruct (totalSteps e - 1 <=? currentStep e);
    [apply reset_totalSteps|reflexivity].
Qed.

(** ** The position stays within the sequence *)

Lemma animate_in_bounds (now : Q) (e : engine) :
  in_bounds e -> in_bounds (animate now e).
Proof.
  unfold in_bounds; intros H.
  rewrite animate_totalSteps.
  destruct (animate_currentStep now e) as [-> | [Hlt ->]]; lia.
Qed.

Lemma play_in_bounds (t0 t1 : Q) (e : engine) :
  in_bounds e -> in_bounds (play t0 t1 e).
Proof.
  intros H. unfold play, in_bounds. fields.
  apply animate_in_bounds. unfold in_bounds, play_start. fields.
  rewrite play_restart_currentStep, play_restart_totalSteps.
  unfold in_bounds in H.
  destruct (totalSteps e - 1 <=? currentStep e); lia.
Qed.

Lemma pause_in_bounds (e : engine) : in_bounds e -> in_bounds (pause e).
Proof.
  unfold in_bounds. rewrite pause_currentStep, pause_totalSteps. auto.
Qed.

Lemma frame_in_bounds (id : positive) (now : Q) (e : engine) :
  in_bounds e -> in_bounds (frame id now e).
Proof.
  intros H. unfold frame. destruct (existsb _ _); [|exact H].
  apply animate_in_bounds. exact H.
Qed.

Lemma frame_totalSteps (id : positive) (now : Q) (e : engine) :
  totalSteps (frame id now e) = totalSteps e.
Proof.
  unfold frame. destruct (existsb _ _); [|reflexivity].
  rewrite animate_totalSteps. reflexivity.
Qed.

Lemma play_totalSteps (t0 t1 : Q) (e : engine) :
  totalSteps (play t0 t1 e) = totalSteps e.
Proof.
  unfold play. fields. rewrite animate_totalSteps. unfold play_start. fields.
  apply play_restart_totalSteps.
Qed.

Lemma exec_totalSteps (c : call) (e : engine) :
  totalSteps (exec c e) = totalSteps e.
Proof.
  destruct c; cbn [exec].
  - apply play_totalSteps.
  - apply pause_totalSteps.
  - unfold toggle. destruct (isPlaying e);
      [apply pause_totalSteps|apply play_totalSteps].
  - apply stop_totalSteps.
  - apply reset_totalSteps.
  - apply goToStep_totalSteps.
  - apply stepForward_totalSteps.
  - apply stepBackward_totalSteps.
  - apply setSpeed_totalSteps.
  - apply frame_totalSteps.
Qed.

Lemma exec_in_bounds (c : call) (e : engine) :
  in_bounds e -> in_bounds (exec c e).
Proof.
  intros H. destruct c; cbn [exec].
  - apply play_in_bounds, H.
  - apply pause_in_bounds, H.
  - unfold toggle. destruct (isPlaying e);
      [apply pause_in_bounds, H|apply play_in_bounds, H].
  - unfold in_bounds. rewrite stop_currentStep. lia.
  - unfold in_bounds. rewrite reset_currentStep. lia.
  - unfold in_bounds. rewrite goToStep_currentStep, goToStep_totalSteps. lia.
  - unfold in_bounds in *.
    rewrite stepForward_currentStep, stepForward_totalSteps.
    destruct (currentStep e <? totalSteps e - 1) eqn:Hlt; [|exact H].
    apply Z.ltb_lt in Hlt. lia.
  - unfold in_bounds in *.
    rewrite stepBackward_currentStep, stepBackward_totalSteps.
    destruct (0 <? currentStep e) eqn:Hlt; [|exact H].
    apply Z.ltb_lt in Hlt. lia.
  - unfold in_bounds in *.
    rewrite setSpeed_currentStep, setSpeed_totalSteps. exact H.
  - apply frame_in_bounds, H.
Qed.

Lemma run_totalSteps (cs : list call) (e : engine) :
  totalSteps (run cs e) = totalSteps e.
Proof.
  revert e. induction cs as [|c cs IH]; intro e; [reflexivity|].
  cbn [run fold_left]. fold (run cs (exec c e)).
  rewrite IH. apply exec_totalSteps.
Qed.

Lemma run_in_bounds (cs : list call) (e : engine) :
  in_bounds e -> in_bounds (run cs e).
Proof.
  revert e. induction cs as [|c cs IH]; intros e H; [exact H|].
  cbn [run fold_left]. fold (run cs (exec c e)).
  apply IH, exec_in_bounds, H.
Qed.

Lemma setSteps_fields (l : list Snapshot) (e : engine) :
  steps (setSteps l e) = l
  /\ totalSteps (setSteps l e) = Z.of_nat (List.length l)
  /\ currentStep (setSteps l e) = 0.
Proof. unfold setSteps. fields. auto. Qed.

Lemma setSteps_in_bounds (l : list Snapshot) (e : engine) :
  in_bounds (setSteps l e).
Proof.
  unfold in_bounds. destruct (setSteps_fields l e) as (_ & -> & ->). lia.
Qed.

(** C1.  Once a sequence of length N is loaded, the current step index is
    within [0, N-1] after any finite sequence of calls of play, pause,
    toggle, stop, reset, goToStep, stepForward, stepBackward and setSpeed,
    interleaved with any frames of the advancing loop; with an empty sequence
    loaded, or none (a controller as constructed, whatever callbacks are
    registered on it), the index stays 0.  Every method is a total function
    of the model: no call fails. *)
Theorem position_stays_in_range :
  (forall (l : list Snapshot) (e : engine) (cs : list call),
      l <> [] ->
      0 <= currentStep (run cs (setSteps l e)) <= Z.of_nat (List.length l) - 1)
  /\ (forall (e : engine) (cs : list call),
        currentStep (run cs (setSteps [] e)) = 0)
  /\ (totalSteps (constructor Snapshot) = 0
      /\ currentStep (constructor Snapshot) = 0)
  /\ (forall (e : engine) (cs : list call),
        totalSteps e = 0 -> currentStep e = 0 ->
        currentStep (run cs e) = 0).
Proof.
  split; [|split; [|split]].
  - intros l e cs Hl.
    pose proof (run_in_bounds cs (setSteps_in_bounds l e)) as H.
    unfold in_bounds in H. rewrite run_totalSteps in H.
    destruct (setSteps_fields l e) as (_ & Ht & _). rewrite Ht in H.
    destruct l as [|s l]; [contradiction|]. cbn [List.length] in *. lia.
  - intros e cs.
    pose proof (run_in_bounds cs (setSteps_in_bounds [] e)) as H.
    unfold in_bounds in H. rewrite run_totalSteps in H.
    destruct (setSteps_fields [] e) as (_ & Ht & _). rewrite Ht in H.
    cbn in H. lia.
  - split; reflexivity.
  - intros e cs Ht Hc.
    assert (H0 : in_bounds e) by (unfold in_bounds; lia).
    pose proof (run_in_bounds cs H0) as H.
    unfold in_bounds in H. rewrite run_totalSteps, Ht in H. cbn in H. lia.
Qed.

(** ** Loading a sequence *)

(** C2, as the source has it.  For every prior state, [setSteps] replaces the
    sequence and its length and resets the current step index to 0; it leaves
    the playing and paused flags, the frame id and the pending frames as they
    were, so it cancels nothing: an engine that was playing is still
    playing. *)
Theorem setSteps_resets_position_only (l : list Snapshot) (e : engine) :
  steps (setSteps l e) = l
  /\ totalSteps (setSteps l e) = Z.of_nat (List.length l)
  /\ currentStep (setSteps l e) = 0
  /\ isPlaying (setSteps l e) = isPlaying e
  /\ isPaused (setSteps l e) = isPaused e
  /\ animationFrameId (setSteps l e) = animationFrameId e
  /\ pending (setSteps l e) = pending e.
Proof. unfold setSteps. fields. repeat split. Qed.

(** ** Starting playback at the final index *)

Lemma reset_keeps_timing (e : engine) :
  speed (reset e) = speed e /\ stepDuration (reset e) = stepDuration e
  /\ nextFrameId (reset e) = nextFrameId e /\ pending (reset e) = pending e.
Proof. unfold reset. fields. repeat split. Qed.

(** C4.  With a sequence of length N >= 1 loaded and the index at N-1,
    [play()] first resets the index to 0, then switches to playing and
    enters the advancing loop at index 0, whatever the clock says.  When
    less than one effective step duration lies between the two clock
    readings of the call (no frame has elapsed), the call returns with the
    index at 0, the engine playing and not paused, and a frame of the
    advancing loop requested and pending. *)
Theorem play_at_end_restarts (e : engine) (t0 t1 : Q) :
  1 <= totalSteps e ->
  currentStep e = totalSteps e - 1 ->
  (play_restart e = reset e
   /\ currentStep (play_restart e) = 0
   /\ currentStep (play_start t0 (play_restart e)) = 0
   /\ isPlaying (play_start t0 (play_restart e)) = true
   /\ isPaused (play_start t0 (play_restart e)) = false)
  /\ (JsNum.geb (t1 - t0) (getEffectiveDuration e) = false ->
      currentStep (play t0 t1 e) = 0
      /\ isPlaying (play t0 t1 e) = true
      /\ isPaused (play t0 t1 e) = false
      /\ animationFrameId (play t0 t1 e) = Some (nextFrameId e)
      /\ In (nextFrameId e) (pending (play t0 t1 e))).
Proof.
  intros HN Hcur.
  assert (Hr : play_restart e = reset e).
  { unfold play_restart. rewrite Hcur, Z.leb_refl. reflexivity. }
  split.
  - rewrite Hr. unfold play_start. fields. rewrite reset_currentStep.
    repeat split.
  - intros Hdelta.
    destruct (reset_keeps_timing e) as (Hs & Hd & Hn & Hp).
    assert (Ha : animate t1 (play_start t0 (reset e))
                 = requestAnimationFrame (play_start t0 (reset e))).
    { unfold animate, play_start, getEffectiveDuration. fields.
      rewrite Hs, Hd. unfold getEffectiveDuration in Hdelta.
      rewrite Hdelta. reflexivity. }
    unfold play. rewrite Hr, Ha. unfold play_start. fields.
    rewrite reset_currentStep, Hn. repeat split. left. reflexivity.
Qed.

(** ** Clamping at the boundaries *)

(** C5.  With a sequence of length N >= 1 loaded: [stepForward()] at index
    N-1 and [stepBackward()] at index 0 change nothing at all, and
    [goToStep(i)] sets the index to 0 for i < 0 and to N-1 for i >= N. *)
Theorem position_clamps_at_boundaries (e : engine) :
  1 <= totalSteps e ->
  (currentStep e = totalSteps e - 1 -> stepForward e = e)
  /\ (currentStep e = 0 -> stepBackward e = e)
  /\ (forall i, i < 0 -> currentStep (goToStep i e) = 0)
  /\ (forall i, totalSteps e <= i ->
                currentStep (goToStep i e) = totalSteps e - 1).
Proof.
  intros HN. repeat split.
  - intros H. unfold stepForward. rewrite H, Z.ltb_irrefl. reflexivity.
  - intros H. unfold stepBackward. rewrite H, Z.ltb_irrefl. reflexivity.
  - intros i Hi. rewrite goToStep_currentStep. lia.
  - intros i Hi. rewrite goToStep_currentStep. lia.
Qed.

(** ** The speed multiplier *)

Lemma clamp_speed (x : Q) :
  let y := Qmax (1 # 4) (Qmin 4 x) in
  ((1 # 4 <= y)%Q /\ (y <= 4)%Q)
  /\ ((x < 1 # 4)%Q -> (y == 1 # 4)%Q)
  /\ ((4 < x)%Q -> (y == 4)%Q)
  /\ ((1 # 4 <= x)%Q -> (x <= 4)%Q -> (y == x)%Q).
Proof.
  cbv zeta. repeat split.
  - apply Q.le_max_l.
  - apply Q.max_lub; [discriminate|apply Q.le_min_l].
  - intros H. apply Q.max_l. eapply Qle_trans; [apply Q.le_min_r|].
    apply Qlt_le_weak, H.
  - intros H. rewrite Q.min_l by (apply Qlt_le_weak, H).
    apply Q.max_r. discriminate.
  - intros H1 H2. rewrite Q.min_r by exact H2. apply Q.max_r, H1.
Qed.

(** C6.  For every finite number x, [setSpeed(x)] stores x clamped into
    [0.25, 4]: 0.25 when x < 0.25, 4 when x > 4, x itself otherwise; and it
    leaves the current step index (and the sequence) as they were. *)
Theorem setSpeed_clamps (x : Q) (e : engine) :
  ((1 # 4 <= speed (setSpeed x e))%Q /\ (speed (setSpeed x e) <= 4)%Q)
  /\ ((x < 1 # 4)%Q -> (speed (setSpeed x e) == 1 # 4)%Q)
  /\ ((4 < x)%Q -> (speed (setSpeed x e) == 4)%Q)
  /\ ((1 # 4 <= x)%Q -> (x <= 4)%Q -> (speed (setSpeed x e) == x)%Q)
  /\ currentStep (setSpeed x e) = currentStep e
  /\ totalSteps (setSpeed x e) = totalSteps e
  /\ steps (setSpeed x e) = steps e.
Proof.
  assert (Hs : speed (setSpeed x e) = Qmax (1 # 4) (Qmin 4 x))
    by (unfold setSpeed; fields; reflexivity).
  rewrite Hs. pose proof (clamp_speed x) as (H1 & H2 & H3 & H4).
  repeat split; try (apply H1 || exact H2 || exact H3 || exact H4).
  all: unfold setSpeed; fields; reflexivity.
Qed.

(** ** The progress of a single-snapshot sequence *)

Lemma progress_single (e : engine) : single e -> progress e = JNaN.
Proof. intros [Ht Hc]. unfold progress. rewrite Ht, Hc. reflexivity. Qed.

Lemma since_same (base : list (event Snapshot)) (e e' : engine) :
  totalSteps e' = totalSteps e -> currentStep e' = currentStep e ->
  log e' = log e -> since base e -> since base e'.
Proof.
  unfold since, single. intros -> -> ->. auto.
Qed.

Lemma since_emit (base : list (event Snapshot)) (ev : event Snapshot)
    (e : engine) :
  zero_over_zero ev -> since base e -> since base (emit ev e).
Proof.
  intros Hev (Hs & new & Hlog & Hall). split; [exact Hs|].
  exists (ev :: new). cbn [log emit]. rewrite Hlog. split; [reflexivity|].
  constructor; assumption.
Qed.

Lemma since_notifyStateChange (base : list (event Snapshot)) (e : engine) :
  since base e -> since base (notifyStateChange e).
Proof.
  intros H. unfold notifyStateChange. destruct (onStateChange e); [|exact H].
  apply since_emit; [|exact H]. destruct H as [Hs _].
  cbn. rewrite (progress_single Hs). destruct Hs. auto.
Qed.

Lemma since_notifyStepChange (base : list (event Snapshot)) (e : engine) :
  since base e -> since base (notifyStepChange e).
Proof.
  intros H. unfold notifyStepChange. destruct (onStepChange e); [|exact H].
  apply since_emit; [exact I|exact H].
Qed.

Lemma since_zero (base : list (event Snapshot)) (i : Z) (e : engine) :
  i = 0 -> since base e -> since base (set_currentStep i e).
Proof.
  intros -> ((Ht & Hc) & Hlog). split; [split; [exact Ht|reflexivity]|].
  exact Hlog.
Qed.

Lemma since_pause (base : list (event Snapshot)) (e : engine) :
  since base e -> since base (pause e).
Proof.
  intros H. unfold pause. apply since_notifyStateChange.
  cbn zeta. destruct (animationFrameId _);
    (eapply since_same; [| | |exact H]); reflexivity.
Qed.

Lemma since_reset (base : list (event Snapshot)) (e : engine) :
  since base e -> since base (reset e).
Proof.
  intros H. unfold reset.
  apply since_notifyStateChange, since_notifyStepChange, since_zero;
    [reflexivity|exact H].
Qed.

Lemma since_animate (base : list (event Snapshot)) (now : Q) (e : engine) :
  since base e -> since base (animate now e).
Proof.
  intros H. unfold animate.
  destruct (negb (isPlaying e)); [exact H|].
  cbn zeta. destruct (JsNum.geb _ _).
  - destruct H as [[Ht Hc] Hlog]. fields. rewrite Ht, Hc.
    change (0 <? 1 - 1) with false. cbv iota.
    assert (Hp : since base (pause (set_lastFrameTime now e))).
    { apply since_pause. eapply since_same; [| | |split; [split|]; eauto];
        reflexivity. }
    destruct (onComplete _); [apply since_emit; [exact I|exact Hp]|exact Hp].
  - eapply since_same; [| | |exact H]; reflexivity.
Qed.

Lemma since_play (base : list (event Snapshot)) (t0 t1 : Q) (e : engine) :
  since base e -> since base (play t0 t1 e).
Proof.
  intros H. unfold play. apply since_notifyStateChange, since_animate.
  unfold play_start.
  assert (Hr : since base (play_restart e)).
  { unfold play_restart. destruct (_ <=? _); [apply since_reset|]; exact H. }
  eapply since_same; [| | |exact Hr]; reflexivity.
Qed.

Lemma since_exec (base : list (event Snapshot)) (c : call) (e : engine) :
  since base e -> since base (exec c e).
Proof.
  intros H. destruct c; cbn [exec].
  - apply since_play, H.
  - apply since_pause, H.
  - unfold toggle. destruct (isPlaying e);
      [apply since_pause, H|apply since_play, H].
  - unfold stop.
    apply since_notifyStateChange, since_notifyStepChange, since_zero;
      [reflexivity|apply since_pause, H].
  - apply since_reset, H.
  - unfold goToStep.
    apply since_notifyStateChange, since_notifyStepChange, since_zero;
      [|exact H].
    destruct H as [[Ht _] _]. rewrite Ht. lia.
  - unfold stepForward. destruct H as [[Ht Hc] Hlog].
    rewrite Ht, Hc. cbn. split; [split|]; assumption.
  - unfold stepBackward. destruct H as [[Ht Hc] Hlog].
    rewrite Hc. cbn. split; [split|]; assumption.
  - unfold setSpeed. apply since_notifyStateChange.
    eapply since_same; [| | |exact H]; reflexivity.
  - unfold frame. destruct (existsb _ _); [|exact H].
    apply since_animate. eapply since_same; [| | |exact H]; reflexivity.
Qed.

Lemma since_run (base : list (event Snapshot)) (cs : list call)
    (e : engine) :
  since base e -> since base (run cs e).
Proof.
  revert e. induction cs as [|c cs IH]; intros e H; [exact H|].
  cbn [run fold_left]. fold (run cs (exec c e)).
  apply IH, since_exec, H.
Qed.

(** With two snapshots or more, the progress of a position within the
    sequence is a number of [0, 100]. *)
Lemma progress_in_range (e : engine) :
  2 <= totalSteps e -> in_bounds e -> in_range 0 100 (progress e).
Proof.
  unfold in_bounds, progress. intros HN Hb.
  destruct (0 <? totalSteps e) eqn:Hpos; [|apply Z.ltb_ge in Hpos; lia].
  destruct (totalSteps e - 1) as [|p|p] eqn:Hp; try lia.
  unfold JsNum.div. change (Qeq_bool (inject_Z (Z.pos p)) 0) with false.
  cbv iota. cbn [JsNum.mul in_range].
  unfold Qle. cbn -[Z.mul Z.max Pos.mul].
  rewrite ?Pos.mul_1_l, ?Pos.mul_1_r, ?Z.mul_1_r, ?Pos2Z.inj_mul.
  lia.
Qed.

Lemma setSteps_log (l : list Snapshot) (e : engine) :
  log (setSteps l e)
  = if onStateChange e
    then StateChanged _ (current_status (setSteps l e)) :: log e
    else log e.
Proof.
  unfold setSteps, notifyStateChange. fields.
  destruct (onStateChange e); reflexivity.
Qed.

(** C10.  With a sequence of exactly one snapshot loaded, every status
    handed to [onStateChange], by the load and by any calls and frames after
    it, carries the progress 0/0 * 100, which is NaN and so no number of
    [0, 100]; with the callback registered the load itself hands over such a
    status.  The guard [totalSteps > 0] covers the empty sequence only, where
    the progress is 0. *)
Theorem single_snapshot_progress_is_NaN (s : Snapshot) (e : engine)
    (cs : list call) :
  (exists new,
      log (run cs (setSteps [s] e)) = (new ++ log e)%list
      /\ Forall (@zero_over_zero Snapshot) new
      /\ Forall
           (fun ev =>
              match ev with
              | StateChanged _ st => ~ in_range 0 100 (st_progress st)
              | _ => True
              end) new
      /\ (onStateChange e = true ->
          exists st, In (StateChanged _ st) new /\ st_progress st = JNaN))
  /\ progress (setSteps [s] e) = JNaN
  /\ progress (setSteps [] e) = JFin 0.
Proof.
  assert (Hsingle : single (setSteps [s] e)).
  { destruct (setSteps_fields [s] e) as (_ & Ht & Hc). split; assumption. }
  assert (Hnew : exists new,
             log (run cs (setSteps [s] e)) = (new ++ log e)%list
             /\ Forall (@zero_over_zero Snapshot) new
             /\ (onStateChange e = true ->
                 exists st, In (StateChanged _ st) new
                            /\ st_progress st = JNaN)).
  { assert (H0 : since (log (setSteps [s] e)) (setSteps [s] e)).
    { split; [exact Hsingle|]. exists []. split; [reflexivity|constructor]. }
    destruct (since_run cs H0) as (_ & new & Hlog & Hall).
    pose proof (progress_single Hsingle) as Hp.
    rewrite setSteps_log in Hlog. destruct (onStateChange e).
    - set (ev := StateChanged _ _) in Hlog.
      exists (new ++ [ev])%list. rewrite <- app_assoc. split; [exact Hlog|].
      split.
      + apply Forall_app. split; [exact Hall|]. constructor; [|constructor].
        destruct Hsingle as [Ht Hc]. cbn. auto.
      + intros _. exists (current_status (setSteps [s] e)).
        split; [apply in_or_app; right; left; reflexivity|exact Hp].
    - exists new. split; [exact Hlog|]. split; [exact Hall|discriminate]. }
  split; [|split].
  - destruct Hnew as (new & Hlog & Hall & Hne). exists new.
    repeat split; try assumption.
    eapply Forall_impl; [|exact Hall].
    intros [ | st | ]; cbn; auto. intros (_ & _ & ->). cbn. tauto.
  - apply progress_single, Hsingle.
  - unfold progress. destruct (setSteps_fields [] e) as (_ & -> & _).
    reflexivity.
Qed.

(** ** Notifications of a loaded engine *)

Section Tracked.

Variables (l : list Snapshot) (P : event Snapshot -> Prop).

Hypothesis P_step :
  forall e, loaded l e ->
            P (StepChanged (getCurrentState e) (currentStep e) (totalSteps e)).
Hypothesis P_state :
  forall e, loaded l e -> P (StateChanged _ (current_status e)).
Hypothesis P_completed : P (Completed _).

Lemma loaded_same (e e' : engine) :
  steps e' = steps e -> totalSteps e' = totalSteps e ->
  currentStep e' = currentStep e -> loaded l e -> loaded l e'.
Proof. unfold loaded, in_bounds. intros -> -> ->. auto. Qed.

Lemma tracked_same (base : list (event Snapshot)) (e e' : engine) :
  steps e' = steps e -> totalSteps e' = totalSteps e ->
  currentStep e' = currentStep e -> log e' = log e ->
  tracked l P base e -> tracked l P base e'.
Proof.
  intros Hs Ht Hc Hl [Hload Hlog]. split.
  - eapply loaded_same; eassumption.
  - rewrite Hl. exact Hlog.
Qed.

Lemma tracked_emit (base : list (event Snapshot)) (ev : event Snapshot)
    (e : engine) :
  P ev -> tracked l P base e -> tracked l P base (emit ev e).
Proof.
  intros Hev (Hload & new & Hlog & Hall). split.
  - eapply loaded_same; [| | |exact Hload]; reflexivity.
  - exists (ev :: new). cbn [log emit]. rewrite Hlog.
    split; [reflexivity|constructor; assumption].
Qed.

Lemma tracked_notifyStateChange (base : list (event Snapshot)) (e : engine) :
  tracked l P base e -> tracked l P base (notifyStateChange e).
Proof.
  intros H. unfold notifyStateChange. destruct (onStateChange e); [|exact H].
  apply tracked_emit; [|exact H]. apply P_state, H.
Qed.

Lemma tracked_notifyStepChange (base : list (event Snapshot)) (e : engine) :
  tracked l P base e -> tracked l P base (notifyStepChange e).
Proof.
  intros H. unfold notifyStepChange. destruct (onStepChange e); [|exact H].
  apply tracked_emit; [|exact H]. apply P_step, H.
Qed.

Lemma tracked_move (base : list (event Snapshot)) (i : Z) (e : engine) :
  0 <= i <= Z.max 0 (totalSteps e - 1) ->
  tracked l P base e -> tracked l P base (set_currentStep i e).
Proof.
  intros Hi ((Hs & Ht & Hb) & Hlog). split; [|exact Hlog].
  split; [exact Hs|]. split; [exact Ht|]. exact Hi.
Qed.

Lemma tracked_notified_move (base : list (event Snapshot)) (i : Z)
    (e : engine) :
  0 <= i <= Z.max 0 (totalSteps e - 1) ->
  tracked l P base e ->
  tracked l P base
    (notifyStateChange (notifyStepChange (set_currentStep i e))).
Proof.
  intros Hi H.
  apply tracked_notifyStateChange, tracked_notifyStepChange, tracked_move;
    assumption.
Qed.

Lemma tracked_pause (base : list (event Snapshot)) (e : engine) :
  tracked l P base e -> tracked l P base (pause e).
Proof.
  intros H. unfold pause. apply tracked_notifyStateChange.
  cbn zeta. destruct (animationFrameId _);
    (eapply tracked_same; [| | | |exact H]); reflexivity.
Qed.

Lemma tracked_reset (base : list (event Snapshot)) (e : engine) :
  tracked l P base e -> tracked l P base (reset e).
Proof. intros H. apply tracked_notified_move; [lia|exact H]. Qed.

Lemma tracked_animate (base : list (event Snapshot)) (now : Q)
    (e : engine) :
  tracked l P base e -> tracked l P base (animate now e).
Proof.
  intros H. unfold animate.
  destruct (negb (isPlaying e)); [exact H|].
  cbn zeta. destruct (JsNum.geb _ _).
  - assert (H1 : tracked l P base (set_lastFrameTime now e))
      by (eapply tracked_same; [| | | |exact H]; reflexivity).
    fields. destruct (currentStep e <? totalSteps e - 1) eqn:Hlt.
    + apply Z.ltb_lt in Hlt.
      eapply tracked_same;
        [| | | |apply tracked_notifyStepChange,
                  (@tracked_move base (currentStep e + 1)), H1];
        try reflexivity.
      destruct H as ((_ & _ & Hb) & _). unfold in_bounds in Hb.
      cbn [totalSteps set_lastFrameTime]. lia.
    + pose proof (tracked_pause H1) as Hp.
      destruct (onComplete _); [apply tracked_emit; assumption|exact Hp].
  - eapply tracked_same; [| | | |exact H]; reflexivity.
Qed.

Lemma tracked_play (base : list (event Snapshot)) (t0 t1 : Q) (e : engine) :
  tracked l P base e -> tracked l P base (play t0 t1 e).
Proof.
  intros H. unfold play. apply tracked_notifyStateChange, tracked_animate.
  unfold play_start.
  assert (Hr : tracked l P base (play_restart e)).
  { unfold play_restart. destruct (_ <=? _); [apply tracked_reset|]; exact H. }
  eapply tracked_same; [| | | |exact Hr]; reflexivity.
Qed.

Lemma tracked_exec (base : list (event Snapshot)) (c : call) (e : engine) :
  tracked l P base e -> tracked l P base (exec c e).
Proof.
  intros H.
  assert (Hb : in_bounds e) by apply H. unfold in_bounds in Hb.
  destruct c; cbn [exec].
  - apply tracked_play, H.
  - apply tracked_pause, H.
  - unfold toggle. destruct (isPlaying e);
      [apply tracked_pause, H|apply tracked_play, H].
  - unfold stop. apply tracked_notified_move; [|apply tracked_pause, H].
    rewrite pause_totalSteps. lia.
  - apply tracked_reset, H.
  - unfold goToStep. apply tracked_notified_move; [lia|exact H].
  - unfold stepForward.
    destruct (currentStep e <? totalSteps e - 1) eqn:Hlt; [|exact H].
    apply Z.ltb_lt in Hlt. apply tracked_notified_move; [lia|exact H].
  - unfold stepBackward.
    destruct (0 <? currentStep e) eqn:Hlt; [|exact H].
    apply Z.ltb_lt in Hlt. apply tracked_notified_move; [lia|exact H].
  - unfold setSpeed. apply tracked_notifyStateChange.
    eapply tracked_same; [| | | |exact H]; reflexivity.
  - unfold frame. destruct (existsb _ _); [|exact H].
    apply tracked_animate. eapply tracked_same; [| | | |exact H]; reflexivity.
Qed.

Lemma tracked_run (base : list (event Snapshot)) (cs : list call)
    (e : engine) :
  tracked l P base e -> tracked l P base (run cs e).
Proof.
  revert e. induction cs as [|c cs IH]; intros e H; [exact H|].
  cbn [run fold_left]. fold (run cs (exec c e)).
  apply IH, tracked_exec, H.
Qed.

(** From the load on: the load itself notifies, then the calls. *)
Lemma tracked_from_load (e : engine) (cs : list call) :
  exists new,
    log (run cs (setSteps l e)) = (new ++ log e)%list /\ Forall P new.
Proof.
  assert (Hload : loaded l (setSteps l e)).
  { destruct (setSteps_fields l e) as (Hs & Ht & Hc).
    split; [exact Hs|]. split; [exact Ht|]. apply setSteps_in_bounds. }
  assert (H0 : tracked l P (log (setSteps l e)) (setSteps l e)).
  { split; [exact Hload|]. exists []. split; [reflexivity|constructor]. }
  destruct (tracked_run cs H0) as (_ & new & Hlog & Hall).
  rewrite setSteps_log in Hlog. destruct (onStateChange e).
  - exists (new ++ [StateChanged _ (current_status (setSteps l e))])%list.
    rewrite <- app_assoc. split; [exact Hlog|].
    apply Forall_app. split; [exact Hall|].
    constructor; [apply P_state, Hload|constructor].
  - exists new. split; assumption.
Qed.

End Tracked.

(** X1.  After a sequence is loaded, every step notification, whatever the
    calls and frames that follow, carries the snapshot of the sequence at
    the notified index, with the length of the sequence as total; for a
    non-empty sequence the snapshot is never null. *)
Theorem step_notifications_carry_snapshot (l : list Snapshot) (e : engine)
    (cs : list call) :
  exists new,
    log (run cs (setSteps l e)) = (new ++ log e)%list
    /\ Forall (carries_snapshot l) new.
Proof.
  apply tracked_from_load; try exact I; [|intros; exact I].
  intros e' (Hs & Ht & Hb). unfold in_bounds in Hb. cbn [carries_snapshot].
  assert (Hget : getCurrentState e' = nth_error l (Z.to_nat (currentStep e'))).
  { unfold getCurrentState. rewrite Hs.
    destruct (currentStep e' <? 0) eqn:Hneg; [|reflexivity].
    apply Z.ltb_lt in Hneg. lia. }
  repeat split; try assumption; try lia.
  intros Hne. rewrite Hget. apply nth_error_Some.
  destruct l as [|s0 l0]; [contradiction|]. cbn [List.length] in *. lia.
Qed.

(** X2.  With two snapshots or more loaded, every status handed to
    [onStateChange], by the load and by any calls and frames after it,
    carries a progress that is a number of [0, 100]. *)
Theorem progress_is_a_percentage (l : list Snapshot) (e : engine)
    (cs : list call) :
  (2 <= List.length l)%nat ->
  exists new,
    log (run cs (setSteps l e)) = (new ++ log e)%list
    /\ Forall (@progress_is_percent Snapshot) new.
Proof.
  intros Hlen. apply tracked_from_load; try exact I; [intros; exact I|].
  intros e' (Hs & Ht & Hb). cbn. apply progress_in_range; [lia|exact Hb].
Qed.

(** ** What the methods leave alone *)

Section Blocks.

(** A relation between an engine and a later one that every assignment
    and notification of the methods respects. *)
Variable R : engine -> engine -> Prop.

Hypothesis R_refl : forall e, R e e.
Hypothesis R_trans : forall e1 e2 e3, R e1 e2 -> R e2 e3 -> R e1 e3.
Hypothesis R_playing : forall p q e, R e (set_playing p q e).
Hypothesis R_time : forall t e, R e (set_lastFrameTime t e).
Hypothesis R_frames : forall a b c e, R e (set_frames a b c e).
Hypothesis R_position : forall i e, R e (set_currentStep i e).
Hypothesis R_emit_step :
  forall s i n e, onStepChange e = true -> R e (emit (StepChanged s i n) e).
Hypothesis R_emit_state :
  forall st e, onStateChange e = true -> R e (emit (StateChanged _ st) e).
Hypothesis R_emit_completed :
  forall e, onComplete e = true -> R e (emit (Completed _) e).

Lemma R_notifyStateChange (e : engine) : R e (notifyStateChange e).
Proof.
  unfold notifyStateChange. destruct (onStateChange e) eqn:H; auto.
Qed.

Lemma R_notifyStepChange (e : engine) : R e (notifyStepChange e).
Proof.
  unfold notifyStepChange. destruct (onStepChange e) eqn:H; auto.
Qed.

Lemma R_notified_move (i : Z) (e : engine) :
  R e (notifyStateChange (notifyStepChange (set_currentStep i e))).
Proof.
  eapply R_trans; [apply R_position|].
  eapply R_trans; [apply R_notifyStepChange|apply R_notifyStateChange].
Qed.

Lemma R_pause (e : engine) : R e (pause e).
Proof.
  unfold pause. cbn zeta.
  eapply R_trans; [|apply R_notifyStateChange].
  eapply R_trans; [apply (R_playing false true)|].
  destruct (animationFrameId _); [|apply R_refl].
  unfold cancelAnimationFrame.
  eapply R_trans; apply R_frames.
Qed.

Lemma R_reset (e : engine) : R e (reset e).
Proof. apply R_notified_move. Qed.

Lemma R_animate (now : Q) (e : engine) : R e (animate now e).
Proof.
  unfold animate. destruct (negb (isPlaying e)); [apply R_refl|].
  cbn zeta. destruct (JsNum.geb _ _); [|apply R_frames].
  eapply R_trans; [apply (R_time now)|].
  destruct (_ <? _).
  - eapply R_trans; [apply R_position|].
    eapply R_trans; [apply R_notifyStepChange|apply R_frames].
  - eapply R_trans; [apply R_pause|].
    destruct (onComplete _) eqn:H; [apply R_emit_completed, H|apply R_refl].
Qed.

Lemma R_play (t0 t1 : Q) (e : engine) : R e (play t0 t1 e).
Proof.
  unfold play, play_start, play_restart.
  eapply R_trans; [|apply R_notifyStateChange].
  eapply R_trans; [|apply R_animate].
  eapply R_trans; [|apply R_time].
  eapply R_trans; [|apply R_playing].
  destruct (_ <=? _); [apply R_reset|apply R_refl].
Qed.

(** Every call but [setSpeed]. *)
Lemma R_exec (c : call) (e : engine) :
  match c with SetSpeed _ => True | _ => R e (exec c e) end.
Proof.
  destruct c; cbn [exec]; try exact I.
  - apply R_play.
  - apply R_pause.
  - unfold toggle. destruct (isPlaying e); [apply R_pause|apply R_play].
  - unfold stop. eapply R_trans; [apply R_pause|apply R_notified_move].
  - apply R_reset.
  - apply R_notified_move.
  - unfold stepForward. destruct (_ <? _);
      [apply R_notified_move|apply R_refl].
  - unfold stepBackward. destruct (_ <? _);
      [apply R_notified_move|apply R_refl].
  - unfold frame. destruct (existsb _ _); [|apply R_refl].
    eapply R_trans; [apply R_frames|apply R_animate].
Qed.

End Blocks.

(** ** Callbacks *)

Lemma config_fields (e e' : engine) :
  config e' = config e ->
  stepDuration e' = stepDuration e /\ steps e' = steps e
  /\ totalSteps e' = totalSteps e /\ onStepChange e' = onStepChange e
  /\ onComplete e' = onComplete e /\ onStateChange e' = onStateChange e.
Proof. unfold config. intros H. injection H. auto 10. Qed.

Lemma registered_config (e e' : engine) (ev : event Snapshot) :
  config e' = config e -> registered e ev -> registered e' ev.
Proof.
  intros H. destruct (config_fields H) as (_ & _ & _ & H1 & H2 & H3).
  destruct ev; cbn; congruence.
Qed.

Lemma extends_refl (e : engine) : extends e e.
Proof.
  split; [reflexivity|]. exists []. split; [reflexivity|constructor].
Qed.

Lemma extends_trans (e1 e2 e3 : engine) :
  extends e1 e2 -> extends e2 e3 -> extends e1 e3.
Proof.
  intros (Hc1 & n1 & Hl1 & Ha1) (Hc2 & n2 & Hl2 & Ha2).
  split; [congruence|]. exists (n2 ++ n1)%list.
  rewrite Hl2, Hl1, app_assoc. split; [reflexivity|].
  apply Forall_app. split; [|exact Ha1].
  eapply Forall_impl; [|exact Ha2].
  intros ev. apply registered_config. symmetry. exact Hc1.
Qed.

Lemma extends_emit (ev : event Snapshot) (e : engine) :
  registered e ev -> extends e (emit ev e).
Proof.
  intros H. split; [reflexivity|]. exists [ev].
  split; [reflexivity|]. constructor; [exact H|constructor].
Qed.

Lemma extends_same (e e' : engine) :
  config e' = config e -> log e' = log e -> extends e e'.
Proof.
  intros Hc Hl. split; [exact Hc|]. exists []. split; [exact Hl|constructor].
Qed.

Ltac extends_block :=
  intros;
  first [ apply extends_same; reflexivity
        | eapply extends_trans; eassumption
        | apply extends_emit; assumption ].

Lemma extends_exec (c : call) (e : engine) : extends e (exec c e).
Proof.
  assert (Hblocks :
            match c with SetSpeed _ => True | _ => extends e (exec c e) end)
    by (apply (@R_exec (@extends Snapshot)); extends_block).
  destruct c; try exact Hblocks.
  cbn [exec]. unfold setSpeed.
  eapply extends_trans;
    [|apply (@R_notifyStateChange (@extends Snapshot)); extends_block].
  apply extends_same; reflexivity.
Qed.

Lemma extends_run (cs : list call) (e : engine) : extends e (run cs e).
Proof.
  revert e. induction cs as [|c cs IH]; intros e; [apply extends_refl|].
  cbn [run fold_left]. fold (run cs (exec c e)).
  eapply extends_trans; [apply extends_exec|apply IH].
Qed.

(** X3.  No call and no frame changes the registered callbacks, the base
    step duration, the sequence or its length, and each call of a callback
    it makes is of a callback that is registered: a callback left null is
    never called. *)
Theorem only_registered_callbacks_are_called (cs : list call) (e : engine) :
  config (run cs e) = config e
  /\ exists new,
      log (run cs e) = (new ++ log e)%list /\ Forall (registered e) new.
Proof. exact (extends_run cs e). Qed.

(** X4.  After [destroy()] the engine is silent: whatever calls and frames
    follow, no callback is called any more, the sequence stays empty and
    [getCurrentState()] is null; and the frame the engine held is no longer
    pending. *)
Theorem destroy_silences (cs : list call) (e : engine) :
  log (run cs (destroy e)) = log e
  /\ steps (run cs (destroy e)) = []
  /\ getCurrentState (run cs (destroy e)) = None
  /\ (forall id, animationFrameId e = Some id ->
                 ~ In id (pending (destroy e))).
Proof.
  destruct (extends_run cs (destroy e)) as (Hc & new & Hlog & Hall).
  destruct (config_fields Hc) as (_ & Hs & _).
  assert (Hnew : new = []).
  { destruct new as [|ev new]; [reflexivity|].
    inversion Hall as [|? ? Hev _]; subst.
    destruct ev; cbn in Hev; discriminate Hev. }
  subst new. rewrite Hlog, Hs.
  assert (Hd : log (destroy e) = log e /\ steps (destroy e) = []).
  { unfold destroy. destruct (animationFrameId e); split; reflexivity. }
  destruct Hd as [Hdl Hds]. split; [exact Hdl|]. split; [exact Hds|].
  split.
  - unfold getCurrentState. rewrite Hs, Hds.
    destruct (_ <? _); [reflexivity|]. apply nth_error_nil.
  - intros id Hid. unfold destroy. rewrite Hid.
    cbn [pending set_callbacks set_steps cancelAnimationFrame set_frames].
    intros Hin. apply filter_In in Hin. destruct Hin as [_ Hneq].
    rewrite Pos.eqb_refl in Hneq. discriminate Hneq.
Qed.

(** ** The speed and the step duration *)

Lemma keeps_speed_exec (c : call) (e : engine) :
  match c with
  | SetSpeed _ => True
  | _ => speed (exec c e) = speed e
  end.
Proof.
  apply (@R_exec (fun e e' => speed e' = speed e)); intros;
    try reflexivity.
  congruence.
Qed.

Lemma speed_ok_exec (c : call) (e : engine) :
  speed_ok e -> speed_ok (exec c e).
Proof.
  intros H. pose proof (keeps_speed_exec c e) as Hk. unfold speed_ok.
  destruct c; try (rewrite Hk; exact H).
  cbn [exec]. unfold setSpeed. fields. apply clamp_speed.
Qed.

Lemma speed_ok_run (cs : list call) (e : engine) :
  speed_ok e -> speed_ok (run cs e).
Proof.
  revert e. induction cs as [|c cs IH]; intros e H; [exact H|].
  cbn [run fold_left]. fold (run cs (exec c e)).
  apply IH, speed_ok_exec, H.
Qed.

Lemma inverse_speed_bounds (s : Q) :
  (1 # 4 <= s)%Q -> (s <= 4)%Q -> (1 # 4 <= / s)%Q /\ (/ s <= 4)%Q.
Proof.
  destruct s as [[|p|p] q]; unfold Qle, Qinv; cbn; intros H1 H2; lia.
Qed.

(** X5.  Once the speed is within [0.25, 4], as it is on a constructed
    engine, it stays there under any calls and frames, before and after any
    load; so, for a base step duration d >= 0, the effective duration of a
    step is always a finite number, d divided by the speed, between a
    quarter of d and four times d. *)
Theorem speed_stays_clamped (e0 : engine) (l : list Snapshot)
    (cs1 cs2 : list call) :
  speed_ok e0 -> (0 <= stepDuration e0)%Q ->
  let e := run cs2 (setSteps l (run cs1 e0)) in
  speed_ok e
  /\ stepDuration e = stepDuration e0
  /\ getEffectiveDuration e = JFin (stepDuration e0 / speed e)
  /\ (stepDuration e0 * (1 # 4) <= stepDuration e0 / speed e)%Q
  /\ (stepDuration e0 / speed e <= stepDuration e0 * 4)%Q.
Proof.
  intros H0 Hd0. cbv zeta.
  set (e1 := run cs1 e0).
  set (e2 := setSteps l e1). set (e := run cs2 e2).
  assert (H1 : speed_ok e1) by (apply speed_ok_run, H0).
  assert (H2 : speed_ok e2)
    by (unfold e2, setSteps, speed_ok; fields; exact H1).
  assert (H : speed_ok e) by (apply speed_ok_run, H2).
  assert (Hd1 : stepDuration e1 = stepDuration e0).
  { destruct (extends_run cs1 e0) as (Hc & _). apply (config_fields Hc). }
  assert (Hd : stepDuration e = stepDuration e0).
  { destruct (extends_run cs2 e2) as (Hc & _).
    destruct (config_fields Hc) as (Hc' & _). unfold e in *. rewrite Hc'.
    unfold e2, setSteps. fields. exact Hd1. }
  split; [exact H|]. split; [exact Hd|].
  destruct H as [Hlo Hhi].
  destruct (inverse_speed_bounds Hlo Hhi) as [Hilo Hihi].
  split.
  - unfold getEffectiveDuration, JsNum.div. rewrite Hd.
    destruct (Qeq_bool (speed e) 0) eqn:Hz; [|reflexivity].
    apply Qeq_bool_iff in Hz. rewrite Hz in Hlo.
    apply Qle_not_lt in Hlo. exfalso. apply Hlo. reflexivity.
  - unfold Qdiv. rewrite !(Qmult_comm (stepDuration e0)).
    split; apply Qmult_le_compat_r; assumption.
Qed.

(** ** The pace of the advancing loop *)

Lemma geb_le (a b : Q) (d : jsnum) :
  (a <= b)%Q -> JsNum.geb b d = false -> JsNum.geb a d = false.
Proof.
  destruct d as [q| | |]; cbn; intros Hab Hb; try assumption.
  destruct (Qle_bool q a) eqn:Ha; [|reflexivity].
  apply Qle_bool_iff in Ha.
  assert (Hqb : Qle_bool q b = true)
    by (apply Qle_bool_iff; eapply Qle_trans; eassumption).
  congruence.
Qed.

Lemma frame_keeps_duration (id : positive) (now : Q) (e : engine) :
  getEffectiveDuration (frame id now e) = getEffectiveDuration e.
Proof.
  unfold getEffectiveDuration.
  pose proof (keeps_speed_exec (Frame id now) e) as Hs. cbn [exec] in Hs.
  destruct (extends_exec (Frame id now) e) as (Hc & _). cbn [exec] in Hc.
  destruct (config_fields Hc) as (Hd & _). rewrite Hs, Hd. reflexivity.
Qed.

(** A frame leaves the position, or moves it one step on and records its
    time. *)
Lemma frame_step_or_stay (id : positive) (now : Q) (e : engine) :
  currentStep (frame id now e) = currentStep e
  \/ (currentStep (frame id now e) = currentStep e + 1
      /\ lastFrameTime (frame id now e) = now).
Proof.
  unfold frame. destruct (existsb _ _); [|left; reflexivity].
  unfold animate. fields.
  destruct (negb (isPlaying e)); [left; reflexivity|].
  destruct (JsNum.geb _ _); [|left; reflexivity].
  fields. destruct (currentStep e <? totalSteps e - 1).
  - right. fields. split; reflexivity.
  - left. destruct (onComplete _); fields; rewrite pause_currentStep;
      reflexivity.
Qed.

(** A frame that comes less than a step duration after the recorded time
    leaves the position and the recorded time. *)
Lemma frame_too_early (id : positive) (now : Q) (e : engine) :
  JsNum.geb (now - lastFrameTime e) (getEffectiveDuration e) = false ->
  currentStep (frame id now e) = currentStep e
  /\ lastFrameTime (frame id now e) = lastFrameTime e.
Proof.
  intros Hearly. unfold frame. destruct (existsb _ _); [|split; reflexivity].
  unfold animate. fields.
  destruct (negb (isPlaying e)); [split; reflexivity|].
  unfold getEffectiveDuration in *. fields. rewrite Hearly.
  split; reflexivity.
Qed.

Lemma fire_within_one_duration (base : Q) (d : jsnum)
    (fs : list (positive * Q)) :
  forall (c : Z) (e : engine),
    getEffectiveDuration e = d ->
    (forall f, In f fs ->
               (base <= snd f)%Q /\ JsNum.geb (snd f - base) d = false) ->
    currentStep e = c
    \/ (currentStep e = c + 1 /\ (base <= lastFrameTime e)%Q) ->
    c <= currentStep (run (fire fs) e) <= c + 1.
Proof.
  induction fs as [|[id u] fs IH]; intros c e Hd Hfs Hcur.
  - cbn. destruct Hcur as [-> | [-> _]]; lia.
  - cbn [fire List.map run fold_left fst snd exec].
    fold (fire fs). fold (run (fire fs) (frame id u e)).
    destruct (Hfs (id, u) (or_introl eq_refl)) as [Hbase Hu].
    cbn [snd] in Hbase, Hu.
    apply IH.
    + rewrite frame_keeps_duration. exact Hd.
    + intros f Hf. apply Hfs. right. exact Hf.
    + destruct Hcur as [Hc | [Hc Hlast]].
      * destruct (frame_step_or_stay id u e) as [H | [H Ht]].
        -- left. congruence.
        -- right. split; [congruence|]. rewrite Ht. exact Hbase.
      * right.
        assert (Hearly : JsNum.geb (u - lastFrameTime e)
                           (getEffectiveDuration e) = false).
        { rewrite Hd. eapply geb_le; [|exact Hu].
          unfold Qminus. apply Qplus_le_r. apply Qopp_le_compat.
          exact Hlast. }
        destruct (@frame_too_early id u e Hearly) as [H Ht].
        split; [congruence|]. rewrite Ht. exact Hlast.
Qed.

(** X6.  Frame callbacks whose times all lie within less than one
    effective step duration of a time [base] move the position by one step
    at most, however many of them fire: the loop advances once per step
    duration, even with several frames pending. *)
Theorem frames_advance_once_per_duration (base : Q)
    (fs : list (positive * Q)) (e : engine) :
  (forall f, In f fs ->
             (base <= snd f)%Q
             /\ JsNum.geb (snd f - base) (getEffectiveDuration e) = false) ->
  currentStep e <= currentStep (run (fire fs) e) <= currentStep e + 1.
Proof.
  intros Hfs.
  apply (@fire_within_one_duration base (getEffectiveDuration e));
    [reflexivity|exact Hfs|left; reflexivity].
Qed.

(** ** Playing to the end *)

Lemma frame_of_held (id : positive) (now : Q) (e : engine) :
  In id (pending e) ->
  frame id now e
  = animate now
      (set_frames (animationFrameId e)
         (filter (fun x => negb (Pos.eqb x id)) (pending e))
         (nextFrameId e) e).
Proof.
  intros Hin. unfold frame.
  assert (Hex : existsb (Pos.eqb id) (pending e) = true).
  { apply existsb_exists. exists id. split; [exact Hin|apply Pos.eqb_refl]. }
  rewrite Hex. reflexivity.
Qed.

(** A due frame of a playing engine below the final index moves one step
    on and requests the next frame. *)
Lemma tick_advances (now : Q) (e : engine) :
  isPlaying e = true -> holds_frame e ->
  JsNum.geb (now - lastFrameTime e) (getEffectiveDuration e) = true ->
  currentStep e < totalSteps e - 1 ->
  currentStep (tick now e) = currentStep e + 1
  /\ isPlaying (tick now e) = true
  /\ holds_frame (tick now e)
  /\ lastFrameTime (tick now e) = now
  /\ getEffectiveDuration (tick now e) = getEffectiveDuration e
  /\ totalSteps (tick now e) = totalSteps e
  /\ onComplete (tick now e) = onComplete e.
Proof.
  intros Hplay (id & Hid & Hin) Hdue Hlt.
  unfold tick. rewrite Hid, (@frame_of_held id now e Hin).
  unfold animate, getEffectiveDuration in *. fields.
  rewrite Hplay. cbn [negb]. rewrite Hdue. fields.
  apply Z.ltb_lt in Hlt. rewrite Hlt. unfold holds_frame. fields.
  repeat split; try assumption.
  exists (nextFrameId e). split; [reflexivity|left; reflexivity].
Qed.

(** A due frame of a playing engine at the final index stops the playback
    and calls [onComplete] last. *)
Lemma tick_completes (now : Q) (e : engine) :
  isPlaying e = true -> holds_frame e ->
  JsNum.geb (now - lastFrameTime e) (getEffectiveDuration e) = true ->
  totalSteps e - 1 <= currentStep e ->
  currentStep (tick now e) = currentStep e
  /\ isPlaying (tick now e) = false
  /\ isPaused (tick now e) = true
  /\ animationFrameId (tick now e) = None
  /\ (onComplete e = true ->
      exists rest, log (tick now e) = Completed _ :: rest).
Proof.
  intros Hplay (id & Hid & Hin) Hdue Hge.
  unfold tick. rewrite Hid, (@frame_of_held id now e Hin).
  unfold animate, getEffectiveDuration in *. fields.
  rewrite Hplay. cbn [negb]. rewrite Hdue. fields.
  apply Z.ltb_ge in Hge. rewrite Hge.
  set (e1 := set_lastFrameTime now _).
  assert (Hp : currentStep (pause e1) = currentStep e
               /\ isPlaying (pause e1) = false
               /\ isPaused (pause e1) = true
               /\ animationFrameId (pause e1) = None
               /\ onComplete (pause e1) = onComplete e).
  { unfold pause. fields. unfold e1. fields. rewrite Hid. fields.
    repeat split. }
  destruct Hp as (Hc & Hpl & Hpa & Hfr & Hoc). rewrite Hoc.
  destruct (onComplete e); fields; repeat split; try assumption.
  - intros _. eexists. reflexivity.
  - discriminate.
Qed.

Lemma last_cons (l : list Q) :
  forall a d : Q, last (a :: l) d = last l a.
Proof.
  induction l as [|b l IH]; intros a d; [reflexivity|].
  change (last (a :: b :: l) d) with (last (b :: l) d).
  rewrite (IH b d), (IH b a). reflexivity.
Qed.

Lemma ticks_advance (ts : list Q) :
  forall e : engine,
    isPlaying e = true -> holds_frame e ->
    spaced (getEffectiveDuration e) (lastFrameTime e) ts ->
    currentStep e + Z.of_nat (List.length ts) <= totalSteps e - 1 ->
    currentStep (ticks ts e) = currentStep e + Z.of_nat (List.length ts)
    /\ isPlaying (ticks ts e) = true
    /\ holds_frame (ticks ts e)
    /\ lastFrameTime (ticks ts e) = last ts (lastFrameTime e)
    /\ getEffectiveDuration (ticks ts e) = getEffectiveDuration e
    /\ totalSteps (ticks ts e) = totalSteps e
    /\ onComplete (ticks ts e) = onComplete e.
Proof.
  induction ts as [|t ts IH]; intros e Hplay Hheld Hsp Hlen.
  - cbn. rewrite Z.add_0_r. repeat split; assumption.
  - cbn [spaced] in Hsp. destruct Hsp as [Hdue Hsp].
    cbn [List.length] in Hlen. rewrite Nat2Z.inj_succ in Hlen.
    destruct (@tick_advances t e Hplay Hheld Hdue)
      as (Hc & Hp & Hh & Ht & Hd & Hn & Ho); [lia|].
    cbn [ticks fold_left]. fold (ticks ts (tick t e)).
    destruct (IH (tick t e)) as (Hc' & Hp' & Hh' & Ht' & Hd' & Hn' & Ho');
      try assumption.
    + rewrite Hd, Ht. exact Hsp.
    + rewrite Hc, Hn. lia.
    + rewrite Hc', Hc, Ht', Ht, Hd', Hd, Hn', Hn, Ho', Ho.
      cbn [List.length]. rewrite Nat2Z.inj_succ.
      rewrite last_cons.
      repeat split; try assumption; try lia.
Qed.

Lemma spaced_app (d : jsnum) (ts : list Q) (u : Q) :
  forall t, spaced d t (ts ++ [u])
            <-> spaced d t ts /\ JsNum.geb (u - last ts t) d = true.
Proof.
  induction ts as [|a ts IH]; intros t; cbn [app spaced].
  - cbn. tauto.
  - rewrite IH, last_cons. tauto.
Qed.

Lemma ticks_app (ts : list Q) (u : Q) (e : engine) :
  ticks (ts ++ [u]) e = tick u (ticks ts e).
Proof. unfold ticks. rewrite fold_left_app. reflexivity. Qed.

(** X7.  A playing engine that holds a pending frame, at an index k frames
    short of the final one, reaches the final index after k frames that
    each come due (a step duration or more after the one before), still
    playing; the next due frame stops the playback with the index at the
    final one, the engine paused and no frame held, and calls [onComplete],
    if registered, as the last callback. *)
Theorem playback_runs_to_end (ts : list Q) (u : Q) (e : engine) :
  isPlaying e = true -> holds_frame e ->
  spaced (getEffectiveDuration e) (lastFrameTime e) (ts ++ [u]) ->
  currentStep e + Z.of_nat (List.length ts) = totalSteps e - 1 ->
  (currentStep (ticks ts e) = totalSteps e - 1
   /\ isPlaying (ticks ts e) = true)
  /\ (currentStep (ticks (ts ++ [u]) e) = totalSteps e - 1
      /\ isPlaying (ticks (ts ++ [u]) e) = false
      /\ isPaused (ticks (ts ++ [u]) e) = true
      /\ animationFrameId (ticks (ts ++ [u]) e) = None
      /\ (onComplete e = true ->
          exists rest, log (ticks (ts ++ [u]) e) = Completed _ :: rest)).
Proof.
  intros Hplay Hheld Hsp Hlen.
  apply spaced_app in Hsp. destruct Hsp as [Hsp Hdue].
  destruct (@ticks_advance ts e Hplay Hheld Hsp)
    as (Hc & Hp & Hh & Ht & Hd & Hn & Ho); [lia|].
  split; [split; [lia|exact Hp]|].
  rewrite ticks_app.
  destruct (@tick_completes u (ticks ts e) Hp Hh)
    as (Hc' & Hp' & Hpa' & Hf' & Hlog').
  - rewrite Hd, Ht. exact Hdue.
  - rewrite Hn. lia.
  - rewrite Ho in Hlog'. repeat split; try assumption. lia.
Qed.

(** ** Pausing and stepping by hand *)

Lemma frame_not_playing (id : positive) (now : Q) (e : engine) :
  isPlaying e = false ->
  isPlaying (frame id now e) = false
  /\ currentStep (frame id now e) = currentStep e
  /\ log (frame id now e) = log e
  /\ animationFrameId (frame id now e) = animationFrameId e.
Proof.
  intros H. unfold frame. destruct (existsb _ _); [|repeat split; exact H].
  unfold animate. fields. rewrite H. cbn [negb]. fields.
  repeat split; exact H.
Qed.

Lemma fire_not_playing (fs : list (positive * Q)) :
  forall e : engine,
    isPlaying e = false ->
    isPlaying (run (fire fs) e) = false
    /\ currentStep (run (fire fs) e) = currentStep e
    /\ log (run (fire fs) e) = log e
    /\ animationFrameId (run (fire fs) e) = animationFrameId e.
Proof.
  induction fs as [|[id u] fs IH]; intros e H; [repeat split; exact H|].
  cbn [fire List.map run fold_left fst snd exec].
  fold (fire fs). fold (run (fire fs) (frame id u e)).
  destruct (@frame_not_playing id u e H) as (Hp & Hc & Hl & Hf).
  destruct (IH _ Hp) as (Hp' & Hc' & Hl' & Hf').
  repeat split; congruence.
Qed.

(** X8.  [pause()] stops the playback for good: the engine is paused, holds
    no frame, and the frame it held is no longer pending; and whatever frame
    callbacks fire afterwards, at whatever times, the position stays where
    it was and no callback is called. *)
Theorem pause_stops_the_loop (fs : list (positive * Q)) (e : engine) :
  (isPlaying (pause e) = false /\ isPaused (pause e) = true
   /\ animationFrameId (pause e) = None
   /\ forall id, animationFrameId e = Some id -> ~ In id (pending (pause e)))
  /\ isPlaying (run (fire fs) (pause e)) = false
  /\ currentStep (run (fire fs) (pause e)) = currentStep e
  /\ log (run (fire fs) (pause e)) = log (pause e)
  /\ animationFrameId (run (fire fs) (pause e)) = None.
Proof.
  assert (Hp : isPlaying (pause e) = false /\ isPaused (pause e) = true
               /\ animationFrameId (pause e) = None
               /\ forall id, animationFrameId e = Some id ->
                             ~ In id (pending (pause e))).
  { unfold pause. fields.
    destruct (animationFrameId e) as [id|] eqn:Hid; fields; rewrite ?Hid;
      (split; [reflexivity|]); (split; [reflexivity|]);
      (split; [reflexivity|]); intros id' Hid'; [|discriminate Hid'].
    intros Hin. injection Hid' as <-.
    apply filter_In in Hin. destruct Hin as [_ Hneq].
    rewrite Pos.eqb_refl in Hneq. discriminate Hneq. }
  split; [exact Hp|]. destruct Hp as (Hplay & _ & Hfr & _).
  destruct (@fire_not_playing fs (pause e) Hplay) as (H1 & H2 & H3 & H4).
  rewrite pause_currentStep in H2. rewrite Hfr in H4.
  repeat split; assumption.
Qed.

(** X9.  Stepping by hand does not touch the playback: [stepForward],
    [stepBackward], [goToStep], [reset] and [setSpeed] leave the playing and
    paused flags, the held and the pending frames and the recorded frame
    time as they were, also while the engine is playing. *)
Theorem manual_steps_keep_the_loop (c : call) (e : engine) :
  match c with
  | StepForward | StepBackward | GoToStep _ | Reset | SetSpeed _ =>
      loop_state (exec c e) = loop_state e
  | _ => True
  end.
Proof.
  unfold loop_state.
  destruct c; try exact I; cbn [exec];
    unfold reset, goToStep, stepForward, stepBackward, setSpeed;
    try destruct (_ <? _); fields; reflexivity.
Qed.

End Facts.

(** ** Concrete runs *)

(** Against C2 as it is worded: loading a sequence into a playing engine
    leaves it playing, with its frame pending. *)
Lemma setSteps_keeps_playing : ~ load_cancels_playback nat.
Proof.
  intros H. destruct (H [7; 8]%nat playing3) as (_ & _ & Hp & _).
  vm_compute in Hp. discriminate Hp.
Qed.

(** The pending frame then advances the position in the new sequence. *)
Example playback_survives_load :
  let e := setSteps [7; 8]%nat playing3 in
  isPlaying e = true /\ pending e = [1%positive]
  /\ currentStep e = 0 /\ currentStep (frame 1 600 e) = 1.
Proof. vm_compute. repeat split. Qed.

Lemma position_stays_in_range_witness :
  0 <= currentStep
         (run [Play 0 0; Frame 1 600; GoToStep 9; StepForward; StepBackward]
              (setSteps [10; 20; 30]%nat (constructor nat)))
    <= Z.of_nat (List.length [10; 20; 30]%nat) - 1
  /\ currentStep
       (run [Play 0 0; Frame 1 600; GoToStep 9; StepForward]
            (constructor nat)) = 0.
Proof.
  destruct (position_stays_in_range nat) as (Hloaded & _ & _ & Hnone).
  split; [apply Hloaded; discriminate|apply Hnone; reflexivity].
Defined.

Lemma play_at_end_restarts_witness :
  currentStep at_end3 = 2
  /\ currentStep (play_restart at_end3) = 0
  /\ currentStep (play 0 1 at_end3) = 0
  /\ isPlaying (play 0 1 at_end3) = true.
Proof.
  split; [reflexivity|].
  assert (H1 : 1 <= totalSteps at_end3) by (vm_compute; discriminate).
  assert (H2 : currentStep at_end3 = totalSteps at_end3 - 1) by reflexivity.
  destruct (play_at_end_restarts at_end3 0 1 H1 H2)
    as ((_ & Hr & _) & Hplay).
  split; [exact Hr|].
  destruct Hplay as (Hc & Hp & _); [reflexivity|].
  split; assumption.
Defined.

Lemma setSpeed_clamps_witness :
  (speed (setSpeed (1 # 10) at_end3) == 1 # 4)%Q
  /\ (speed (setSpeed 9 at_end3) == 4)%Q
  /\ (speed (setSpeed (3 # 2) at_end3) == 3 # 2)%Q.
Proof.
  split; [|split].
  - apply (setSpeed_clamps (1 # 10) at_end3). reflexivity.
  - apply (setSpeed_clamps 9 at_end3). reflexivity.
  - apply (setSpeed_clamps (3 # 2) at_end3); discriminate.
Defined.

Lemma position_clamps_at_boundaries_witness :
  stepForward at_end3 = at_end3
  /\ currentStep (goToStep (-5) at_end3) = 0
  /\ currentStep (goToStep 3 at_end3) = 2.
Proof.
  assert (H1 : 1 <= totalSteps at_end3) by (vm_compute; discriminate).
  destruct (position_clamps_at_boundaries at_end3 H1) as (Hf & _ & Hlo & Hhi).
  split; [apply Hf; reflexivity|].
  split; [apply Hlo; reflexivity|].
  apply (Hhi 3). vm_compute. discriminate.
Defined.

Lemma progress_is_a_percentage_witness :
  exists new,
    log (run [GoToStep 1; Play 0 0; Frame 1 600]
             (setSteps [10; 20; 30]%nat
                (set_callbacks false false true (constructor nat))))
    = (new ++ [])%list
    /\ Forall (@progress_is_percent nat) new
    /\ List.length new = 3%nat.
Proof.
  destruct (@progress_is_a_percentage nat [10; 20; 30]%nat
              (set_callbacks false false true (constructor nat))
              [GoToStep 1; Play 0 0; Frame 1 600])
    as (new & Hlog & Hall); [cbn; lia|].
  exists new. split; [exact Hlog|]. split; [exact Hall|].
  cbn [log set_callbacks constructor] in Hlog. rewrite app_nil_r in Hlog.
  rewrite <- Hlog. reflexivity.
Defined.

Lemma speed_stays_clamped_witness :
  speed_ok (run [SetSpeed 9; Play 0 0]
              (setSteps [10; 20]%nat
                 (run [SetSpeed (1 # 100)] (constructor nat)))).
Proof.
  apply (@speed_stays_clamped nat (constructor nat) [10; 20]%nat
           [SetSpeed (1 # 100)] [SetSpeed 9; Play 0 0]).
  - split; discriminate.
  - discriminate.
Defined.

Lemma frames_advance_once_per_duration_witness :
  currentStep playing3
  <= currentStep (run (fire [(1%positive, 600%Q); (2%positive, 700%Q)])
                      playing3)
  <= currentStep playing3 + 1.
Proof.
  apply (@frames_advance_once_per_duration nat 600).
  intros f [<- | [<- | []]]; split; cbn; (discriminate || reflexivity).
Defined.

Lemma playback_runs_to_end_witness :
  currentStep (ticks [500; 1000; 1500]%Q playing3) = 2
  /\ isPlaying (ticks [500; 1000; 1500]%Q playing3) = false.
Proof.
  assert (Hheld : holds_frame playing3).
  { exists 1%positive. split; [reflexivity|left; reflexivity]. }
  assert (Hsp : spaced (getEffectiveDuration playing3)
                  (lastFrameTime playing3) ([500; 1000] ++ [1500])%Q).
  { cbn. repeat split. }
  destruct (@playback_runs_to_end nat [500; 1000]%Q 1500%Q playing3
              eq_refl Hheld Hsp eq_refl) as (_ & Hc & Hp & _).
  split; [exact Hc|exact Hp].
Defined.

End AnimatorFacts.

(** * Properties of the KMP producer *)

Module KMPFacts.
Import KMP.
Local Open Scope nat_scope.

Lemma table_ok_snoc (t : list nat) (v : nat) :
  table_ok t -> v <= List.length t -> table_ok (t ++ [v]).
Proof.
  intros Ht Hv k w Hk.
  destruct (Nat.lt_ge_cases k (List.length t)) as [Hlt | Hge].
  - rewrite nth_error_app1 in Hk by exact Hlt. apply (Ht _ _ Hk).
  - rewrite nth_error_app2 in Hk by exact Hge.
    destruct (k - List.length t) as [|d] eqn:Hd; cbn in Hk.
    + injection Hk as <-. lia.
    + destruct d; discriminate Hk.
Qed.

Lemma array_set_end (t : list nat) (v : nat) :
  array_set t (List.length t) v = Some (t ++ [v]).
Proof.
  unfold array_set. rewrite Nat.ltb_irrefl, Nat.eqb_refl. reflexivity.
Qed.

Lemma table_read (t : list nat) (k : nat) :
  table_ok t -> k < List.length t ->
  exists v, nth_error t k = Some v /\ v <= k.
Proof.
  intros Ht Hk. destruct (nth_error t k) as [v|] eqn:Hv.
  - exists v. split; [reflexivity|apply (Ht _ _ Hv)].
  - apply nth_error_None in Hv. lia.
Qed.

(** With fuel above [2 * (m - i) + len] the loop of [buildLPS] ends, and its
    table has one entry for each character of the pattern. *)
Lemma buildLPS_loop_total (pat : string) :
  forall fuel lps len i,
    List.length lps = i -> len < i -> table_ok lps ->
    2 * (String.length pat - i) + len < fuel ->
    exists t, buildLPS_loop fuel pat lps len i = Some t
              /\ table_ok t /\ List.length t = Nat.max i (String.length pat).
Proof.
  induction fuel as [|fuel IH]; intros lps len i Hlen Hlt Hok Hfuel; [lia|].
  subst i. cbn [buildLPS_loop].
  destruct (List.length lps <? String.length pat) eqn:Him.
  - apply Nat.ltb_lt in Him.
    destruct (char_eqb _ _).
    + rewrite array_set_end.
      destruct (IH (lps ++ [len + 1]) (len + 1) (List.length lps + 1))
        as (t & Ht & Hokt & Hl).
      * rewrite length_app. cbn. lia.
      * lia.
      * apply table_ok_snoc; [exact Hok|lia].
      * lia.
      * exists t. repeat split; [exact Ht|exact Hokt|lia].
    + destruct (len =? 0) eqn:Hz; cbn [negb].
      * apply Nat.eqb_eq in Hz. subst len.
        rewrite array_set_end.
        destruct (IH (lps ++ [0]) 0 (List.length lps + 1))
          as (t & Ht & Hokt & Hl).
        -- rewrite length_app. cbn. lia.
        -- lia.
        -- apply table_ok_snoc; [exact Hok|lia].
        -- lia.
        -- exists t. repeat split; [exact Ht|exact Hokt|lia].
      * apply Nat.eqb_neq in Hz.
        destruct (@table_read lps (len - 1) Hok) as (v & Hv & Hle); [lia|].
        rewrite Hv.
        destruct (IH lps v (List.length lps)) as (t & Ht & Hokt & Hl);
          try assumption; try reflexivity; try lia.
        exists t. repeat split; assumption.
  - apply Nat.ltb_ge in Him. exists lps. repeat split; [exact Hok|lia].
Qed.

(** [buildLPS] returns a table for every pattern. *)
Lemma buildLPS_total (pat : string) :
  exists t, buildLPS pat = Some t /\ table_ok t
            /\ List.length t = Nat.max 1 (String.length pat).
Proof.
  unfold buildLPS. apply buildLPS_loop_total; try reflexivity; try lia.
  intros [|k] v Hk; cbn in Hk; [injection Hk as <-; lia|].
  destruct k; discriminate Hk.
Qed.

(** With fuel above [2 * (n - i) + j] the loop of [search] ends. *)
Lemma search_loop_total (txt pat : string) (table : list nat) :
  table_ok table -> List.length table = String.length pat ->
  forall fuel i j ms,
    j < String.length pat ->
    2 * (String.length txt - i) + j < fuel ->
    exists r l, search_loop txt pat table fuel i j ms = Some (r, l).
Proof.
  intros Hok Hlen.
  induction fuel as [|fuel IH]; intros i j ms Hj Hfuel; [lia|].
  cbn [search_loop].
  destruct (i <? String.length txt) eqn:Hin; [|eauto].
  apply Nat.ltb_lt in Hin.
  destruct (char_eqb _ _).
  - destruct (j + 1 =? String.length pat) eqn:Hm.
    + apply Nat.eqb_eq in Hm.
      destruct (@table_read table (j + 1 - 1) Hok) as (k & Hk & Hle); [lia|].
      rewrite Hk.
      destruct (IH (i + 1) k (ms ++ [i + 1 - (j + 1)])%list) as (r & l & ->);
        [lia|lia|eauto].
    + apply Nat.eqb_neq in Hm.
      destruct (IH (i + 1) (j + 1) ms) as (r & l & ->); [lia|lia|eauto].
  - destruct (j =? 0) eqn:Hz; cbn [negb].
    + destruct (IH (i + 1) j ms) as (r & l & ->); [lia|lia|eauto].
    + apply Nat.eqb_neq in Hz.
      destruct (@table_read table (j - 1) Hok) as (k & Hk & Hle); [lia|].
      rewrite Hk.
      destruct (IH i k ms) as (r & l & ->); [lia|lia|eauto].
Qed.




(** C7.  The search for "ABABCABAB" in "ABABDABACDABABCABAB" returns exactly
    one match, at index 10; one state of the run reports a match, at 10, and
    the closing state counts one match. *)
Theorem search_finds_one_match_at_10 :
  exists l,
    search "ABABDABACDABABCABAB" "ABABCABAB" = Some ([10], l)
    /\ reported l = [10]
    /\ option_map matches (last (List.map Some l) None) = Some [10]
    /\ option_map description (last (List.map Some l) None)
       = Some "Search complete. Found 1 match(es)"%string.
Proof.
  eexists. split; [vm_compute; reflexivity|]. vm_compute. repeat split.
Qed.

(** ** Borders *)

Lemma char_eqb_eq (a b : option ascii) : char_eqb a b = true <-> a = b.
Proof.
  destruct a as [x|], b as [y|]; cbn; split; intros H;
    try reflexivity; try discriminate H.
  - apply Ascii.eqb_eq in H. congruence.
  - injection H as ->. apply Ascii.eqb_refl.
Qed.

Lemma char_eqb_neq (a b : option ascii) : char_eqb a b = false <-> a <> b.
Proof.
  split.
  - intros H Heq. apply char_eqb_eq in Heq. congruence.
  - intros H. destruct (char_eqb a b) eqn:E; [|reflexivity].
    apply char_eqb_eq in E. contradiction.
Qed.

Lemma border_zero (pat : string) (j : nat) : border pat j 0.
Proof. split; [lia|]. intros q Hq. lia. Qed.

Lemma border_extend (pat : string) (i len : nat) :
  border pat i len -> String.get i pat = String.get len pat ->
  border pat (i + 1) (len + 1).
Proof.
  intros [Hle Hb] Heq. split; [lia|]. intros q Hq.
  destruct (Nat.eq_dec q len) as [-> | Hne].
  - replace (i + 1 - (len + 1) + len) with i by lia. symmetry. exact Heq.
  - replace (i + 1 - (len + 1) + q) with (i - len + q) by lia.
    apply Hb. lia.
Qed.

Lemma border_shrink (pat : string) (i k : nat) :
  border pat (i + 1) (k + 1) ->
  border pat i k /\ String.get k pat = String.get i pat.
Proof.
  intros [Hle Hb]. split; [split; [lia|]|].
  - intros q Hq. rewrite (Hb q) by lia. f_equal. lia.
  - rewrite (Hb k) by lia. f_equal. lia.
Qed.

Lemma border_trans (pat : string) (i len k : nat) :
  border pat i len -> border pat len k -> border pat i k.
Proof.
  intros [Hle1 Hb1] [Hle2 Hb2]. split; [lia|]. intros q Hq.
  rewrite (Hb2 q) by exact Hq. rewrite (Hb1 (len - k + q)) by lia.
  f_equal. lia.
Qed.

Lemma border_of_border (pat : string) (i len k : nat) :
  border pat i len -> border pat i k -> k <= len -> border pat len k.
Proof.
  intros [Hle1 Hb1] [Hle2 Hb2] Hk. split; [exact Hk|]. intros q Hq.
  rewrite (Hb1 (len - k + q)) by lia. rewrite (Hb2 q) by exact Hq.
  f_equal. lia.
Qed.

Lemma table_correct_snoc (pat : string) (t : list nat) (v : nat) :
  table_correct pat t -> longest_border pat (List.length t) v ->
  table_correct pat (t ++ [v]).
Proof.
  intros Ht Hv i w Hi.
  destruct (Nat.lt_ge_cases i (List.length t)) as [Hlt | Hge].
  - rewrite nth_error_app1 in Hi by exact Hlt. apply (Ht _ _ Hi).
  - rewrite nth_error_app2 in Hi by exact Hge.
    destruct (i - List.length t) as [|d] eqn:Hd; cbn in Hi.
    + injection Hi as <-. replace i with (List.length t) by lia. exact Hv.
    + destruct d; discriminate Hi.
Qed.

(** The loop of [buildLPS] keeps its invariant: the table it returns is
    correct. *)
Lemma buildLPS_loop_correct (pat : string) :
  forall fuel lps len i t,
    lps_invariant pat lps len i ->
    buildLPS_loop fuel pat lps len i = Some t ->
    table_correct pat t.
Proof.
  induction fuel as [|fuel IH]; intros lps len i t Hinv Hrun;
    [discriminate Hrun|].
  destruct Hinv as (Hlen & Hlt & Hok & Hb & Hmax). subst i.
  cbn [buildLPS_loop] in Hrun.
  destruct (List.length lps <? String.length pat) eqn:Him;
    [|injection Hrun as <-; exact Hok].
  destruct (char_eqb _ _) eqn:Heq.
  - apply char_eqb_eq in Heq. rewrite array_set_end in Hrun.
    assert (Hentry : longest_border pat (List.length lps) (len + 1)).
    { split; [lia|]. split; [apply border_extend; assumption|exact Hmax]. }
    apply (IH _ _ _ _ ) with (2 := Hrun).
    split; [rewrite length_app; cbn; lia|]. split; [lia|].
    split; [apply table_correct_snoc; assumption|].
    split; [apply border_extend; assumption|].
    intros [|k] Hk Hbk; [lia|].
    replace (S k) with (k + 1) in Hbk by lia.
    replace (List.length lps + 1 + 1) with ((List.length lps + 1) + 1)
      in Hbk by lia.
    apply border_shrink in Hbk. destruct Hbk as [Hbk _].
    destruct Hentry as (_ & _ & Hlongest).
    assert (k <= len + 1) by (apply Hlongest; [lia|exact Hbk]). lia.
  - apply char_eqb_neq in Heq.
    assert (Hno : forall k, k <= List.length lps ->
                            border pat (List.length lps + 1) k -> k <= len).
    { intros k Hk Hbk. specialize (Hmax k Hk Hbk).
      destruct (Nat.eq_dec k (len + 1)) as [-> | Hne]; [|lia].
      apply border_shrink in Hbk. destruct Hbk as [_ Hc].
      exfalso. apply Heq. symmetry. exact Hc. }
    destruct (len =? 0) eqn:Hz; cbn [negb] in Hrun.
    + apply Nat.eqb_eq in Hz. subst len. rewrite array_set_end in Hrun.
      assert (Hentry : longest_border pat (List.length lps) 0).
      { split; [lia|]. split; [apply border_zero|exact Hno]. }
      apply (IH _ _ _ _ ) with (2 := Hrun).
      split; [rewrite length_app; cbn; lia|]. split; [lia|].
      split; [apply table_correct_snoc; assumption|].
      split; [apply border_zero|].
      intros [|k] Hk Hbk; [lia|].
      replace (S k) with (k + 1) in Hbk by lia.
      apply border_shrink in Hbk. destruct Hbk as [Hbk _].
      assert (k <= 0) by (apply Hno; [lia|exact Hbk]). lia.
    + apply Nat.eqb_neq in Hz.
      destruct (nth_error lps (len - 1)) as [v|] eqn:Hv;
        [|discriminate Hrun].
      destruct (Hok _ _ Hv) as (Hvle & Hvb & Hvmax).
      replace (len - 1 + 1) with len in Hvb, Hvmax by lia.
      apply (IH _ _ _ _ ) with (2 := Hrun).
      split; [reflexivity|]. split; [lia|]. split; [exact Hok|].
      split; [eapply border_trans; eassumption|].
      intros [|k] Hk Hbk; [lia|].
      pose proof (Hno _ Hk Hbk) as Hkl.
      replace (S k) with (k + 1) in Hbk by lia.
      apply border_shrink in Hbk. destruct Hbk as [Hbk _].
      assert (Hlk : border pat len k)
        by (eapply border_of_border; [exact Hb|exact Hbk|lia]).
      assert (k <= v) by (apply Hvmax; [lia|exact Hlk]). lia.
Qed.

(** [buildLPS] returns the failure table of the pattern. *)
Lemma buildLPS_correct (pat : string) :
  exists t,
    buildLPS pat = Some t
    /\ List.length t = Nat.max 1 (String.length pat)
    /\ table_correct pat t.
Proof.
  destruct (buildLPS_total pat) as (t & Hrun & _ & Hlen).
  exists t. split; [exact Hrun|]. split; [exact Hlen|].
  unfold buildLPS in Hrun. apply buildLPS_loop_correct with (2 := Hrun).
  split; [reflexivity|]. split; [lia|]. split.
  - intros [|i] v Hi; cbn in Hi; [|destruct i; discriminate Hi].
    injection Hi as <-. split; [lia|]. split; [apply border_zero|].
    intros k Hk _. lia.
  - split; [apply border_zero|]. intros k Hk _. lia.
Qed.

(** X10.  For every pattern [buildLPS] returns the failure table of the
    pattern: one entry per character (one entry, 0, for the empty pattern),
    entry [i] being the length of the longest proper prefix of the first
    [i + 1] characters that is also a suffix of them. *)
Theorem buildLPS_is_the_failure_table (pat : string) :
  exists t,
    buildLPS pat = Some t
    /\ List.length t = Nat.max 1 (String.length pat)
    /\ table_correct pat t.
Proof. exact (buildLPS_correct pat). Qed.

(** ** Prefixes of the pattern in the text *)

Lemma prefix_ends_zero (txt pat : string) (i : nat) :
  prefix_ends_at txt pat i 0.
Proof. split; [lia|]. intros q Hq. lia. Qed.

Lemma prefix_ends_extend (txt pat : string) (i j : nat) :
  prefix_ends_at txt pat i j -> String.get i txt = String.get j pat ->
  prefix_ends_at txt pat (i + 1) (j + 1).
Proof.
  intros [Hle Hp] Heq. split; [lia|]. intros q Hq.
  destruct (Nat.eq_dec q j) as [-> | Hne].
  - replace (i + 1 - (j + 1) + j) with i by lia. exact Heq.
  - replace (i + 1 - (j + 1) + q) with (i - j + q) by lia. apply Hp. lia.
Qed.

Lemma prefix_ends_shrink (txt pat : string) (i k : nat) :
  prefix_ends_at txt pat (i + 1) (k + 1) ->
  prefix_ends_at txt pat i k /\ String.get i txt = String.get k pat.
Proof.
  intros [Hle Hp]. split; [split; [lia|]|].
  - intros q Hq. rewrite <- (Hp q) by lia. f_equal. lia.
  - rewrite <- (Hp k) by lia. f_equal. lia.
Qed.

Lemma prefix_ends_border (txt pat : string) (i j k : nat) :
  prefix_ends_at txt pat i j -> border pat j k ->
  prefix_ends_at txt pat i k.
Proof.
  intros [Hle Hp] [Hkj Hb]. split; [lia|]. intros q Hq.
  rewrite (Hb q) by exact Hq. rewrite <- (Hp (j - k + q)) by lia.
  f_equal. lia.
Qed.

Lemma prefix_ends_to_border (txt pat : string) (i j k : nat) :
  prefix_ends_at txt pat i j -> prefix_ends_at txt pat i k -> k <= j ->
  border pat j k.
Proof.
  intros [Hle Hp] [Hki Hq] Hkj. split; [exact Hkj|]. intros q Hlt.
  rewrite <- (Hq q) by exact Hlt. rewrite <- (Hp (j - k + q)) by lia.
  f_equal. lia.
Qed.

Lemma occurs_prefix_ends (txt pat : string) (p : nat) :
  occurs_at txt pat p
  <-> p + String.length pat <= String.length txt
      /\ prefix_ends_at txt pat (p + String.length pat) (String.length pat).
Proof.
  unfold occurs_at, prefix_ends_at. split.
  - intros [Hle Ho]. split; [exact Hle|]. split; [lia|].
    intros q Hq. rewrite <- (Ho q) by exact Hq. f_equal. lia.
  - intros [Hle [_ Hp]]. split; [exact Hle|].
    intros q Hq. rewrite <- (Hp q) by exact Hq. f_equal. lia.
Qed.

Lemma sorted_snoc (ms : list nat) (x : nat) :
  StronglySorted lt ms -> (forall p, In p ms -> p < x) ->
  StronglySorted lt (ms ++ [x]).
Proof.
  induction 1 as [|a ms Hs IH Ha]; intros Hx; cbn.
  - constructor; constructor.
  - constructor.
    + apply IH. intros p Hp. apply Hx. right. exact Hp.
    + apply Forall_app. split; [exact Ha|].
      constructor; [apply Hx; left; reflexivity|constructor].
Qed.

(** The loop of [search] keeps its invariant: the matches it returns are
    the occurrences of the pattern, in increasing order. *)
Lemma search_loop_correct (txt pat : string) (table : list nat) :
  table_correct pat table ->
  forall fuel i j ms r l,
    search_invariant txt pat i j ms ->
    search_loop txt pat table fuel i j ms = Some (r, l) ->
    (forall p, In p r <-> occurs_at txt pat p) /\ StronglySorted lt r.
Proof.
  intros Htable.
  induction fuel as [|fuel IH]; intros i j ms r l Hinv Hrun;
    [discriminate Hrun|].
  destruct Hinv as (Hin & Hjm & Hpre & Hmax & Hall & Hsound & Hsorted).
  cbn [search_loop] in Hrun.
  destruct (i <? String.length txt) eqn:Hlt.
  2:{ injection Hrun as <- <-. apply Nat.ltb_ge in Hlt.
      split; [|exact Hsorted]. intros p. split.
      - intros Hp. apply Hsound, Hp.
      - intros Ho. apply Hall; [exact Ho|]. destruct Ho as [Hle _]. lia. }
  apply Nat.ltb_lt in Hlt.
  destruct (char_eqb _ _) eqn:Heq.
  - apply char_eqb_eq in Heq.
    pose proof (prefix_ends_extend Hpre Heq) as Hnext.
    assert (Hshrunk : forall k, k <= String.length pat ->
                                prefix_ends_at txt pat (i + 1 + 1) (k + 1) ->
                                prefix_ends_at txt pat (i + 1) k).
    { intros k _ Hk. apply prefix_ends_shrink in Hk. apply Hk. }
    destruct (j + 1 =? String.length pat) eqn:Hm.
    + apply Nat.eqb_eq in Hm.
      destruct (nth_error table (j + 1 - 1)) as [v|] eqn:Hv;
        [|discriminate Hrun].
      destruct (search_loop txt pat table fuel (i + 1) v _)
        as [[r' l']|] eqn:Hrec; [|discriminate Hrun].
      injection Hrun as <- <-.
      eapply IH; [|exact Hrec].
      destruct (Htable _ _ Hv) as (Hvle & Hvb & Hvmax).
      replace (j + 1 - 1 + 1) with (String.length pat) in Hvb, Hvmax by lia.
      rewrite Hm in Hnext.
      assert (Hocc : occurs_at txt pat (i + 1 - (j + 1))).
      { apply occurs_prefix_ends.
        replace (i + 1 - (j + 1) + String.length pat) with (i + 1)
          by (destruct Hpre; lia).
        split; [lia|exact Hnext]. }
      split; [lia|]. split; [lia|].
      split; [eapply prefix_ends_border; eassumption|].
      split; [|split; [|split]].
      * intros [|k] Hk Hpk; [lia|].
        replace (S k) with (k + 1) in Hpk by lia.
        apply Hshrunk in Hpk; [|lia].
        assert (Hbk : border pat (String.length pat) k)
          by (eapply prefix_ends_to_border; [exact Hnext|exact Hpk|lia]).
        assert (k <= v) by (apply Hvmax; [lia|exact Hbk]). lia.
      * intros p Ho Hp. apply in_or_app.
        destruct (Nat.eq_dec (p + String.length pat) (i + 1)) as [He | Hne].
        -- right. left. lia.
        -- left. apply Hall; [exact Ho|lia].
      * intros p Hp. apply in_app_or in Hp.
        destruct Hp as [Hp | [<- | []]].
        -- destruct (Hsound _ Hp). split; [assumption|lia].
        -- split; [exact Hocc|]. destruct Hpre. lia.
      * apply sorted_snoc; [exact Hsorted|].
        intros p Hp. destruct (Hsound _ Hp) as [_ Hb]. destruct Hpre. lia.
    + apply Nat.eqb_neq in Hm.
      destruct (search_loop txt pat table fuel (i + 1) (j + 1) ms)
        as [[r' l']|] eqn:Hrec; [|discriminate Hrun].
      injection Hrun as <- <-.
      eapply IH; [|exact Hrec].
      split; [lia|]. split; [lia|]. split; [exact Hnext|].
      split; [|split; [|split]].
      * intros [|k] Hk Hpk; [lia|].
        replace (S k) with (k + 1) in Hpk by lia.
        apply Hshrunk in Hpk; [|lia].
        assert (k <= j + 1) by (apply Hmax; [lia|exact Hpk]). lia.
      * intros p Ho Hp.
        destruct (Nat.eq_dec (p + String.length pat) (i + 1)) as [He | Hne];
          [|apply Hall; [exact Ho|lia]].
        apply occurs_prefix_ends in Ho. destruct Ho as [_ Ho].
        rewrite He in Ho.
        assert (String.length pat <= j + 1) by (apply Hmax; [lia|exact Ho]).
        lia.
      * intros p Hp. destruct (Hsound _ Hp). split; [assumption|lia].
      * exact Hsorted.
  - apply char_eqb_neq in Heq.
    assert (Hno : forall k, k <= String.length pat ->
                            prefix_ends_at txt pat (i + 1) k -> k <= j).
    { intros k Hk Hpk. pose proof (Hmax k Hk Hpk) as Hkj.
      destruct (Nat.eq_dec k (j + 1)) as [-> | Hne]; [|lia].
      apply prefix_ends_shrink in Hpk. destruct Hpk as [_ Hc].
      contradiction. }
    assert (Hnone : forall p, occurs_at txt pat p ->
                              p + String.length pat <= i + 1 -> In p ms).
    { intros p Ho Hp.
      destruct (Nat.eq_dec (p + String.length pat) (i + 1)) as [He | Hne];
        [|apply Hall; [exact Ho|lia]].
      apply occurs_prefix_ends in Ho. destruct Ho as [_ Ho].
      rewrite He in Ho.
      assert (String.length pat <= j) by (apply Hno; [lia|exact Ho]). lia. }
    destruct (j =? 0) eqn:Hz; cbn [negb] in Hrun.
    + apply Nat.eqb_eq in Hz. subst j.
      destruct (search_loop txt pat table fuel (i + 1) 0 ms)
        as [[r' l']|] eqn:Hrec; [|discriminate Hrun].
      injection Hrun as <- <-.
      eapply IH; [|exact Hrec].
      split; [lia|]. split; [lia|]. split; [apply prefix_ends_zero|].
      split; [|split; [|split]].
      * intros [|k] Hk Hpk; [lia|].
        replace (S k) with (k + 1) in Hpk by lia.
        apply prefix_ends_shrink in Hpk. destruct Hpk as [Hpk _].
        assert (k <= 0) by (apply Hno; [lia|exact Hpk]). lia.
      * exact Hnone.
      * intros p Hp. destruct (Hsound _ Hp). split; [assumption|lia].
      * exact Hsorted.
    + apply Nat.eqb_neq in Hz.
      destruct (nth_error table (j - 1)) as [v|] eqn:Hv;
        [|discriminate Hrun].
      destruct (search_loop txt pat table fuel i v ms)
        as [[r' l']|] eqn:Hrec; [|discriminate Hrun].
      injection Hrun as <- <-.
      eapply IH; [|exact Hrec].
      destruct (Htable _ _ Hv) as (Hvle & Hvb & Hvmax).
      replace (j - 1 + 1) with j in Hvb, Hvmax by lia.
      split; [lia|]. split; [lia|].
      split; [eapply prefix_ends_border; eassumption|].
      split; [|split; [|split]]; try assumption.
      intros [|k] Hk Hpk; [lia|].
      pose proof (Hno _ Hk Hpk) as Hkj.
      replace (S k) with (k + 1) in Hpk by lia.
      apply prefix_ends_shrink in Hpk. destruct Hpk as [Hpk _].
      assert (Hbk : border pat j k)
        by (eapply prefix_ends_to_border; [exact Hpre|exact Hpk|lia]).
      assert (k <= v) by (apply Hvmax; [lia|exact Hbk]). lia.
Qed.

(** X11.  For a non-empty pattern, [search()] returns exactly the indices
    at which the pattern occurs in the text, overlapping occurrences
    included, each once and in increasing order. *)
Theorem search_finds_exactly_the_occurrences (txt pat : string) :
  String.length pat <> 0 ->
  exists ms l,
    search txt pat = Some (ms, l)
    /\ (forall p, In p ms <-> occurs_at txt pat p)
    /\ StronglySorted lt ms.
Proof.
  intros Hm. unfold search.
  destruct (String.length pat =? 0) eqn:Hm0;
    [apply Nat.eqb_eq in Hm0; contradiction|].
  destruct (String.length txt =? 0) eqn:Hn0; cbn [orb].
  - apply Nat.eqb_eq in Hn0. exists [], []. split; [reflexivity|].
    split; [|constructor]. intros p. split; [intros []|].
    intros [Hle _]. lia.
  - destruct (buildLPS_correct pat) as (table & -> & Hlen & Hcorrect).
    rewrite Nat.max_r in Hlen by lia.
    assert (Hok : table_ok table).
    { intros k v Hk. apply (Hcorrect _ _ Hk). }
    destruct (@search_loop_total txt pat table Hok Hlen
                (2 * String.length txt + 1) 0 0 [])
      as (r & l & Hl); [lia|lia|].
    rewrite Hl. eexists. eexists. split; [reflexivity|].
    apply (@search_loop_correct txt pat table Hcorrect
             (2 * String.length txt + 1) 0 0 [] r l); [|exact Hl].
    split; [lia|]. split; [lia|]. split; [apply prefix_ends_zero|].
    split; [|split; [|split]].
    + intros [|k] Hk Hpk; [lia|].
      replace (S k) with (k + 1) in Hpk by lia.
      destruct Hpk as [Hle _]. lia.
    + intros p [Hle _] Hp. lia.
    + intros p [].
    + constructor.
Qed.

(** ** The states of a search *)

Lemma grows_to_refl (a : list nat) : grows_to a a.
Proof. exists []. symmetry. apply app_nil_r. Qed.

Lemma grows_to_trans (a b c : list nat) :
  grows_to a b -> grows_to b c -> grows_to a c.
Proof.
  intros [x ->] [y ->]. exists (x ++ y)%list. symmetry. apply app_assoc.
Qed.

Lemma grows_to_snoc (a : list nat) (x : nat) : grows_to a (a ++ [x]).
Proof. exists [x]. reflexivity. Qed.

Lemma search_loop_states (txt pat : string) (table : list nat) :
  forall fuel i j ms r l,
    j < String.length pat ->
    List.length table = String.length pat -> table_ok table ->
    search_loop txt pat table fuel i j ms = Some (r, l) ->
    grows_to ms r
    /\ Forall (state_consistent txt pat table r) l
    /\ List.length l <= 2 * (2 * (String.length txt - i) + j).
Proof.
  induction fuel as [|fuel IH]; intros i j ms r l Hj Hlen Hok Hrun;
    [discriminate Hrun|].
  cbn [search_loop] in Hrun.
  destruct (i <? String.length txt) eqn:Hlt.
  2:{ injection Hrun as <- <-.
      split; [apply grows_to_refl|]. split; [constructor|cbn; lia]. }
  apply Nat.ltb_lt in Hlt.
  assert (Hcmp : forall r', grows_to ms r' ->
                   state_consistent txt pat table r'
                     (state_comparing txt pat table i j ms)).
  { intros r' Hg. repeat split; cbn; try lia. exact Hg. }
  destruct (char_eqb _ _).
  - destruct (j + 1 =? String.length pat) eqn:Hm.
    + apply Nat.eqb_eq in Hm.
      destruct (nth_error table (j + 1 - 1)) as [v|] eqn:Hv;
        [|discriminate Hrun].
      pose proof (Hok _ _ Hv) as Hvle.
      destruct (search_loop txt pat table fuel (i + 1) v _)
        as [[r' l']|] eqn:Hrec; [|discriminate Hrun].
      injection Hrun as <- <-.
      assert (Hjv : v < String.length pat) by lia.
      destruct (IH _ _ _ _ _ Hjv Hlen Hok Hrec) as (Hg & Hall & Hn).
      assert (Hg' : grows_to ms r')
        by (eapply grows_to_trans; [apply grows_to_snoc|exact Hg]).
      split; [exact Hg'|]. split.
      * constructor; [apply Hcmp, Hg'|]. constructor; [|exact Hall].
        repeat split; cbn; try lia. exact Hg.
      * cbn [List.length]. lia.
    + apply Nat.eqb_neq in Hm.
      destruct (search_loop txt pat table fuel (i + 1) (j + 1) ms)
        as [[r' l']|] eqn:Hrec; [|discriminate Hrun].
      injection Hrun as <- <-.
      assert (Hjv : j + 1 < String.length pat) by lia.
      destruct (IH _ _ _ _ _ Hjv Hlen Hok Hrec) as (Hg & Hall & Hn).
      split; [exact Hg|]. split.
      * constructor; [apply Hcmp, Hg|exact Hall].
      * cbn [List.length]. lia.
  - destruct (j =? 0) eqn:Hz; cbn [negb] in Hrun.
    + apply Nat.eqb_eq in Hz. subst j.
      destruct (search_loop txt pat table fuel (i + 1) 0 ms)
        as [[r' l']|] eqn:Hrec; [|discriminate Hrun].
      injection Hrun as <- <-.
      destruct (IH _ _ _ _ _ Hj Hlen Hok Hrec) as (Hg & Hall & Hn).
      split; [exact Hg|]. split.
      * constructor; [apply Hcmp, Hg|]. constructor; [|exact Hall].
        repeat split; cbn; try lia. exact Hg.
      * cbn [List.length]. lia.
    + apply Nat.eqb_neq in Hz.
      destruct (nth_error table (j - 1)) as [v|] eqn:Hv;
        [|discriminate Hrun].
      pose proof (Hok _ _ Hv) as Hvle.
      destruct (search_loop txt pat table fuel i v ms)
        as [[r' l']|] eqn:Hrec; [|discriminate Hrun].
      injection Hrun as <- <-.
      assert (Hjv : v < String.length pat) by lia.
      destruct (IH _ _ _ _ _ Hjv Hlen Hok Hrec) as (Hg & Hall & Hn).
      split; [exact Hg|]. split.
      * constructor; [apply Hcmp, Hg|]. constructor; [|exact Hall].
        repeat split; cbn; try lia. exact Hg.
      * cbn [List.length]. lia.
Qed.

(** X12.  The sequence of states of a search is linear in the text: at most
    [4 * n + 2] states for a text of [n] characters, whatever the pattern;
    and every state of it is consistent with the search: it holds the text,
    the pattern and the failure table, indices within the two strings, and
    as matches a first part of the matches that the search returns, the
    last state holding them all. *)
Theorem search_states_are_linear_and_consistent (txt pat : string) :
  exists ms l,
    search txt pat = Some (ms, l)
    /\ List.length l <= 4 * String.length txt + 2
    /\ (forall table, buildLPS pat = Some table ->
                      Forall (state_consistent txt pat table ms) l)
    /\ (l <> [] ->
        option_map matches (last (List.map Some l) None) = Some ms).
Proof.
  unfold search.
  destruct ((String.length pat =? 0) || (String.length txt =? 0)) eqn:He.
  { exists [], []. split; [reflexivity|]. cbn. split; [lia|].
    split; [constructor|]. intros H. contradiction. }
  apply orb_false_iff in He. destruct He as [Hm Hn].
  apply Nat.eqb_neq in Hm, Hn.
  destruct (buildLPS_total pat) as (table & Htable & Hok & Hlen).
  rewrite Htable. rewrite Nat.max_r in Hlen by lia.
  destruct (@search_loop_total txt pat table Hok Hlen
              (2 * String.length txt + 1) 0 0 [])
    as (r & l & Hl); [lia|lia|].
  rewrite Hl.
  assert (Hj0 : 0 < String.length pat) by lia.
  destruct (@search_loop_states txt pat table
              (2 * String.length txt + 1) 0 0 [] r l
              Hj0 Hlen Hok Hl) as (Hg & Hall & Hcount).
  eexists. eexists. split; [reflexivity|]. split; [|split].
  - cbn [List.length]. rewrite length_app. cbn [List.length]. lia.
  - intros t Ht. injection Ht as <-.
    constructor; [repeat split; cbn; try lia; exists r; reflexivity|].
    apply Forall_app. split; [exact Hall|].
    constructor; [|constructor].
    repeat split; cbn; try lia. apply grows_to_refl.
  - intros _. rewrite map_cons, map_app. cbn [List.map].
    rewrite app_comm_cons, last_last. reflexivity.
Qed.

(** ** The states of the construction of the table *)

(** The loop of [generateLPSStates] runs as the loop of [buildLPS] does and
    ends with the same table, which every state holds a first part of. *)
Lemma lps_states_loop_agrees (pat : string) :
  forall fuel lps len i t,
    List.length lps = i ->
    buildLPS_loop fuel pat lps len i = Some t ->
    exists l,
      lps_states_loop pat fuel lps len i = Some (t, l)
      /\ grows_to lps t
      /\ Forall (fun s => ls_pattern s = pat /\ grows_to (ls_lps s) t) l
      /\ List.length l < fuel.
Proof.
  induction fuel as [|fuel IH]; intros lps len i t Hlen Hrun;
    [discriminate Hrun|].
  subst i. cbn [buildLPS_loop] in Hrun. cbn [lps_states_loop].
  assert (Hsnoc : forall v, List.length (lps ++ [v]) = List.length lps + 1)
    by (intros v; rewrite length_app; reflexivity).
  destruct (List.length lps <? String.length pat).
  2:{ injection Hrun as <-. exists []. split; [reflexivity|].
      split; [apply grows_to_refl|]. split; [constructor|cbn; lia]. }
  destruct (char_eqb _ _).
  - rewrite array_set_end in *.
    destruct (IH _ _ _ _ (Hsnoc (len + 1)) Hrun)
      as (l & Hl & Hg & Hall & Hn).
    rewrite Hl. eexists. split; [reflexivity|].
    split; [eapply grows_to_trans; [apply grows_to_snoc|exact Hg]|].
    split; [constructor; [split; [reflexivity|exact Hg]|exact Hall]|].
    cbn [List.length]. lia.
  - destruct (negb (len =? 0)).
    + destruct (nth_error lps (len - 1)) as [v|]; [|discriminate Hrun].
      destruct (IH _ _ _ _ eq_refl Hrun) as (l & Hl & Hg & Hall & Hn).
      rewrite Hl. eexists. split; [reflexivity|]. split; [exact Hg|].
      split; [constructor; [split; [reflexivity|exact Hg]|exact Hall]|].
      cbn [List.length]. lia.
    + rewrite array_set_end in *.
      destruct (IH _ _ _ _ (Hsnoc 0) Hrun) as (l & Hl & Hg & Hall & Hn).
      rewrite Hl. eexists. split; [reflexivity|].
      split; [eapply grows_to_trans; [apply grows_to_snoc|exact Hg]|].
      split; [constructor; [split; [reflexivity|exact Hg]|exact Hall]|].
      cbn [List.length]. lia.
Qed.

(** X13.  For every pattern [generateLPSStates()] returns a sequence that
    opens with the starting state and closes with a completed state holding
    the very table that [buildLPS] returns; every state in between holds
    the pattern and a first part of that table, and there are at most
    [2 * m] of them for a pattern of [m] characters. *)
Theorem generateLPSStates_ends_with_the_table (pat : string) :
  exists t mid,
    buildLPS pat = Some t
    /\ generateLPSStates pat
       = Some (lps_state_start pat :: mid ++ [lps_state_complete pat t])%list
    /\ Forall (fun s => ls_pattern s = pat /\ grows_to (ls_lps s) t) mid
    /\ List.length mid <= 2 * String.length pat.
Proof.
  destruct (buildLPS_total pat) as (t & Ht & _).
  pose proof Ht as Hrun. unfold buildLPS in Hrun.
  destruct (@lps_states_loop_agrees pat _ [0] 0 1 t eq_refl Hrun)
    as (l & Hl & _ & Hall & Hn).
  exists t, l. split; [exact Ht|].
  unfold generateLPSStates. rewrite Hl.
  split; [reflexivity|]. split; [exact Hall|]. lia.
Qed.

Lemma search_finds_exactly_the_occurrences_witness :
  exists ms l,
    search "AAAA" "AA" = Some (ms, l) /\ In 1 ms /\ StronglySorted lt ms.
Proof.
  destruct (@search_finds_exactly_the_occurrences "AAAA" "AA")
    as (ms & l & Hs & Hocc & Hsorted); [cbn; discriminate|].
  exists ms, l. split; [exact Hs|]. split; [|exact Hsorted].
  apply Hocc. split; [cbn; lia|].
  intros [|[|q]] Hq; cbn in Hq; try reflexivity. lia.
Defined.

End KMPFacts.

(** * Properties of the numbers *)

Module JsNumFacts.
Import JsNum.

Lemma min_with_integer (a k : Z) :
  min_with (inject_Z a) (JFin (inject_Z k)) = JFin (inject_Z (Z.min a k)).
Proof.
  cbn [min_with]. f_equal.
  unfold Qmin, GenericMinMax.gmin, Qcompare, inject_Z. cbn [Qnum Qden].
  rewrite !Z.mul_1_r. unfold Z.min. destruct (a ?= k)%Z; reflexivity.
Qed.

Lemma max_with_integer (a k : Z) :
  max_with (inject_Z a) (JFin (inject_Z k)) = JFin (inject_Z (Z.max a k)).
Proof.
  cbn [max_with]. f_equal.
  unfold Qmax, GenericMinMax.gmax, Qcompare, inject_Z. cbn [Qnum Qden].
  rewrite !Z.mul_1_r. unfold Z.max. destruct (a ?= k)%Z; reflexivity.
Qed.

Lemma min_with_not_above (a : Q) (x : jsnum) :
  x <> JNaN ->
  match min_with a x with
  | JFin q => (q <= a)%Q
  | JNegInf => True
  | _ => False
  end.
Proof.
  destruct x as [q| | |]; cbn [min_with]; intros H;
    [apply Q.le_min_l|apply Qle_refl|exact I|contradiction].
Qed.

(** [Math.max(lo, Math.min(hi, x))] is a number of [lo, hi], unless [x] is
    NaN. *)
Lemma clamp_in_range (lo hi : Q) (x : jsnum) :
  (lo <= hi)%Q -> x <> JNaN ->
  in_range lo hi (max_with lo (min_with hi x)).
Proof.
  intros Hle Hx. pose proof (@min_with_not_above hi x Hx) as Hmin.
  destruct (min_with hi x) as [q| | |];
    cbn [max_with in_range]; try contradiction.
  - split; [apply Q.le_max_l|]. apply Q.max_lub; assumption.
  - split; [apply Qle_refl|exact Hle].
Qed.

(** [Array(n)] accepts a small natural number. *)
Lemma array_length_natural (n : nat) :
  (n <= 12)%nat -> array_length (JFin (inject_Z (Z.of_nat n))) = Some n.
Proof.
  intros Hn. unfold array_length, inject_Z. cbn [Qnum Qden].
  rewrite Z.div_1_r.
  assert (Heq : Qeq_bool (Z.of_nat n # 1) (Z.of_nat n # 1) = true)
    by (apply Qeq_bool_iff; reflexivity).
  rewrite Heq.
  rewrite (proj2 (Z.leb_le 0 (Z.of_nat n))) by lia.
  assert (Hlt : (Z.of_nat n <? 2 ^ 32)%Z = true).
  { apply Z.ltb_lt. change (2 ^ 32)%Z with 4294967296%Z. lia. }
  rewrite Hlt. cbn [andb]. rewrite Nat2Z.id. reflexivity.
Qed.

End JsNumFacts.

(** * Properties of the Tower of Hanoi producer *)

Module HanoiFacts.
Import Hanoi JsNumFacts.
Local Open Scope nat_scope.

Lemma recordMoves_length (n : nat) :
  forall a b c, List.length (recordMoves n a b c) = 2 ^ n - 1.
Proof.
  induction n as [|n IH]; intros a b c; [reflexivity|].
  cbn [recordMoves]. rewrite length_app. cbn [List.length].
  rewrite !IH. rewrite Nat.pow_succ_r'.
  pose proof (Nat.pow_nonzero 2 n). lia.
Qed.

Lemma recordMoves_on_pegs (k n : nat) :
  forall a b c, a < k -> b < k -> c < k ->
                Forall (on_pegs k) (recordMoves n a b c).
Proof.
  induction n as [|n IH]; intros a b c Ha Hb Hc; [constructor|].
  cbn [recordMoves]. apply Forall_app. split; [apply IH; assumption|].
  constructor; [split; assumption|apply IH; assumption].
Qed.

Lemma replace_peg_length (ps : list peg) :
  forall i p, List.length (replace_peg ps i p) = List.length ps.
Proof.
  induction ps as [|q ps IH]; intros [|i] p; cbn; auto.
Qed.

Lemma apply_move_total (ps : list peg) (mv : move) :
  on_pegs (List.length ps) mv ->
  exists ps', apply_move ps mv = Some ps'
              /\ List.length ps' = List.length ps.
Proof.
  intros [Hf Ht]. unfold apply_move.
  destruct (nth_error ps (from mv)) as [pf|] eqn:Hpf;
    [|apply nth_error_None in Hpf; lia].
  destruct (nth_error (replace_peg ps (from mv) (removelast pf)) (to mv))
    as [pt|] eqn:Hpt.
  - eexists. split; [reflexivity|]. rewrite !replace_peg_length. reflexivity.
  - apply nth_error_None in Hpt. rewrite replace_peg_length in Hpt. lia.
Qed.

Lemma play_moves_total (moves : list move) :
  forall ps index,
    Forall (on_pegs (List.length ps)) moves ->
    exists l, play_moves ps moves index = Some l
              /\ List.length l = List.length moves.
Proof.
  induction moves as [|mv moves IH]; intros ps index Hall.
  - exists []. split; reflexivity.
  - inversion Hall as [|? ? Hmv Hrest]; subst.
    destruct (@apply_move_total ps mv Hmv) as (ps' & Hps' & Hlen).
    cbn [play_moves]. rewrite Hps'.
    rewrite <- Hlen in Hrest.
    destruct (IH ps' (index + 1) Hrest) as (l & Hplay & Hl). rewrite Hplay.
    eexists. split; [reflexivity|]. cbn [List.length]. rewrite Hl. reflexivity.
Qed.

(** For every number of disks, [generateStates()] returns the initial state
    followed by one state per move: [2 ^ numDisks] states, one more than
    [getMinMoves()]. *)
Lemma hanoi_generateStates_total (numDisks : nat) :
  exists l,
    generateStates numDisks
    = Some (state_initial (initial_pegs numDisks) :: l)
    /\ List.length l = getMinMoves numDisks.
Proof.
  unfold generateStates, getMinMoves.
  destruct (@play_moves_total (recordMoves numDisks 0 2 1)
              (initial_pegs numDisks) 0) as (l & -> & Hl).
  - apply recordMoves_on_pegs; cbn; lia.
  - exists l. split; [reflexivity|]. rewrite Hl. apply recordMoves_length.
Qed.

(** C8.  With three disks [generateStates()] returns exactly 8 states, the
    initial one and one for each of the [getMinMoves() = 2^3 - 1 = 7] moves;
    the last one describes the move of disk 1 from peg 1 onto peg 3, the
    target, and holds every disk on that peg. *)
Theorem three_disks_give_eight_states :
  exists l,
    generateStates 3 = Some l
    /\ List.length l = 8
    /\ 8 = 1 + getMinMoves 3
    /\ option_map description (last (List.map Some l) None)
       = Some "Move disk 1 from Peg 1 to Peg 3"%string
    /\ option_map movingDisk (last (List.map Some l) None) = Some (Some 1)
    /\ option_map toPeg (last (List.map Some l) None) = Some (Some 2)
    /\ option_map pegs (last (List.map Some l) None)
       = Some [[]; []; [Some 3; Some 2; Some 1]].
Proof.
  eexists. split; [vm_compute; reflexivity|]. vm_compute. repeat split.
Qed.

(** ** Pegs *)

Lemma nth_replace_peg_same (ps : list peg) :
  forall i p, i < List.length ps -> nth i (replace_peg ps i p) [] = p.
Proof.
  induction ps as [|q ps IH]; intros [|i] p Hi; cbn in *; try lia;
    [reflexivity|]. apply IH. lia.
Qed.

Lemma nth_replace_peg_other (ps : list peg) :
  forall i j p, i <> j -> nth j (replace_peg ps i p) [] = nth j ps [].
Proof.
  induction ps as [|q ps IH]; intros [|i] [|j] p Hij; cbn; try reflexivity;
    try lia. apply IH. lia.
Qed.

Lemma nth_error_nth_peg (ps : list peg) (i : nat) :
  i < List.length ps -> nth_error ps i = Some (nth i ps []).
Proof. intros Hi. apply nth_error_nth'. exact Hi. Qed.

Lemma holds_legal (ps : list peg) (a b c : nat) (pa pb pc : peg) :
  three_pegs a b c -> holds ps a b c pa pb pc ->
  descending pa -> descending pb -> descending pc -> legal ps.
Proof.
  intros (Ha & Hb & Hc & Hab & Hbc & Hac) (Hlen & <- & <- & <-) Da Db Dc.
  split; [exact Hlen|].
  destruct ps as [|x [|y [|z [|w ps]]]]; try discriminate Hlen.
  assert (Hcases : forall i, i < 3 -> i = a \/ i = b \/ i = c) by lia.
  repeat constructor.
  - destruct (Hcases 0) as [<- | [<- | <-]]; [lia|assumption..].
  - destruct (Hcases 1) as [<- | [<- | <-]]; [lia|assumption..].
  - destruct (Hcases 2) as [<- | [<- | <-]]; [lia|assumption..].
Qed.

(** The move of the top disk of peg [a] onto peg [b]. *)
Lemma apply_move_top (ps : list peg) (a b c n : nat) (d : option nat)
    (pa pb pc : peg) :
  three_pegs a b c -> holds ps a b c (pa ++ [d]) pb pc ->
  exists ps',
    apply_move ps {| disk := n; from := a; to := b |} = Some ps'
    /\ holds ps' a b c pa (pb ++ [d]) pc.
Proof.
  intros (Ha & Hb & Hc & Hab & Hbc & Hac) (Hlen & Hpa & Hpb & Hpc).
  unfold apply_move. cbn [from to].
  rewrite (@nth_error_nth_peg ps a) by lia. rewrite Hpa.
  rewrite removelast_last, last_last.
  rewrite nth_error_nth_peg by (rewrite replace_peg_length; lia).
  rewrite nth_replace_peg_other by exact Hab. rewrite Hpb.
  eexists. split; [reflexivity|].
  split; [rewrite !replace_peg_length; exact Hlen|].
  split; [|split].
  - rewrite nth_replace_peg_other by lia.
    apply nth_replace_peg_same. lia.
  - apply nth_replace_peg_same. rewrite replace_peg_length. lia.
  - rewrite !nth_replace_peg_other by lia. exact Hpc.
Qed.

(** ** Towers *)

Lemma full_peg_succ (n : nat) : full_peg (S n) = Some (S n) :: full_peg n.
Proof.
  unfold full_peg. cbn [seq List.map]. rewrite Nat.sub_0_r.
  rewrite <- seq_shift, map_map. reflexivity.
Qed.

Lemma full_peg_small (n : nat) :
  Forall (fun d => exists x, d = Some x /\ x <= n) (full_peg n).
Proof.
  induction n as [|n IH]; [constructor|].
  rewrite full_peg_succ. constructor; [eauto|].
  eapply Forall_impl; [|exact IH]. intros d (x & -> & Hx). eauto.
Qed.

Lemma full_peg_descending (n : nat) : descending (full_peg n).
Proof.
  induction n as [|n IH]; [constructor|].
  rewrite full_peg_succ. constructor; [exact IH|].
  eapply Forall_impl; [|apply full_peg_small].
  intros d (x & -> & Hx). cbn. lia.
Qed.

Lemma descending_app (p q : peg) :
  descending p -> descending q ->
  (forall x y, In x p -> In y q -> above x y) -> descending (p ++ q).
Proof.
  unfold descending. induction 1 as [|x p Hp IH Hx]; intros Hq Hpq;
    [exact Hq|].
  cbn. constructor.
  - apply IH; [exact Hq|]. intros u v Hu Hv. apply Hpq; [right|]; assumption.
  - apply Forall_app. split; [exact Hx|].
    apply Forall_forall. intros y Hy. apply Hpq; [left; reflexivity|exact Hy].
Qed.

Lemma big_above_tower (n : nat) (p : peg) :
  big n p -> forall x y, In x p -> In y (full_peg n) -> above x y.
Proof.
  intros Hp x y Hx Hy.
  pose proof (proj1 (Forall_forall _ _) Hp x Hx) as Hbig.
  pose proof (proj1 (Forall_forall _ _) (full_peg_small n) y Hy)
    as (v & -> & Hv).
  destruct x as [u|]; [|contradiction]. cbn. lia.
Qed.

Lemma descending_on_tower (n : nat) (p : peg) :
  descending p -> big n p -> descending (p ++ full_peg n).
Proof.
  intros Hd Hb. apply descending_app; [exact Hd|apply full_peg_descending|].
  apply big_above_tower, Hb.
Qed.

Lemma descending_snoc (n : nat) (p : peg) :
  descending p -> big n p -> descending (p ++ [Some n]).
Proof.
  intros Hd Hb. apply descending_app; [exact Hd|repeat constructor|].
  intros x y Hx [<- | []].
  pose proof (proj1 (Forall_forall _ _) Hb x Hx) as Hbig.
  destruct x as [u|]; [|contradiction]. cbn. lia.
Qed.

Lemma big_weaken (n : nat) (p : peg) : big (S n) p -> big n p.
Proof.
  unfold big. apply Forall_impl. intros [x|]; [lia|auto].
Qed.

Lemma big_snoc (n : nat) (p : peg) : big (S n) p -> big n (p ++ [Some (S n)]).
Proof.
  intros H. apply Forall_app. split; [apply big_weaken, H|].
  constructor; [lia|constructor].
Qed.

(** ** Runs of moves *)

Lemma last_cons_any (A : Type) (l : list A) :
  forall a d : A, last (a :: l) d = last l a.
Proof.
  induction l as [|b l IH]; intros a d; [reflexivity|].
  change (last (a :: b :: l) d) with (last (b :: l) d).
  rewrite (IH b d), (IH b a). reflexivity.
Qed.

Lemma last_app_cons (A : Type) (l l' : list A) (a d : A) :
  last (l ++ a :: l') d = last l' a.
Proof.
  revert d. induction l as [|b l IH]; intros d; cbn [app].
  - apply last_cons_any.
  - rewrite last_cons_any. apply IH.
Qed.

Lemma play_moves_app (m1 m2 : list move) :
  forall ps index,
    play_moves ps (m1 ++ m2) index
    = match play_moves ps m1 index with
      | Some l1 =>
          match play_moves (last (List.map pegs l1) ps) m2
                  (index + List.length m1) with
          | Some l2 => Some (l1 ++ l2)
          | None => None
          end
      | None => None
      end.
Proof.
  induction m1 as [|mv m1 IH]; intros ps index.
  - cbn. rewrite Nat.add_0_r. destruct (play_moves ps m2 index); reflexivity.
  - cbn [app play_moves]. destruct (apply_move ps mv) as [ps'|]; [|reflexivity].
    rewrite IH. destruct (play_moves ps' m1 (index + 1)) as [l1|];
      [|reflexivity].
    cbn [List.map]. rewrite last_cons_any. cbn [pegs state_move List.length].
    replace (index + 1 + List.length m1) with (index + S (List.length m1))
      by lia.
    destruct (play_moves _ m2 _); reflexivity.
Qed.

Lemma holds_swap (ps : list peg) (a b c : nat) (pa pb pc : peg) :
  holds ps a b c pa pb pc -> holds ps a c b pa pc pb.
Proof. intros (H & Ha & Hb & Hc). repeat split; assumption. Qed.

Lemma holds_rotate (ps : list peg) (a b c : nat) (pa pb pc : peg) :
  holds ps a b c pa pb pc -> holds ps c b a pc pb pa.
Proof. intros (H & Ha & Hb & Hc). repeat split; assumption. Qed.

(** The moves for [n] disks bring the [n] top disks of peg [a] onto peg [b]
    and leave the rest as it was, through legal positions only, provided
    every other disk is larger. *)
Lemma recordMoves_run (n : nat) :
  forall a b c pa pb pc ps index,
    three_pegs a b c ->
    holds ps a b c (pa ++ full_peg n) pb pc ->
    descending pa -> descending pb -> descending pc ->
    big n pa -> big n pb -> big n pc ->
    exists l,
      play_moves ps (recordMoves n a b c) index = Some l
      /\ holds (last (List.map pegs l) ps) a b c pa (pb ++ full_peg n) pc
      /\ Forall (fun s => legal (pegs s) /\ shows_its_disk s) l.
Proof.
  induction n as [|n IH];
    intros a b c pa pb pc ps index Hpegs Hholds Da Db Dc Ba Bb Bc.
  - exists []. split; [reflexivity|]. split; [|constructor].
    cbn [List.map last]. change (full_peg 0) with (@nil (option nat)) in *.
    rewrite app_nil_r in *. exact Hholds.
  - assert (Hacb : three_pegs a c b)
      by (unfold three_pegs in *; intuition auto).
    assert (Hcba : three_pegs c b a)
      by (unfold three_pegs in *; intuition auto).
    rewrite full_peg_succ in Hholds.
    replace (pa ++ Some (S n) :: full_peg n)
      with ((pa ++ [Some (S n)]) ++ full_peg n) in Hholds
      by (rewrite <- app_assoc; reflexivity).
    destruct (IH a c b (pa ++ [Some (S n)]) pc pb ps index Hacb
                (holds_swap Hholds))
      as (l1 & Hl1 & Hh1 & Hall1);
      [apply descending_snoc; assumption|assumption|assumption
      |apply big_snoc; assumption|apply big_weaken; assumption
      |apply big_weaken; assumption|].
    set (ps1 := last (List.map pegs l1) ps) in *.
    destruct (@apply_move_top ps1 a b c (S n) (Some (S n)) pa pb
                (pc ++ full_peg n) Hpegs (holds_swap Hh1))
      as (ps2 & Hmove & Hh2).
    destruct (IH c b a pc (pb ++ [Some (S n)]) pa ps2
                (index + List.length (recordMoves n a c b) + 1) Hcba
                (holds_rotate Hh2))
      as (l2 & Hl2 & Hh3 & Hall2);
      [assumption|apply descending_snoc; assumption|assumption
      |apply big_weaken; assumption|apply big_snoc; assumption
      |apply big_weaken; assumption|].
    cbn [recordMoves]. rewrite play_moves_app, Hl1. fold ps1.
    cbn [play_moves]. rewrite Hmove, Hl2.
    eexists. split; [reflexivity|]. split; [|].
    + rewrite map_app. cbn [List.map]. rewrite last_app_cons.
      cbn [pegs state_move].
      apply holds_rotate in Hh3.
      rewrite <- app_assoc in Hh3. cbn [app] in Hh3.
      rewrite full_peg_succ. exact Hh3.
    + apply Forall_app. split; [exact Hall1|].
      constructor; [|exact Hall2]. split.
      * cbn [pegs state_move].
        eapply holds_legal; [exact Hpegs|exact Hh2|assumption| |].
        -- apply descending_snoc; assumption.
        -- apply descending_on_tower; [assumption|apply big_weaken; assumption].
      * unfold shows_its_disk. cbn [last_move state_move pegs to disk].
        destruct Hh2 as (_ & _ & -> & _). apply last_last.
Qed.

(** X14.  For every number of disks the states of [generateStates()] solve
    the puzzle by the rules: every state has three pegs on which each disk
    is smaller than all the disks under it, the state of a move shows the
    disk that the move names on top of the peg the move goes to (no move
    takes from an empty peg), and the last state has every disk on the third
    peg, largest at the bottom. *)
Theorem generateStates_solves_the_puzzle (numDisks : nat) :
  exists l,
    generateStates numDisks
    = Some (state_initial (initial_pegs numDisks) :: l)
    /\ Forall (fun s => legal (pegs s) /\ shows_its_disk s)
         (state_initial (initial_pegs numDisks) :: l)
    /\ last (List.map pegs l) (initial_pegs numDisks)
       = [[]; []; full_peg numDisks].
Proof.
  assert (Hpegs : three_pegs 0 2 1) by (unfold three_pegs; lia).
  assert (Hholds : holds (initial_pegs numDisks) 0 2 1
                     ([] ++ full_peg numDisks) [] [])
    by (repeat split).
  destruct (@recordMoves_run numDisks 0 2 1 [] [] []
              (initial_pegs numDisks) 0 Hpegs Hholds)
    as (l & Hl & Hh & Hall); try constructor.
  exists l. unfold generateStates. rewrite Hl.
  split; [reflexivity|]. split.
  - constructor; [|exact Hall]. split; [|exact I].
    cbn [pegs state_initial]. split; [reflexivity|].
    repeat constructor. apply full_peg_descending.
  - destruct Hh as (Hlen & H0 & H2 & H1).
    destruct (last (List.map pegs l) (initial_pegs numDisks))
      as [|x [|y [|z [|w ps]]]]; try discriminate Hlen.
    cbn in H0, H1, H2. subst. reflexivity.
Qed.

Lemma play_moves_numbers (moves : list move) :
  forall ps index l,
    play_moves ps moves index = Some l ->
    forall k s, nth_error l k = Some s -> moveNumber s = index + k + 1.
Proof.
  induction moves as [|mv moves IH]; intros ps index l Hrun k s Hk.
  - injection Hrun as <-. destruct k; discriminate Hk.
  - cbn [play_moves] in Hrun.
    destruct (apply_move ps mv) as [ps'|]; [|discriminate Hrun].
    destruct (play_moves ps' moves (index + 1)) as [l'|] eqn:Hl';
      [|discriminate Hrun].
    injection Hrun as <-. destruct k as [|k]; cbn in Hk.
    + injection Hk as <-. cbn. lia.
    + rewrite (IH _ _ _ Hl' _ _ Hk). lia.
Qed.

Lemma generateStates_length (numDisks : nat) :
  exists l,
    generateStates numDisks = Some l
    /\ List.length l = 2 ^ numDisks
    /\ List.length l = 1 + getMinMoves numDisks
    /\ forall k s, nth_error l k = Some s -> moveNumber s = k.
Proof.
  destruct (hanoi_generateStates_total numDisks) as (l & Hl & Hlen).
  eexists. split; [exact Hl|].
  pose proof (Nat.pow_nonzero 2 numDisks) as Hpos.
  unfold getMinMoves in *. cbn [List.length]. rewrite Hlen.
  split; [lia|]. split; [reflexivity|].
  intros [|k] s Hk; cbn in Hk; [injection Hk as <-; reflexivity|].
  unfold generateStates in Hl.
  destruct (play_moves _ _ 0) as [l'|] eqn:Hrun; [|discriminate Hl].
  injection Hl as <-.
  rewrite (play_moves_numbers _ _ _ Hrun _ Hk). lia.
Qed.

(** X15.  For every natural number of disks [generateStates()] returns
    exactly [2 ^ numDisks] states, the initial one and one per move of
    [getMinMoves()], each numbered with its position in the sequence. *)
Theorem generateStates_count (numDisks : nat) :
  exists l,
    generateStates numDisks = Some l
    /\ List.length l = 2 ^ numDisks
    /\ List.length l = 1 + getMinMoves numDisks
    /\ forall k s, nth_error l k = Some s -> moveNumber s = k.
Proof. exact (generateStates_length numDisks). Qed.

(** ** The number of disks that [setNumDisks] stores *)

(** X29.  [setNumDisks] on any number.  A number that is not NaN is
    clamped into [1, 8]; an integer is stored as the integer clamped to
    1..8, a natural number of disks for which [generateStates()] then
    returns between 2 and 256 states.  NaN is stored as NaN: it is not
    clamped. *)
Theorem setNumDisks_stores :
  (forall x, x <> JsNum.JNaN -> JsNum.in_range 1 8 (setNumDisks x))
  /\ setNumDisks JsNum.JNaN = JsNum.JNaN
  /\ (forall k : Z,
        exists n,
          setNumDisks (JsNum.JFin (inject_Z k))
          = JsNum.JFin (inject_Z (Z.of_nat n))
          /\ Z.of_nat n = Z.max 1 (Z.min 8 k)
          /\ exists l,
               generateStates n = Some l /\ 2 <= List.length l <= 256).
Proof.
  split; [|split].
  - intros x Hx. unfold setNumDisks. apply clamp_in_range; [discriminate|].
    exact Hx.
  - reflexivity.
  - intros k. exists (Z.to_nat (Z.max 1 (Z.min 8 k))).
    assert (Hn : Z.of_nat (Z.to_nat (Z.max 1 (Z.min 8 k)))
                 = Z.max 1 (Z.min 8 k)) by lia.
    split; [|split; [exact Hn|]].
    + unfold setNumDisks. change 8%Q with (inject_Z 8).
      change 1%Q with (inject_Z 1).
      rewrite min_with_integer, max_with_integer, Hn. reflexivity.
    + destruct (generateStates_length (Z.to_nat (Z.max 1 (Z.min 8 k))))
        as (l & Hl & Hlen & _).
      exists l. split; [exact Hl|]. rewrite Hlen.
      assert (Hr : 1 <= Z.to_nat (Z.max 1 (Z.min 8 k)) <= 8) by lia.
      destruct Hr as [Hlo Hhi]. split.
      * change 2 with (2 ^ 1) at 1.
        apply Nat.pow_le_mono_r; [lia|exact Hlo].
      * change 256 with (2 ^ 8). apply Nat.pow_le_mono_r; [lia|exact Hhi].
Qed.

Lemma setNumDisks_stores_witness :
  JsNum.in_range 1 8 (setNumDisks (JsNum.JFin (5 # 2)))
  /\ setNumDisks (JsNum.JFin (inject_Z (-3))) = JsNum.JFin (inject_Z 1)
  /\ setNumDisks (JsNum.JFin (inject_Z 20)) = JsNum.JFin (inject_Z 8).
Proof.
  destruct setNumDisks_stores as (Hrange & _ & Hint).
  split; [apply Hrange; discriminate|]. split.
  - destruct (Hint (-3)%Z) as (n & -> & Hn & _). rewrite Hn. reflexivity.
  - destruct (Hint 20%Z) as (n & -> & Hn & _). rewrite Hn. reflexivity.
Defined.

(** ** The recorded moves of [solve()] *)

(** Every recorded move has a [pegsState]: [simulateMove] skips them all. *)
Lemma apply_unrecorded_skips (ps : list peg) (moves : list recorded) :
  Forall (fun r => pegsState r <> None) moves ->
  apply_unrecorded ps moves = Some ps.
Proof.
  induction 1 as [|r moves Hr _ IH]; [reflexivity|].
  cbn [apply_unrecorded]. destruct (pegsState r); [exact IH|contradiction].
Qed.

Lemma simulateMove_first_position (numDisks : nat) (moves : list recorded)
    (n a b : nat) :
  Forall (first_position_state numDisks) moves -> a < 3 -> b < 3 ->
  exists st,
    simulateMove numDisks moves a b = Some st
    /\ first_position_state numDisks
         {| r_move := {| disk := n; from := a; to := b |};
            pegsState := Some st |}.
Proof.
  intros Hall Ha Hb. unfold simulateMove.
  rewrite apply_unrecorded_skips
    by (eapply Forall_impl; [|exact Hall]; intros r [H _]; exact H).
  destruct (@apply_move_total (initial_pegs numDisks)
              {| disk := 0; from := a; to := b |}) as (st & Hst & _);
    [split; cbn; assumption|].
  exists st. split; [exact Hst|]. split; [discriminate|].
  cbn [pegsState r_move]. rewrite <- Hst. reflexivity.
Qed.

Lemma hanoi_records (numDisks n : nat) :
  forall a b c moves,
    a < 3 -> b < 3 -> c < 3 ->
    Forall (first_position_state numDisks) moves ->
    exists added,
      hanoi numDisks n a b c moves = Some (moves ++ added)
      /\ List.map r_move added = recordMoves n a b c
      /\ Forall (first_position_state numDisks) added.
Proof.
  induction n as [|n IH]; intros a b c moves Ha Hb Hc Hall.
  - exists []. rewrite app_nil_r. repeat split. constructor.
  - cbn [hanoi].
    destruct (IH a c b moves Ha Hc Hb Hall) as (m1 & -> & Hm1 & Hall1).
    assert (Hall' : Forall (first_position_state numDisks) (moves ++ m1))
      by (apply Forall_app; split; assumption).
    destruct (@simulateMove_first_position numDisks (moves ++ m1) (S n) a b
                Hall' Ha Hb) as (st & -> & Hst).
    set (r := {| r_move := _; pegsState := Some st |}) in *.
    destruct (IH c b a ((moves ++ m1) ++ [r]) Hc Hb Ha)
      as (m2 & -> & Hm2 & Hall2).
    { apply Forall_app. split; [exact Hall'|]. constructor; [exact Hst|].
      constructor. }
    exists (m1 ++ r :: m2). split; [|split].
    + rewrite <- !app_assoc. reflexivity.
    + cbn [recordMoves]. rewrite map_app. cbn [List.map].
      rewrite Hm1, Hm2. reflexivity.
    + apply Forall_app. split; [exact Hall1|]. constructor; assumption.
Qed.

(** X16.  [solve()] records the same moves, in the same order, as
    [generateStates()] plays; but the [pegsState] it stores with a move is
    not the position of the puzzle after that move: [simulateMove] skips
    every move recorded before, so each [pegsState] is the first position
    with that one move applied to it. *)
Theorem solve_records_first_position_states (numDisks : nat) :
  exists moves,
    solve numDisks = Some moves
    /\ List.map r_move moves = recordMoves numDisks 0 2 1
    /\ Forall (first_position_state numDisks) moves.
Proof.
  unfold solve.
  destruct (@hanoi_records numDisks numDisks 0 2 1 [])
    as (added & Hrun & Hmoves & Hall); try lia; [constructor|].
  exists added. repeat split; assumption.
Qed.

(** With two disks: the second state has disk 1 where disk 2 should be,
    and the third has an undefined disk. *)
Example solve_two_disks :
  option_map (List.map pegsState) (solve 2)
  = Some [Some [[Some 2]; [Some 1]; []];
          Some [[Some 2]; []; [Some 1]];
          Some [[Some 2; Some 1]; []; [None]]]
  /\ option_map (List.map pegs) (generateStates 2)
     = Some [[[Some 2; Some 1]; []; []];
             [[Some 2]; [Some 1]; []];
             [[]; [Some 1]; [Some 2]];
             [[]; []; [Some 2; Some 1]]].
Proof. split; reflexivity. Qed.

End HanoiFacts.

(** * Properties of the N-Queens producer *)

Module NQueensFacts.
Import NQueens JsNumFacts.
Local Open Scope nat_scope.

(** With fuel above the number of rows still to fill, [solve] returns. *)
Lemma solve_total (n : nat) (findFirst : bool) :
  forall fuel row b found,
    n - row < fuel ->
    exists out, solve n findFirst fuel row b found = Some out.
Proof.
  induction fuel as [|fuel IH]; intros row b found Hfuel; [lia|].
  cbn [solve].
  destruct (n <=? row) eqn:Hrow; [eauto|].
  apply Nat.leb_gt in Hrow.
  generalize (seq 0 n) as cols. intros cols. revert b found.
  induction cols as [|col cols IHc]; intros b found; [eauto|].
  destruct (find_conflicts b row col) as [|q qs].
  - destruct (IH (row + 1) (set_row b row (Z.of_nat col)) found)
      as ([[[r b2] found2] l] & ->); [lia|].
    destruct r; [eauto|].
    destruct (IHc (set_row b2 row (-1)) found2)
      as ([[[r' b4] found4] l'] & ->).
    eauto.
  - destruct (IHc b found) as ([[[r' b'] found'] l'] & ->). eauto.
Qed.

(** For every board size, [generateStates] returns a sequence that opens with
    the starting state. *)
Lemma queens_generateStates_total (n : nat) (findFirst : bool) :
  exists l, generateStates n findFirst = Some (state_start n :: l).
Proof.
  unfold generateStates.
  destruct (@solve_total n findFirst (n + 1) 0 (repeat (-1)%Z n) 0)
    as ([[[r b] found] l] & ->); [lia|].
  eauto.
Qed.

(** C9.  For N = 4, [generateStates(true)] returns a sequence with exactly
    one solution state, its last state, which reports solution 1 with the
    queens in columns 2, 4, 1, 3; every state before it reports 0 solutions
    found.  [generateStates(false)] records both solutions of N = 4. *)
Theorem four_queens_first_solution_only :
  exists l,
    generateStates 4 true = Some l
    /\ List.length (filter isSolution l) = 1
    /\ List.map solutionsFound (filter isSolution l) = [1]
    /\ option_map solutionsFound (last (List.map Some l) None) = Some 1
    /\ option_map isSolution (last (List.map Some l) None) = Some true
    /\ option_map queens (last (List.map Some l) None)
       = Some [(0, 1%Z); (1, 3%Z); (2, 0%Z); (3, 2%Z)]
    /\ forallb (fun s => solutionsFound s =? 0) (removelast l) = true
    /\ option_map
         (fun l' => List.map solutionsFound (filter isSolution l'))
         (generateStates 4 false)
       = Some [1; 2].
Proof.
  eexists. split; [vm_compute; reflexivity|]. vm_compute. repeat split.
Qed.

(** ** Induction over the search *)

Section SolveInduction.

Variables (n : nat) (findFirst : bool).

(** [P] is to hold of every call of [solve]: of its row, the board and the
    counter it starts from, and its outcome; [C] of its loop over the
    columns, from every column on. *)
Variable P : nat -> list Z -> nat -> outcome -> Prop.
Variable C : nat -> list nat -> list Z -> nat -> outcome -> Prop.

Hypothesis P_solution :
  forall row b found,
    n <= row ->
    P row b found (findFirst, b, found + 1, [state_solution n b (found + 1)]).

Hypothesis P_columns :
  forall row b found out,
    row < n -> C row (seq 0 n) b found out -> P row b found out.

Hypothesis C_done :
  forall row b found, C row [] b found (false, b, found, []).

Hypothesis C_conflict :
  forall row col rest b found r b' found' l',
    find_conflicts b row col <> [] ->
    C row rest b found (r, b', found', l') ->
    C row (col :: rest) b found
      (r, b', found', state_check n b row col found false :: l').

Hypothesis C_found :
  forall row col rest b found b2 found2 l,
    find_conflicts b row col = [] ->
    P (row + 1) (set_row b row (Z.of_nat col)) found (true, b2, found2, l) ->
    C row (col :: rest) b found
      (true, b2, found2,
       state_check n b row col found true
       :: state_placed n b row col found :: l).

Hypothesis C_backtrack :
  forall row col rest b found b2 found2 l r b4 found4 l',
    find_conflicts b row col = [] ->
    P (row + 1) (set_row b row (Z.of_nat col)) found (false, b2, found2, l) ->
    C row rest (set_row b2 row (-1)) found2 (r, b4, found4, l') ->
    C row (col :: rest) b found
      (r, b4, found4,
       state_check n b row col found false
       :: state_placed n b row col found
       :: l ++ state_backtrack n b (set_row b2 row (-1)) row col found2
       :: l').

Lemma solve_induction :
  forall fuel row b found out,
    solve n findFirst fuel row b found = Some out -> P row b found out.
Proof.
  induction fuel as [|fuel IH]; intros row b found out Hrun;
    [discriminate Hrun|].
  cbn [solve] in Hrun.
  destruct (n <=? row) eqn:Hrow.
  { injection Hrun as <-. apply P_solution. apply Nat.leb_le, Hrow. }
  apply Nat.leb_gt in Hrow. apply P_columns; [exact Hrow|].
  revert b found out Hrun. generalize (seq 0 n) as cols.
  induction cols as [|col cols IHc]; intros b found out Hrun.
  - injection Hrun as <-. apply C_done.
  - destruct (find_conflicts b row col) as [|q qs] eqn:Hcf.
    + destruct (solve n findFirst fuel (row + 1) _ found)
        as [[[[r b2] found2] l]|] eqn:Hrec; [|discriminate Hrun].
      apply IH in Hrec. destruct r.
      * injection Hrun as <-. apply C_found; assumption.
      * match type of Hrun with
        | match ?loop with _ => _ end = _ =>
            destruct loop as [[[[r' b4] found4] l']|] eqn:Hloop;
              [|discriminate Hrun]
        end.
        injection Hrun as <-. apply IHc in Hloop.
        apply C_backtrack; assumption.
    + match type of Hrun with
      | match ?loop with _ => _ end = _ =>
          destruct loop as [[[[r' b'] found'] l']|] eqn:Hloop;
            [|discriminate Hrun]
      end.
      injection Hrun as <-. apply IHc in Hloop.
      apply C_conflict; [rewrite Hcf; discriminate|exact Hloop].
Qed.

End SolveInduction.

(** ** The board *)

Lemma set_row_length (b : list Z) :
  forall row v, List.length (set_row b row v) = List.length b.
Proof. induction b as [|x b IH]; intros [|row] v; cbn; auto. Qed.

Lemma set_row_other (b : list Z) :
  forall row r v, r <> row -> nth_error (set_row b row v) r = nth_error b r.
Proof.
  induction b as [|x b IH]; intros [|row] [|r] v H; cbn; try reflexivity;
    try lia. apply IH. lia.
Qed.

Lemma set_row_same (b : list Z) :
  forall row v, row < List.length b ->
                nth_error (set_row b row v) row = Some v.
Proof.
  induction b as [|x b IH]; intros [|row] v H; cbn in *; try lia;
    [reflexivity|]. apply IH. lia.
Qed.

Lemma same_below_refl (row : nat) (b : list Z) : same_below row b b.
Proof. split; reflexivity. Qed.

Lemma same_below_set_row (row : nat) (b b' : list Z) (v : Z) :
  same_below (row + 1) (set_row b row v) b' ->
  same_below row b b'.
Proof.
  intros [Hlen Hsame]. split; [rewrite Hlen; apply set_row_length|].
  intros r Hr. rewrite Hsame by lia. apply set_row_other. lia.
Qed.

Lemma same_below_reset (row : nat) (b b' : list Z) :
  same_below row b b' -> same_below row b (set_row b' row (-1)).
Proof.
  intros [Hlen Hsame]. split; [rewrite set_row_length; exact Hlen|].
  intros r Hr. rewrite set_row_other by lia. apply Hsame, Hr.
Qed.

Lemma same_below_trans (row : nat) (b1 b2 b3 : list Z) :
  same_below row b1 b2 -> same_below row b2 b3 -> same_below row b1 b3.
Proof.
  intros [Hl1 Hs1] [Hl2 Hs2]. split; [congruence|].
  intros r Hr. rewrite Hs2, Hs1 by exact Hr. reflexivity.
Qed.

Lemma safe_rows_same (n row : nat) (b b' : list Z) :
  same_below row b b' -> safe_rows n b row -> safe_rows n b' row.
Proof.
  intros [Hlen Hsame] [Hn Hrows]. split; [congruence|].
  intros r Hr. destruct (Hrows r Hr) as (c & Hc & Hrange & Hfree).
  exists c. split; [rewrite Hsame by exact Hr; exact Hc|].
  split; [exact Hrange|]. intros r' c' Hr' Hc'.
  apply Hfree; [exact Hr'|]. rewrite <- Hsame by lia. exact Hc'.
Qed.

(** No conflict found: no queen below attacks the square. *)
Lemma find_conflicts_none (b : list Z) (row col : nat) :
  find_conflicts b row col = [] ->
  forall r' c', r' < row -> nth_error b r' = Some c' ->
                ~ attacks r' c' row (Z.of_nat col).
Proof.
  unfold find_conflicts. intros Hnone r' c' Hr' Hc' Hatt.
  assert (Hin : In r' (seq 0 row)) by (apply in_seq; lia).
  assert (Hall : forall x, In x (seq 0 row) ->
                   match nth_error b x with
                   | Some c =>
                       if (c =? Z.of_nat col)%Z
                          || (Z.abs (Z.of_nat x - Z.of_nat row)
                              =? Z.abs (c - Z.of_nat col))%Z
                       then [(x, c)] else []
                   | None => []
                   end = []).
  { revert Hnone. generalize (seq 0 row). intros xs.
    induction xs as [|y xs IH]; intros Hnil x Hx; [destruct Hx|].
    cbn [flat_map] in Hnil. apply app_eq_nil in Hnil.
    destruct Hnil as [Hy Hxs]. destruct Hx as [<- | Hx]; auto. }
  specialize (Hall r' Hin). rewrite Hc' in Hall.
  destruct Hatt as [Hcol | Hdiag].
  - rewrite (proj2 (Z.eqb_eq _ _) Hcol) in Hall. discriminate Hall.
  - rewrite (proj2 (Z.eqb_eq _ _) Hdiag), orb_true_r in Hall.
    discriminate Hall.
Qed.

Lemma safe_rows_place (n row col : nat) (b : list Z) :
  row < n -> col < n -> safe_rows n b row ->
  find_conflicts b row col = [] ->
  safe_rows n (set_row b row (Z.of_nat col)) (row + 1).
Proof.
  intros Hrow Hcol [Hn Hrows] Hnone.
  split; [rewrite set_row_length; exact Hn|].
  intros r Hr. destruct (Nat.eq_dec r row) as [-> | Hne].
  - exists (Z.of_nat col). split; [apply set_row_same; lia|].
    split; [lia|]. intros r' c' Hr' Hc'.
    rewrite set_row_other in Hc' by lia.
    eapply find_conflicts_none; eassumption.
  - destruct (Hrows r) as (c & Hc & Hrange & Hfree); [lia|].
    exists c. split; [rewrite set_row_other by exact Hne; exact Hc|].
    split; [exact Hrange|]. intros r' c' Hr' Hc'.
    rewrite set_row_other in Hc' by lia. apply Hfree; assumption.
Qed.

(** The queens read from a board whose rows below [k] are all filled. *)
Lemma placed_queens_filled (b : list Z) (k : nat) :
  (forall r, r < k -> exists c, nth_error b r = Some c /\ (0 <= c)%Z) ->
  placed_queens b k = List.map (fun r => (r, nth r b 0%Z)) (seq 0 k).
Proof.
  unfold placed_queens. intros Hfilled.
  assert (Hin : forall r, In r (seq 0 k) -> r < k)
    by (intros r Hr; apply in_seq in Hr; lia).
  revert Hin. generalize (seq 0 k). intros rs.
  induction rs as [|r rs IH]; intros Hin; [reflexivity|].
  cbn [flat_map List.map].
  destruct (Hfilled r) as (c & Hc & Hpos); [apply Hin; left; reflexivity|].
  rewrite Hc. apply Z.leb_le in Hpos. rewrite Hpos.
  rewrite (nth_error_nth _ _ 0%Z Hc). cbn [app]. f_equal.
  apply IH. intros x Hx. apply Hin. right. exact Hx.
Qed.

Lemma safe_rows_solution (n row : nat) (b : list Z) :
  n <= row -> safe_rows n b row -> valid_solution n (placed_queens b n).
Proof.
  intros Hrow [Hn Hrows].
  assert (Hfilled : forall r, r < n ->
                      exists c, nth_error b r = Some c /\ (0 <= c)%Z).
  { intros r Hr. destruct (Hrows r) as (c & Hc & Hrange & _); [lia|].
    exists c. split; [exact Hc|lia]. }
  rewrite (placed_queens_filled _ Hfilled).
  assert (Hnth : forall i q,
             nth_error (List.map (fun r => (r, nth r b 0%Z)) (seq 0 n)) i
             = Some q ->
             i < n /\ q = (i, nth i b 0%Z)).
  { intros i q Hq. rewrite nth_error_map, nth_error_seq in Hq.
    destruct (i <? n) eqn:Hi; [|discriminate Hq].
    apply Nat.ltb_lt in Hi. cbn in Hq. injection Hq as <-.
    split; [exact Hi|reflexivity]. }
  split; [|split].
  - rewrite map_map. cbn [fst]. apply map_id.
  - apply Forall_forall. intros q Hq. apply in_map_iff in Hq.
    destruct Hq as (r & <- & Hr). apply in_seq in Hr. cbn [snd].
    destruct (Hrows r) as (c & Hc & Hrange & _); [lia|].
    rewrite (nth_error_nth _ _ 0%Z Hc). exact Hrange.
  - intros i j qi qj Hij Hqi Hqj.
    destruct (Hnth _ _ Hqi) as [Hi ->]. destruct (Hnth _ _ Hqj) as [Hj ->].
    cbn [fst snd].
    destruct (Hrows j) as (c & Hc & _ & Hfree); [lia|].
    destruct (Hrows i) as (c' & Hc' & _); [lia|].
    rewrite (nth_error_nth _ _ 0%Z Hc), (nth_error_nth _ _ 0%Z Hc').
    apply Hfree; assumption.
Qed.

(** ** Solutions *)

Lemma solutions_valid_skip (n : nat) (s : snapshot) (l : list snapshot) :
  isSolution s = false -> solutions_valid n l -> solutions_valid n (s :: l).
Proof.
  intros Hs Hl. constructor; [|exact Hl]. intros H. congruence.
Qed.

(** Every call of [solve] leaves the rows below its own as they were, and
    from a board whose rows below are safe it pushes valid solutions
    only. *)
Lemma solve_valid (n : nat) (findFirst : bool) :
  forall fuel row b found r b' found' l,
    solve n findFirst fuel row b found = Some (r, b', found', l) ->
    same_below row b b' /\ (safe_rows n b row -> solutions_valid n l).
Proof.
  intros fuel row b found r b' found' l Hrun.
  refine (@solve_induction n findFirst
           (fun row b found out =>
              let '(r, b', found', l) := out in
              same_below row b b'
              /\ (safe_rows n b row -> solutions_valid n l))
           (fun row cols b found out =>
              let '(r, b', found', l) := out in
              same_below row b b'
              /\ (safe_rows n b row -> row < n ->
                  Forall (fun c => c < n) cols -> solutions_valid n l))
           _ _ _ _ _ _ fuel row b found (r, b', found', l) Hrun);
    clear; cbv beta.
  - intros row b found Hrow. split; [apply same_below_refl|].
    intros Hsafe. constructor; [|constructor]. intros _.
    cbn [queens state_solution]. eapply safe_rows_solution; eassumption.
  - intros row b found [[[r b'] found'] l] Hrow [Hsame Hvalid].
    split; [exact Hsame|]. intros Hsafe. apply Hvalid; [assumption..|].
    apply Forall_forall. intros c Hc. apply in_seq in Hc. lia.
  - intros row b found. split; [apply same_below_refl|]. constructor.
  - intros row col rest b found r b' found' l' _ [Hsame Hvalid].
    split; [exact Hsame|]. intros Hsafe Hrow Hcols.
    inversion Hcols; subst.
    apply solutions_valid_skip; [reflexivity|]. apply Hvalid; assumption.
  - intros row col rest b found b2 found2 l Hnone [Hsame Hvalid].
    split; [eapply same_below_set_row; exact Hsame|].
    intros Hsafe Hrow Hcols. inversion Hcols; subst.
    apply solutions_valid_skip; [reflexivity|].
    apply solutions_valid_skip; [reflexivity|].
    apply Hvalid. apply safe_rows_place; assumption.
  - intros row col rest b found b2 found2 l r b4 found4 l' Hnone
      [Hsame Hvalid] [Hsame' Hvalid'].
    assert (Hb2 : same_below row b b2)
      by (eapply same_below_set_row; exact Hsame).
    assert (Hb3 : same_below row b (set_row b2 row (-1)))
      by (apply same_below_reset, Hb2).
    split; [eapply same_below_trans; eassumption|].
    intros Hsafe Hrow Hcols. inversion Hcols; subst.
    apply solutions_valid_skip; [reflexivity|].
    apply solutions_valid_skip; [reflexivity|].
    apply Forall_app. split.
    + apply Hvalid. apply safe_rows_place; assumption.
    + apply solutions_valid_skip; [reflexivity|].
      apply Hvalid'; try assumption.
      eapply safe_rows_same; eassumption.
Qed.

(** X17.  For every board size and either value of [findFirst],
    [generateStates] returns a sequence in which every solution state holds
    a solution of the problem: one queen in each row, in the order of the
    rows, each on the board, and no two of them in one column or on one
    diagonal. *)
Theorem solution_states_are_solutions (n : nat) (findFirst : bool) :
  exists l,
    generateStates n findFirst = Some l /\ solutions_valid n l.
Proof.
  unfold generateStates.
  destruct (@solve_total n findFirst (n + 1) 0 (repeat (-1)%Z n) 0)
    as ([[[r b] found] l] & Hrun); [lia|].
  rewrite Hrun. eexists. split; [reflexivity|].
  apply solutions_valid_skip; [reflexivity|].
  apply (solve_valid _ _ _ _ _ _ Hrun).
  split; [apply repeat_length|]. intros r0 Hr0. lia.
Qed.

(** ** The counter of solutions *)

Lemma solutions_in_cons (s : snapshot) (l : list snapshot) :
  solutions_in (s :: l)
  = (if isSolution s then 1 else 0) + solutions_in l.
Proof. unfold solutions_in. cbn [filter]. destruct (isSolution s); reflexivity. Qed.

Lemma solutions_in_app (l1 l2 : list snapshot) :
  solutions_in (l1 ++ l2) = solutions_in l1 + solutions_in l2.
Proof. unfold solutions_in. rewrite filter_app, length_app. reflexivity. Qed.

Lemma counted_app (l1 l2 : list snapshot) :
  forall c, counted c (l1 ++ l2)
            <-> counted c l1 /\ counted (c + solutions_in l1) l2.
Proof.
  induction l1 as [|s l1 IH]; intros c.
  - cbn [app counted]. unfold solutions_in. cbn. rewrite Nat.add_0_r. tauto.
  - cbn [app counted]. rewrite IH, solutions_in_cons.
    destruct (isSolution s).
    + replace (c + 1 + solutions_in l1) with (c + (1 + solutions_in l1))
        by lia. tauto.
    + cbn [Nat.add]. tauto.
Qed.

Lemma counted_skip (c : nat) (s : snapshot) (l : list snapshot) :
  isSolution s = false -> solutionsFound s = c -> counted c l ->
  counted c (s :: l).
Proof. intros Hs Hc Hl. cbn [counted]. rewrite Hs. split; assumption. Qed.

Lemma solve_reports (n : nat) (findFirst : bool) :
  forall fuel row b found out,
    solve n findFirst fuel row b found = Some out ->
    search_report findFirst found out.
Proof.
  intros fuel row b found out Hrun.
  refine (@solve_induction n findFirst
            (fun _ _ found out => search_report findFirst found out)
            (fun _ _ _ found out => search_report findFirst found out)
            _ _ _ _ _ _ fuel row b found out Hrun);
    clear; cbv beta; unfold search_report.
  - intros row b found _. split; [cbn; auto|]. split; [reflexivity|].
    split.
    + intros ->. split; [reflexivity|].
      exists [], (state_solution n b (found + 1)). repeat split.
    + intros -> H. discriminate H.
  - intros row b found [[[r b'] found'] l] _ H. exact H.
  - intros row b found. split; [exact I|]. split; [cbn; lia|].
    split; [discriminate|reflexivity].
  - intros row col rest b found r b' found' l' _ (Hc & Hf & Ht & Hn).
    rewrite solutions_in_cons. cbn [isSolution state_check Nat.add].
    split; [apply counted_skip; auto|]. split; [exact Hf|].
    split; [|exact Hn].
    intros Hr. destruct (Ht Hr) as (Hff & l0 & s & -> & Hs & H0).
    split; [exact Hff|]. eexists (_ :: l0), s.
    split; [reflexivity|]. split; [exact Hs|].
    rewrite solutions_in_cons. exact H0.
  - intros row col rest b found b2 found2 l _ (Hc & Hf & Ht & Hn).
    rewrite !solutions_in_cons. cbn [isSolution state_check state_placed Nat.add].
    split; [repeat (apply counted_skip; auto)|]. split; [exact Hf|].
    split; [|intros _ H; discriminate H].
    intros _. destruct (Ht eq_refl) as (Hff & l0 & s & -> & Hs & H0).
    split; [exact Hff|]. eexists (_ :: _ :: l0), s.
    split; [reflexivity|]. split; [exact Hs|].
    rewrite !solutions_in_cons. exact H0.
  - intros row col rest b found b2 found2 l r b4 found4 l' _
      (Hc & Hf & _ & Hn) (Hc' & Hf' & Ht' & Hn').
    rewrite !solutions_in_cons, solutions_in_app, solutions_in_cons.
    cbn [isSolution state_check state_placed state_backtrack Nat.add].
    split; [|split; [lia|split]].
    + repeat (apply counted_skip; auto).
      apply counted_app. split; [exact Hc|].
      rewrite <- Hf. apply counted_skip; auto.
    + intros Hr. destruct (Ht' Hr) as (Hff & l0 & s & -> & Hs & H0).
      split; [exact Hff|].
      eexists (_ :: _ :: l ++ _ :: l0)%list, s.
      split; [rewrite <- !app_comm_cons, <- app_assoc; reflexivity|].
      split; [exact Hs|].
      rewrite !solutions_in_cons, solutions_in_app, solutions_in_cons.
      cbn [isSolution state_check state_placed state_backtrack Nat.add].
      rewrite (Hn Hff eq_refl), H0. reflexivity.
    + intros Hff Hr. rewrite (Hn Hff eq_refl), (Hn' Hff Hr). reflexivity.
Qed.

Lemma counted_last (l : list snapshot) :
  forall c s, counted c (l ++ [s]) ->
              solutionsFound s = c + solutions_in (l ++ [s]).
Proof.
  intros c s H. apply counted_app in H. destruct H as [_ H].
  cbn [counted] in H. destruct H as [H _].
  rewrite solutions_in_app, solutions_in_cons. unfold solutions_in at 2.
  cbn [filter List.length]. rewrite H.
  destruct (isSolution s); lia.
Qed.

(** X18.  For every board size, [generateStates(true)] stops at the first
    solution: its sequence has no solution state, or exactly one, and then
    that state is the last of the sequence and reports solution 1. *)
Theorem first_solution_ends_the_sequence (n : nat) :
  exists l,
    generateStates n true = Some l
    /\ (solutions_in l = 0
        \/ (solutions_in l = 1
            /\ exists l0 s,
                l = (l0 ++ [s])%list /\ isSolution s = true
                /\ solutionsFound s = 1 /\ solutions_in l0 = 0)).
Proof.
  unfold generateStates.
  destruct (@solve_total n true (n + 1) 0 (repeat (-1)%Z n) 0)
    as ([[[r b] found] l] & Hrun); [lia|].
  rewrite Hrun. eexists. split; [reflexivity|].
  pose proof (solve_reports _ _ _ _ _ _ Hrun) as (Hc & Hf & Ht & Hn).
  rewrite solutions_in_cons. cbn [isSolution state_start Nat.add].
  destruct r.
  - right. destruct (Ht eq_refl) as (_ & l0 & s & -> & Hs & H0).
    split.
    + rewrite solutions_in_app, H0, solutions_in_cons, Hs. reflexivity.
    + exists (state_start n :: l0), s. split; [reflexivity|].
      split; [exact Hs|]. split.
      * rewrite (@counted_last l0 0 s Hc), solutions_in_app, H0,
          solutions_in_cons, Hs. reflexivity.
      * rewrite solutions_in_cons. exact H0.
  - left. apply Hn; reflexivity.
Qed.

(** X19.  For every board size and either value of [findFirst], the field
    [solutionsFound] of each state of the sequence is the number of solution
    states up to and including it; so it never decreases, and the last
    state reports the number of solution states of the whole sequence. *)
Theorem solutionsFound_counts_solution_states (n : nat) (findFirst : bool) :
  exists l0 s,
    generateStates n findFirst = Some (l0 ++ [s])%list
    /\ counted 0 (l0 ++ [s])
    /\ solutionsFound s = solutions_in (l0 ++ [s]).
Proof.
  unfold generateStates.
  destruct (@solve_total n findFirst (n + 1) 0 (repeat (-1)%Z n) 0)
    as ([[[r b] found] l] & Hrun); [lia|].
  rewrite Hrun.
  pose proof (solve_reports _ _ _ _ _ _ Hrun) as (Hc & _).
  assert (Hall : counted 0 (state_start n :: l))
    by (apply counted_skip; auto).
  destruct (@exists_last _ (state_start n :: l)) as (l0 & s & Heq);
    [discriminate|].
  rewrite Heq in *. exists l0, s. split; [reflexivity|].
  split; [exact Hall|]. apply (@counted_last l0 0 s Hall).
Qed.

(** ** Grids *)

Lemma nth_error_set_nth (r : list nat) :
  forall j v j',
    nth_error (set_nth r j v) j'
    = if j' =? j then (if j <? List.length r then Some v else None)
      else nth_error r j'.
Proof.
  induction r as [|x r IH]; intros [|j] v [|j'];
    cbn [set_nth nth_error List.length]; try reflexivity.
  - change (S j' =? S j) with (j' =? j). destruct (j' =? j); reflexivity.
  - change (S j' =? S j) with (j' =? j).
    change (S j <? S (List.length r)) with (j <? List.length r).
    apply IH.
Qed.

Lemma nth_error_grid_set (g : grid) :
  forall i j v i',
    nth_error (grid_set g i j v) i'
    = if i' =? i then option_map (fun r => set_nth r j v) (nth_error g i')
      else nth_error g i'.
Proof.
  induction g as [|r g IH]; intros [|i] j v [|i'];
    cbn [grid_set nth_error option_map]; try reflexivity.
  - change (S i' =? S i) with (i' =? i). destruct (i' =? i); reflexivity.
  - change (S i' =? S i) with (i' =? i). apply IH.
Qed.

Lemma nth_error_grid_of (n : nat) (qs : list queen) (i : nat) :
  nth_error (grid_of n qs) i
  = if i <? n
    then Some (List.map (fun c => if has_queen qs i c then 1 else 0)
                 (seq 0 n))
    else None.
Proof.
  unfold grid_of. rewrite nth_error_map, nth_error_seq.
  destruct (i <? n); reflexivity.
Qed.

Lemma is_queen_grid_of (n : nat) (qs : list queen) (i j : nat) :
  is_queen (grid_of n qs) i j = (i <? n) && (j <? n) && has_queen qs i j.
Proof.
  unfold is_queen, cell. rewrite nth_error_grid_of.
  destruct (i <? n); [|reflexivity].
  rewrite nth_error_map, nth_error_seq.
  destruct (j <? n); [|reflexivity]. cbn.
  destruct (has_queen qs i j); reflexivity.
Qed.

Lemma has_queen_app (qs qs' : list queen) (i j : nat) :
  has_queen (qs ++ qs') i j = has_queen qs i j || has_queen qs' i j.
Proof. unfold has_queen. apply existsb_app. Qed.

Lemma has_queen_one (r c i j : nat) :
  has_queen [(r, Z.of_nat c)] i j = (r =? i) && (c =? j).
Proof.
  unfold has_queen. cbn. rewrite orb_false_r. f_equal.
  destruct (Nat.eqb_spec c j) as [-> | Hne].
  - apply Z.eqb_refl.
  - apply Z.eqb_neq. lia.
Qed.

Lemma has_queen_placed (b : list Z) (row i j : nat) :
  has_queen (placed_queens b row) i j = true
  <-> i < row /\ nth_error b i = Some (Z.of_nat j).
Proof.
  unfold has_queen, placed_queens. rewrite existsb_exists. split.
  - intros ([r c] & Hin & Hq). apply in_flat_map in Hin.
    destruct Hin as (x & Hx & Hin). apply in_seq in Hx.
    destruct (nth_error b x) as [c'|] eqn:Hc; [|destruct Hin].
    destruct (0 <=? c')%Z; [|destruct Hin].
    destruct Hin as [Heq | []]. injection Heq as <- <-.
    cbn [fst snd] in Hq. apply andb_true_iff in Hq. destruct Hq as [Hr Hcj].
    apply Nat.eqb_eq in Hr. apply Z.eqb_eq in Hcj. subst.
    split; [lia|exact Hc].
  - intros [Hi Hc]. exists (i, Z.of_nat j). split.
    + apply in_flat_map. exists i. split; [apply in_seq; lia|].
      rewrite Hc. destruct (0 <=? Z.of_nat j)%Z eqn:Hpos;
        [left; reflexivity|]. apply Z.leb_gt in Hpos. lia.
    + cbn [fst snd]. rewrite Nat.eqb_refl, Z.eqb_refl. reflexivity.
Qed.

Lemma has_queen_placed_false (b : list Z) (row i j : nat) :
  row <= i -> has_queen (placed_queens b row) i j = false.
Proof.
  intros Hi. destruct (has_queen _ i j) eqn:H; [|reflexivity].
  apply has_queen_placed in H. lia.
Qed.

(** Setting a square of a grid of queens to one adds a queen. *)
Lemma grid_set_one (n : nat) (qs : list queen) (row col : nat) :
  row < n -> col < n ->
  grid_set (grid_of n qs) row col 1
  = grid_of n (qs ++ [(row, Z.of_nat col)]).
Proof.
  intros Hrow Hcol. apply nth_error_ext. intros i.
  rewrite nth_error_grid_set, !nth_error_grid_of.
  destruct (i <? n) eqn:Hi; [|destruct (i =? row); reflexivity].
  destruct (Nat.eqb_spec i row) as [-> | Hne]; cbn [option_map]; f_equal.
  - apply nth_error_ext. intros j.
    rewrite nth_error_set_nth, !nth_error_map, nth_error_seq, length_map,
      length_seq.
    apply Nat.ltb_lt in Hcol as Hcol'. rewrite Hcol'.
    destruct (Nat.eqb_spec j col) as [-> | Hj].
    + rewrite Hcol'. cbn. rewrite has_queen_app, has_queen_one,
        !Nat.eqb_refl, orb_true_r. reflexivity.
    + destruct (j <? n); [|reflexivity]. cbn.
      rewrite has_queen_app, has_queen_one.
      replace (col =? j) with false by (symmetry; apply Nat.eqb_neq; lia).
      rewrite andb_false_r, orb_false_r. reflexivity.
  - apply map_ext. intros c. rewrite has_queen_app, has_queen_one.
    replace (row =? i) with false by (symmetry; apply Nat.eqb_neq; lia).
    rewrite orb_false_r. reflexivity.
Qed.

(** Setting it back to zero takes the queen off again. *)
Lemma grid_set_zero (n : nat) (qs : list queen) (row col : nat) :
  row < n -> col < n -> has_queen qs row col = false ->
  grid_set (grid_of n (qs ++ [(row, Z.of_nat col)])) row col 0
  = grid_of n qs.
Proof.
  intros Hrow Hcol Hfree. apply nth_error_ext. intros i.
  rewrite nth_error_grid_set, !nth_error_grid_of.
  destruct (i <? n) eqn:Hi; [|destruct (i =? row); reflexivity].
  destruct (Nat.eqb_spec i row) as [-> | Hne]; cbn [option_map]; f_equal.
  - apply nth_error_ext. intros j.
    rewrite nth_error_set_nth, !nth_error_map, nth_error_seq, length_map,
      length_seq.
    apply Nat.ltb_lt in Hcol as Hcol'. rewrite Hcol'.
    destruct (Nat.eqb_spec j col) as [-> | Hj].
    + rewrite Hcol'. cbn. rewrite Hfree. reflexivity.
    + destruct (j <? n); [|reflexivity]. cbn.
      rewrite has_queen_app, has_queen_one.
      replace (col =? j) with false by (symmetry; apply Nat.eqb_neq; lia).
      rewrite andb_false_r, orb_false_r. reflexivity.
  - apply map_ext. intros c. rewrite has_queen_app, has_queen_one.
    replace (row =? i) with false by (symmetry; apply Nat.eqb_neq; lia).
    rewrite orb_false_r. reflexivity.
Qed.

Lemma empty_grid_no_queens (n : nat) : empty_grid n = grid_of n [].
Proof.
  unfold empty_grid, grid_of.
  rewrite (map_ext _ (fun _ => repeat 0 n)).
  - rewrite map_const, length_seq. reflexivity.
  - intros r. cbn. rewrite map_const, length_seq. reflexivity.
Qed.

(** ** [isSafe] *)

Lemma find_conflicts_free (b : list Z) (row col : nat) :
  (forall r' c', r' < row -> nth_error b r' = Some c' ->
                 ~ attacks r' c' row (Z.of_nat col)) ->
  find_conflicts b row col = [].
Proof.
  unfold find_conflicts. intros Hfree.
  assert (Hall : forall x, In x (seq 0 row) -> x < row)
    by (intros x Hx; apply in_seq in Hx; lia).
  revert Hall. generalize (seq 0 row). intros xs.
  induction xs as [|y xs IH]; intros Hall; [reflexivity|].
  cbn [flat_map]. rewrite IH by (intros x Hx; apply Hall; right; exact Hx).
  rewrite app_nil_r.
  destruct (nth_error b y) as [c|] eqn:Hc; [|reflexivity].
  destruct ((c =? Z.of_nat col)%Z
            || (Z.abs (Z.of_nat y - Z.of_nat row)
                =? Z.abs (c - Z.of_nat col))%Z) eqn:Hatt; [|reflexivity].
  exfalso. apply (Hfree y c); [apply Hall; left; reflexivity|exact Hc|].
  apply orb_true_iff in Hatt. destruct Hatt as [H | H];
    apply Z.eqb_eq in H; [left | right]; exact H.
Qed.

Lemma column_free_spec (g : grid) (row col : nat) :
  column_free g row col = true
  <-> forall i, i < row -> is_queen g i col = false.
Proof.
  unfold column_free. rewrite forallb_forall. split.
  - intros H i Hi. apply negb_true_iff, H, in_seq. lia.
  - intros H i Hi. apply in_seq in Hi. apply negb_true_iff, H. lia.
Qed.

Lemma upper_left_free_spec (g : grid) :
  forall i j,
    upper_left_free g i j = true
    <-> forall k, 1 <= k -> k <= i -> k <= j ->
                  is_queen g (i - k) (j - k) = false.
Proof.
  induction i as [|i IH]; intros [|j]; cbn [upper_left_free];
    try (split; [intros _ k; lia | reflexivity]).
  destruct (is_queen g i j) eqn:Hq.
  - split; [discriminate|]. intros H.
    specialize (H 1). replace (S i - 1) with i in H by lia.
    replace (S j - 1) with j in H by lia.
    rewrite Hq in H. symmetry. apply H; lia.
  - rewrite IH. split.
    + intros H k Hk Hi Hj. destruct (Nat.eq_dec k 1) as [-> | Hne].
      * replace (S i - 1) with i by lia. replace (S j - 1) with j by lia.
        exact Hq.
      * replace (S i - k) with (i - (k - 1)) by lia.
        replace (S j - k) with (j - (k - 1)) by lia. apply H; lia.
    + intros H k Hk Hi Hj.
      replace (i - k) with (S i - S k) by lia.
      replace (j - k) with (S j - S k) by lia. apply H; lia.
Qed.

Lemma upper_right_free_spec (n : nat) (g : grid) :
  forall i j,
    upper_right_free n g i j = true
    <-> forall k, k < i -> j + k < n ->
                  is_queen g (i - 1 - k) (j + k) = false.
Proof.
  induction i as [|i IH]; intros j; cbn [upper_right_free].
  - split; [intros _ k; lia | reflexivity].
  - destruct (Nat.ltb_spec j n) as [Hj | Hj].
    + destruct (is_queen g i j) eqn:Hq.
      * split; [discriminate|]. intros H. specialize (H 0).
        replace (S i - 1 - 0) with i in H by lia.
        replace (j + 0) with j in H by lia.
        rewrite Hq in H. symmetry. apply H; lia.
      * rewrite IH. split.
        -- intros H k Hk Hn. destruct k as [|k].
           ++ replace (S i - 1 - 0) with i by lia.
              replace (j + 0) with j by lia. exact Hq.
           ++ replace (S i - 1 - S k) with (i - 1 - k) by lia.
              replace (j + S k) with (j + 1 + k) by lia. apply H; lia.
        -- intros H k Hk Hn.
           replace (i - 1 - k) with (S i - 1 - S k) by lia.
           replace (j + 1 + k) with (j + S k) by lia. apply H; lia.
    + split; [intros _ k; lia | reflexivity].
Qed.

Lemma is_queen_placed (n : nat) (b : list Z) (row i j : nat) :
  is_queen (grid_of n (placed_queens b row)) i j = true
  <-> i < n /\ j < n /\ i < row /\ nth_error b i = Some (Z.of_nat j).
Proof.
  rewrite is_queen_grid_of, !andb_true_iff, has_queen_placed,
    !Nat.ltb_lt. tauto.
Qed.

(** On the grid of the queens of the rows below [row], [isSafe] holds
    exactly where the array of columns has no conflict. *)
Lemma isSafe_free (n : nat) (b : list Z) (row col : nat) :
  safe_rows n b row -> col < n ->
  (isSafe n (grid_of n (placed_queens b row)) row col = true
   <-> find_conflicts b row col = []).
Proof.
  intros [Hlen Hrows] Hcol. unfold isSafe.
  rewrite !andb_true_iff, column_free_spec, upper_left_free_spec,
    upper_right_free_spec.
  split.
  - intros [[Hc Hl] Hr]. apply find_conflicts_free.
    intros r c Hrow Hb Hatt.
    destruct (Hrows r Hrow) as (c0 & Hc0 & Hrange & _).
    rewrite Hb in Hc0. injection Hc0 as <-.
    assert (Hrn : r < n).
    { rewrite <- Hlen. apply nth_error_Some. rewrite Hb. discriminate. }
    assert (Hq : forall j, c = Z.of_nat j ->
               is_queen (grid_of n (placed_queens b row)) r j = true).
    { intros j ->. apply is_queen_placed. repeat split; try lia. exact Hb. }
    destruct Hatt as [-> | Hdiag].
    + specialize (Hq col eq_refl). rewrite (Hc r Hrow) in Hq. discriminate.
    + destruct (Z.lt_ge_cases c (Z.of_nat col)) as [Hlt | Hge].
      * specialize (Hl (row - r)).
        replace (row - (row - r)) with r in Hl by lia.
        assert (Hcc : c = Z.of_nat (col - (row - r))) by lia.
        specialize (Hq _ Hcc). rewrite Hl in Hq by lia. discriminate.
      * specialize (Hr (row - r - 1)).
        replace (row - 1 - (row - r - 1)) with r in Hr by lia.
        assert (Hcc : c = Z.of_nat (col + 1 + (row - r - 1))) by lia.
        specialize (Hq _ Hcc). rewrite Hr in Hq by lia. discriminate.
  - intros Hnone.
    assert (Hfree : forall i j,
               is_queen (grid_of n (placed_queens b row)) i j = true ->
               ~ attacks i (Z.of_nat j) row (Z.of_nat col)).
    { intros i j Hq. apply is_queen_placed in Hq.
      destruct Hq as (_ & _ & Hi & Hb).
      eapply find_conflicts_none; eassumption. }
    assert (Hno : forall i j,
               attacks i (Z.of_nat j) row (Z.of_nat col) ->
               is_queen (grid_of n (placed_queens b row)) i j = false).
    { intros i j Hatt.
      destruct (is_queen _ i j) eqn:Hq; [|reflexivity].
      exfalso. exact (Hfree i j Hq Hatt). }
    repeat split.
    + intros i Hi. apply Hno. left. reflexivity.
    + intros k Hk Hi Hj. apply Hno. right. lia.
    + intros k Hk Hj. apply Hno. right. lia.
Qed.

(** ** [solve()] and [generateStates(false)] *)

Lemma grid_of_ext (n : nat) (qs qs' : list queen) :
  (forall i j, has_queen qs i j = has_queen qs' i j) ->
  grid_of n qs = grid_of n qs'.
Proof.
  intros H. unfold grid_of. apply map_ext. intros i. apply map_ext.
  intros j. rewrite H. reflexivity.
Qed.

Lemma grid_of_same_below (n row : nat) (b b' : list Z) :
  same_below row b b' ->
  grid_of n (placed_queens b' row) = grid_of n (placed_queens b row).
Proof.
  intros [_ Hsame]. apply grid_of_ext. intros i j.
  apply Bool.eq_iff_eq_true. rewrite !has_queen_placed.
  split; intros [Hi Hb]; (split; [exact Hi|]);
    [rewrite <- Hsame | rewrite Hsame]; assumption.
Qed.

Lemma grid_of_placed (n row col : nat) (b : list Z) :
  row < List.length b ->
  grid_of n (placed_queens b row ++ [(row, Z.of_nat col)])
  = grid_of n (placed_queens (set_row b row (Z.of_nat col)) (row + 1)).
Proof.
  intros Hrow. apply grid_of_ext. intros i j.
  apply Bool.eq_iff_eq_true.
  rewrite has_queen_app, orb_true_iff, has_queen_one, andb_true_iff,
    !has_queen_placed, !Nat.eqb_eq.
  destruct (Nat.eq_dec i row) as [-> | Hne].
  - rewrite set_row_same by exact Hrow. split.
    + intros [[Hi _] | [_ ->]]; [lia|]. split; [lia|reflexivity].
    + intros [_ Hc]. right. split; [reflexivity|].
      injection Hc as Hc. lia.
  - rewrite set_row_other by exact Hne. split.
    + intros [[Hi Hb] | [Hr _]]; [|congruence]. split; [lia|exact Hb].
    + intros [Hi Hb]. left. split; [lia|exact Hb].
Qed.

Lemma solution_boards_app (l l' : list snapshot) :
  solution_boards (l ++ l') = (solution_boards l ++ solution_boards l')%list.
Proof. unfold solution_boards. rewrite filter_app, map_app. reflexivity. Qed.

(** Run on the same position, [solveRecursive] and the search of
    [generateStates(false)] visit the same squares: the search leaves the
    rows below its own as they were and returns [false], and the recursion
    restores the board and pushes the boards of the solution states. *)
Lemma solve_in_step (n : nat) :
  forall fuel row b found out,
    solve n false fuel row b found = Some out ->
    safe_rows n b row -> row <= n ->
    let '(r, b', _, l) := out in
    r = false /\ same_below row b b'
    /\ forall fuel', n < fuel' + row ->
         exists ret steps,
           solveRecursive n fuel' row (grid_of n (placed_queens b row))
           = Some (ret, grid_of n (placed_queens b row), solution_boards l,
                   steps).
Proof.
  intros fuel row b found out Hrun.
  refine (@solve_induction n false
    (fun row b found out =>
       safe_rows n b row -> row <= n ->
       let '(r, b', _, l) := out in
       r = false /\ same_below row b b'
       /\ forall fuel', n < fuel' + row ->
            exists ret steps,
              solveRecursive n fuel' row (grid_of n (placed_queens b row))
              = Some (ret, grid_of n (placed_queens b row),
                      solution_boards l, steps))
    (fun row cols b found out =>
       safe_rows n b row -> row < n -> (forall c, In c cols -> c < n) ->
       let '(r, b', _, l) := out in
       r = false /\ same_below row b b'
       /\ forall fuel', n < fuel' + (row + 1) ->
            exists steps,
              try_columns n (solveRecursive n fuel' (row + 1)) row cols
                (grid_of n (placed_queens b row))
              = Some (grid_of n (placed_queens b row), solution_boards l,
                      steps))
    _ _ _ _ _ _ fuel row b found out Hrun); clear; cbv beta.
  - (* a solution *)
    intros row b found Hrow _ Hle.
    split; [reflexivity|]. split; [apply same_below_refl|].
    intros [|fuel'] Hfuel; [lia|]. cbn [solveRecursive].
    rewrite (proj2 (Nat.leb_le n row) Hrow).
    assert (row = n) as -> by lia. eauto.
  - (* the loop of a row *)
    intros row b found [[[r b'] found'] l] Hrow HC Hsafe _.
    destruct HC as (Hr & Hsame & Hrec);
      [exact Hsafe|exact Hrow|intros c Hc; apply in_seq in Hc; lia|].
    split; [exact Hr|]. split; [exact Hsame|].
    intros [|fuel'] Hfuel; [lia|]. cbn [solveRecursive].
    rewrite (proj2 (Nat.leb_gt n row) Hrow).
    destruct (Hrec fuel') as (steps & ->); [lia|]. eauto.
  - (* no column left *)
    intros row b found _ _ _.
    split; [reflexivity|]. split; [apply same_below_refl|].
    intros fuel' _. cbn [try_columns]. eauto.
  - (* a square under attack *)
    intros row col rest b found r b' found' l' Hcf HC Hsafe Hrow Hcols.
    destruct HC as (Hr & Hsame & Hrec);
      [exact Hsafe|exact Hrow|intros c Hc; apply Hcols; right; exact Hc|].
    split; [exact Hr|]. split; [exact Hsame|].
    intros fuel' Hfuel. destruct (Hrec fuel' Hfuel) as (steps & Hloop).
    cbn [try_columns]. cbn [try_columns] in Hloop.
    destruct (isSafe n _ row col) eqn:Hok.
    + exfalso. apply Hcf. apply (@isSafe_free n b row col Hsafe); [|exact Hok].
      apply Hcols. left. reflexivity.
    + rewrite Hloop.
      change (state_check n b row col found false :: l')
        with ([state_check n b row col found false] ++ l')%list.
      rewrite solution_boards_app. cbn. eauto.
  - (* the search below returned [true] *)
    intros row col rest b found b2 found2 l Hcf HP Hsafe Hrow Hcols.
    destruct HP as (Hr & _); [|lia|discriminate Hr].
    apply safe_rows_place; try assumption. apply Hcols. left. reflexivity.
  - (* the search below returned [false] *)
    intros row col rest b found b2 found2 l r b4 found4 l' Hcf HP HC
      Hsafe Hrow Hcols.
    assert (Hcol : col < n) by (apply Hcols; left; reflexivity).
    assert (Hlen : row < List.length b)
      by (destruct Hsafe as [-> _]; exact Hrow).
    destruct HP as (_ & Hsame1 & Hrec1);
      [apply safe_rows_place; assumption|lia|].
    assert (Hsame3 : same_below row b (set_row b2 row (-1))).
    { apply same_below_reset. eapply same_below_set_row. exact Hsame1. }
    destruct HC as (Hr & Hsame4 & Hrec4);
      [eapply safe_rows_same; eassumption|exact Hrow
      |intros c Hc; apply Hcols; right; exact Hc|].
    split; [exact Hr|].
    split; [eapply same_below_trans; eassumption|].
    intros fuel' Hfuel.
    destruct (Hrec1 fuel' Hfuel) as (ret & steps & Hnext).
    destruct (Hrec4 fuel' Hfuel) as (steps' & Hloop).
    rewrite (@grid_of_same_below n row b _ Hsame3) in Hloop.
    cbn [try_columns]. cbn [try_columns] in Hloop.
    rewrite (proj2 (@isSafe_free n b row col Hsafe Hcol) Hcf).
    rewrite (@grid_set_one n _ row col Hrow Hcol),
      (@grid_of_placed n row col b Hlen), Hnext.
    rewrite <- (@grid_of_placed n row col b Hlen).
    rewrite (@grid_set_zero n _ row col Hrow Hcol)
      by (apply has_queen_placed_false; lia).
    rewrite Hloop.
    change (state_check n b row col found false
            :: state_placed n b row col found
            :: l ++ state_backtrack n b (set_row b2 row (-1)) row col found2
            :: l')%list
      with ([state_check n b row col found false;
             state_placed n b row col found]
            ++ l ++ [state_backtrack n b (set_row b2 row (-1)) row col found2]
            ++ l')%list.
    rewrite !solution_boards_app. cbn. eauto.
Qed.

(** X20.  [isSafe] and the check of [generateStates] agree: on the board
    that holds the queens of the rows below [row], none attacking another,
    [isSafe(board, row, col)] is [true] exactly when the check of the square
    finds no conflict. *)
Theorem isSafe_agrees_with_the_check (n : nat) (b : list Z) (row col : nat) :
  safe_rows n b row -> col < n ->
  isSafe n (grid_of n (placed_queens b row)) row col
  = match find_conflicts b row col with [] => true | _ :: _ => false end.
Proof.
  intros Hsafe Hcol. pose proof (@isSafe_free n b row col Hsafe Hcol) as Hiff.
  destruct (find_conflicts b row col) as [|q qs].
  - apply Hiff. reflexivity.
  - destruct (isSafe n _ row col); [|reflexivity].
    destruct Hiff as [Hiff _]. discriminate (Hiff eq_refl).
Qed.

(** X21.  [solve()] returns the boards of the solution states of
    [generateStates(false)], in the same order, and leaves [this.board]
    empty again. *)
Theorem solve_returns_the_solution_states (n : nat) :
  exists l steps,
    generateStates n false = Some l
    /\ solve_all n = Some (solution_boards l, empty_grid n, steps).
Proof.
  unfold generateStates, solve_all.
  destruct (@solve_total n false (n + 1) 0 (repeat (-1)%Z n) 0)
    as ([[[r b] found] l] & Hrun); [lia|].
  rewrite Hrun.
  pose proof (@solve_in_step n _ _ _ _ _ Hrun) as Hstep.
  destruct Hstep as (_ & _ & Hrec).
  - split; [apply repeat_length|]. intros r0 Hr0. lia.
  - lia.
  - destruct (Hrec (n + 1)) as (ret & steps & Hsolve); [lia|].
    rewrite empty_grid_no_queens.
    change (placed_queens (repeat (-1)%Z n) 0) with (@nil queen) in Hsolve.
    rewrite Hsolve. exists (state_start n :: l), steps.
    split; reflexivity.
Qed.

Lemma isSafe_agrees_with_the_check_witness :
  safe_rows 4 [1; 3; -1; -1]%Z 2
  /\ isSafe 4 (grid_of 4 (placed_queens [1; 3; -1; -1]%Z 2)) 2 0 = true.
Proof.
  assert (Hsafe : safe_rows 4 [1; 3; -1; -1]%Z 2).
  { split; [reflexivity|]. intros [|[|r]] Hr; [| |lia].
    - exists 1%Z. split; [reflexivity|]. split; [lia|]. intros r' c' Hr'. lia.
    - exists 3%Z. split; [reflexivity|]. split; [lia|].
      intros [|r'] c' Hr' Hc'; [|lia]. injection Hc' as <-.
      unfold attacks. cbn. lia. }
  split; [exact Hsafe|].
  apply (@isSafe_agrees_with_the_check 4 [1; 3; -1; -1]%Z 2 0 Hsafe). lia.
Defined.

(** ** [findConflicts] *)

Lemma flat_map_nil (A B : Type) (f : A -> list B) (l : list A) :
  flat_map f l = [] <-> forall x, In x l -> f x = [].
Proof.
  induction l as [|a l IH]; cbn [flat_map].
  - split; [intros _ x []|reflexivity].
  - split.
    + intros H x [<- | Hx]; apply app_eq_nil in H; destruct H as [Ha Hl];
        [exact Ha|]. apply IH; assumption.
    + intros H. rewrite (H a) by (left; reflexivity).
      apply IH. intros x Hx. apply H. right. exact Hx.
Qed.

Lemma findConflicts_none (n : nat) (g : grid) (row col : nat) :
  findConflicts n g row col = []
  <-> (forall i, i < n -> i <> row -> is_queen g i col = false)
      /\ (forall i j, i < n -> j < n -> i <> row -> j <> col ->
                      same_diagonal i j row col = true ->
                      is_queen g i j = false).
Proof.
  unfold findConflicts. split.
  - intros H. apply app_eq_nil in H. destruct H as [Hcol Hdiag].
    rewrite flat_map_nil in Hcol. rewrite flat_map_nil in Hdiag. split.
    + intros i Hi Hne. specialize (Hcol i). rewrite in_seq in Hcol.
      replace (i =? row) with false in Hcol
        by (symmetry; apply Nat.eqb_neq; exact Hne).
      destruct (is_queen g i col); [|reflexivity].
      cbn in Hcol. discriminate Hcol. lia.
    + intros i j Hi Hj Hne Hnej Hd. specialize (Hdiag i).
      rewrite in_seq, flat_map_nil in Hdiag.
      assert (Hin : 0 <= i < 0 + n) by lia.
      specialize (Hdiag Hin j). rewrite in_seq in Hdiag.
      replace (i =? row) with false in Hdiag
        by (symmetry; apply Nat.eqb_neq; exact Hne).
      replace (j =? col) with false in Hdiag
        by (symmetry; apply Nat.eqb_neq; exact Hnej).
      rewrite Hd in Hdiag.
      destruct (is_queen g i j); [|reflexivity].
      cbn in Hdiag. discriminate Hdiag. lia.
  - intros [Hcol Hdiag].
    assert (H1 : flat_map
                   (fun i =>
                      if negb (i =? row) && is_queen g i col
                      then [(i, col, Column)] else [])
                   (seq 0 n) = []).
    { apply flat_map_nil. intros i Hi. apply in_seq in Hi.
      destruct (Nat.eqb_spec i row) as [-> | Hne]; [reflexivity|].
      rewrite Hcol by lia. reflexivity. }
    rewrite H1. cbn [app]. apply flat_map_nil. intros i Hi.
    apply in_seq in Hi. apply flat_map_nil. intros j Hj. apply in_seq in Hj.
    destruct (is_queen g i j) eqn:Hq; [|reflexivity].
    destruct (Nat.eqb_spec i row) as [-> | Hne]; [reflexivity|].
    destruct (Nat.eqb_spec j col) as [-> | Hnej]; [reflexivity|].
    cbn. destruct (same_diagonal i j row col) eqn:Hd; [|reflexivity].
    rewrite Hdiag in Hq by (assumption || lia). discriminate Hq.
Qed.

(** X22.  [isSafe] and [findConflicts] agree where the solver uses them:
    on a board with no queen in the row [row] or after it, [isSafe] is
    [true] exactly when [findConflicts] reports nothing. *)
Theorem isSafe_iff_no_conflicts (n : nat) (g : grid) (row col : nat) :
  filled_below n g row -> row < n -> col < n ->
  (isSafe n g row col = true <-> findConflicts n g row col = []).
Proof.
  intros [_ Habove] Hrow Hcol. unfold isSafe.
  rewrite !andb_true_iff, column_free_spec, upper_left_free_spec,
    upper_right_free_spec, findConflicts_none.
  unfold same_diagonal. split.
  - intros [[Hc Hl] Hr]. split.
    + intros i Hi Hne. destruct (Nat.lt_ge_cases i row) as [Hlt | Hge].
      * apply Hc, Hlt.
      * apply Habove, Hge.
    + intros i j Hi Hj Hne Hnej Hd. apply Z.eqb_eq in Hd.
      destruct (Nat.lt_ge_cases i row) as [Hlt | Hge];
        [|apply Habove, Hge].
      destruct (Nat.lt_ge_cases j col) as [Hjl | Hjg].
      * replace i with (row - (row - i)) by lia.
        replace j with (col - (row - i)) by lia. apply Hl; lia.
      * replace i with (row - 1 - (row - i - 1)) by lia.
        replace j with (col + 1 + (row - i - 1)) by lia. apply Hr; lia.
  - intros [Hc Hd]. repeat split.
    + intros i Hi. apply Hc; lia.
    + intros k Hk Hi Hj. apply Hd; try lia. apply Z.eqb_eq. lia.
    + intros k Hk Hj. apply Hd; try lia. apply Z.eqb_eq. lia.
Qed.

Lemma isSafe_iff_no_conflicts_witness :
  filled_below 4 [[0; 1; 0; 0]; [0; 0; 0; 1]; [0; 0; 0; 0]; [0; 0; 0; 0]] 2
  /\ findConflicts 4
       [[0; 1; 0; 0]; [0; 0; 0; 1]; [0; 0; 0; 0]; [0; 0; 0; 0]] 2 0 = [].
Proof.
  assert (H : filled_below 4
                [[0; 1; 0; 0]; [0; 0; 0; 1]; [0; 0; 0; 0]; [0; 0; 0; 0]] 2).
  { split; [reflexivity|].
    intros [|[|[|[|i]]]] j Hi; try lia;
      [destruct j as [|[|[|[|[|j]]]]]; reflexivity
      |destruct j as [|[|[|[|[|j]]]]]; reflexivity
      |destruct i; reflexivity]. }
  split; [exact H|].
  apply (@isSafe_iff_no_conflicts 4 _ 2 0 H); [lia|lia|reflexivity].
Defined.

(** ** The sizes that [setSize] stores *)

Lemma ends_in_solution_last (l : list snapshot) :
  ends_in_solution l = true ->
  exists l0 s, l = (l0 ++ [s])%list /\ isSolution s = true.
Proof.
  unfold ends_in_solution. intros H.
  destruct (rev l) as [|s r] eqn:Hrev; [discriminate H|].
  exists (rev r), s. split; [|exact H].
  rewrite <- (rev_involutive l), Hrev. reflexivity.
Qed.

Lemma first_solution_found_sizes :
  forallb first_solution_found (seq 4 9) = true.
Proof. vm_compute. reflexivity. Qed.

Lemma first_solution_of_size (n : nat) :
  4 <= n <= 12 ->
  exists l0 s,
    generateStates n true = Some (l0 ++ [s])%list /\ isSolution s = true.
Proof.
  intros Hrange.
  pose proof first_solution_found_sizes as Hall.
  rewrite forallb_forall in Hall.
  specialize (Hall n). rewrite in_seq in Hall.
  assert (Hin : 4 <= n < 4 + 9) by lia.
  specialize (Hall Hin). unfold first_solution_found in Hall.
  destruct (generateStates n true) as [l|]; [|discriminate Hall].
  destruct (ends_in_solution_last _ Hall) as (l0 & s & -> & Hs).
  eauto.
Qed.

(** X23.  On a board of every size from 4 to 12, the search for the first
    solution succeeds: [generateStates(true)] ends in a solution state. *)
Theorem sized_board_has_a_solution (n : nat) :
  4 <= n <= 12 ->
  exists l0 s,
    generateStates n true = Some (l0 ++ [s])%list /\ isSolution s = true.
Proof. exact (@first_solution_of_size n). Qed.

Lemma sized_board_has_a_solution_witness :
  exists l0 s,
    generateStates 6 true = Some (l0 ++ [s])%list /\ isSolution s = true.
Proof. apply (@sized_board_has_a_solution 6). lia. Defined.

(** X30.  [setSize] on any number.  A number that is not NaN is stored
    clamped into [4, 12]; an integer is stored as the integer clamped to
    4..12, its [reset()] builds the empty board of that size, and
    [generateStates(true)] on it ends in a solution state.  NaN is stored as
    NaN, not clamped, and the [reset()] of [setSize] throws. *)
Theorem setSize_stores :
  (forall x, x <> JsNum.JNaN -> JsNum.in_range 4 12 (fst (setSize x)))
  /\ setSize JsNum.JNaN = (JsNum.JNaN, None)
  /\ (forall k : Z,
        exists n,
          setSize (JsNum.JFin (inject_Z k))
          = (JsNum.JFin (inject_Z (Z.of_nat n)), Some (empty_grid n))
          /\ Z.of_nat n = Z.max 4 (Z.min 12 k)
          /\ exists l0 s,
               generateStates n true = Some (l0 ++ [s])%list
               /\ isSolution s = true).
Proof.
  split; [|split].
  - intros x Hx. unfold setSize. cbn [fst].
    apply clamp_in_range; [discriminate|exact Hx].
  - reflexivity.
  - intros k.
    assert (Hn : Z.of_nat (Z.to_nat (Z.max 4 (Z.min 12 k)))
                 = Z.max 4 (Z.min 12 k)) by lia.
    assert (Hr : 4 <= Z.to_nat (Z.max 4 (Z.min 12 k)) <= 12) by lia.
    remember (Z.to_nat (Z.max 4 (Z.min 12 k))) as n eqn:Hdef.
    exists n.
    split; [|split; [exact Hn|apply first_solution_of_size, Hr]].
    unfold setSize, reset. change 12%Q with (inject_Z 12).
    change 4%Q with (inject_Z 4).
    rewrite min_with_integer, max_with_integer, <- Hn.
    rewrite array_length_natural by lia. reflexivity.
Qed.

Lemma setSize_stores_witness :
  JsNum.in_range 4 12 (fst (setSize (JsNum.JFin (9 # 2))))
  /\ fst (setSize (JsNum.JFin (inject_Z (-3)))) = JsNum.JFin (inject_Z 4)
  /\ fst (setSize (JsNum.JFin (inject_Z 20))) = JsNum.JFin (inject_Z 12).
Proof.
  destruct setSize_stores as (Hrange & _ & Hint).
  split; [apply Hrange; discriminate|]. split.
  - destruct (Hint (-3)%Z) as (n & -> & Hn & _). cbn [fst]. rewrite Hn.
    reflexivity.
  - destruct (Hint 20%Z) as (n & -> & Hn & _). cbn [fst]. rewrite Hn.
    reflexivity.
Defined.

End NQueensFacts.

(** * Properties of the canvas render loop *)

Module CanvasFacts.
Import JsNum Canvas.

Lemma stop_animations (a : animator) : animations (stop a) = animations a.
Proof. unfold stop. destruct (animationFrameId a); reflexivity. Qed.

Lemma stop_isRunning (a : animator) : isRunning (stop a) = false.
Proof. unfold stop. destruct (animationFrameId a); reflexivity. Qed.

Lemma stop_nextFrameId (a : animator) : nextFrameId (stop a) = nextFrameId a.
Proof. unfold stop. destruct (animationFrameId a); reflexivity. Qed.

Lemma stop_log (a : animator) : log (stop a) = log a.
Proof. unfold stop. destruct (animationFrameId a); reflexivity. Qed.

Lemma removeAnimation_animations (id : string) (a : animator) :
  animations (removeAnimation id a) = map_delete id (animations a).
Proof.
  unfold removeAnimation. cbn [animations].
  destruct (map_delete id (animations a)); [|reflexivity].
  rewrite stop_animations. reflexivity.
Qed.

Lemma removeAnimation_nextFrameId (id : string) (a : animator) :
  nextFrameId (removeAnimation id a) = nextFrameId a.
Proof.
  unfold removeAnimation. cbn [animations].
  destruct (map_delete id (animations a)); [|reflexivity].
  rewrite stop_nextFrameId. reflexivity.
Qed.

Lemma removeAnimation_log (id : string) (a : animator) :
  log (removeAnimation id a) = log a.
Proof.
  unfold removeAnimation. cbn [animations].
  destruct (map_delete id (animations a)); [|reflexivity].
  rewrite stop_log. reflexivity.
Qed.

Lemma removeAnimation_stops (id : string) (a : animator) :
  animations (removeAnimation id a) = [] ->
  isRunning (removeAnimation id a) = false.
Proof.
  unfold removeAnimation. cbn [animations].
  destruct (map_delete id (animations a)); [|discriminate].
  intros _. apply stop_isRunning.
Qed.

Lemma render_stopped (now : Q) (a : animator) :
  isRunning a = false -> render now a = a.
Proof. intros H. unfold render. rewrite H. reflexivity. Qed.

(** ** The loop runs while there are animations *)

Lemma removeAnimation_keeps (id : string) (a : animator) :
  runs_while_animated a -> runs_while_animated (removeAnimation id a).
Proof.
  unfold runs_while_animated. intros [_ Hrun].
  split.
  - intros Hr Hnil. rewrite (removeAnimation_stops id a Hnil) in Hr.
    discriminate Hr.
  - intros Hne. rewrite removeAnimation_animations in Hne.
    unfold removeAnimation. cbn [animations].
    destruct (map_delete id (animations a)) eqn:Hd;
      [exfalso; apply Hne; reflexivity|].
    cbn [isRunning]. apply Hrun. intros Hnil. rewrite Hnil in Hd.
    discriminate Hd.
Qed.

Lemma remove_all_keeps (ids : list string) :
  forall a,
    runs_while_animated a ->
    runs_while_animated
      (fold_left (fun acc id => removeAnimation id acc) ids a).
Proof.
  induction ids as [|id ids IH]; intros a Ha; [exact Ha|].
  cbn [fold_left]. apply IH, removeAnimation_keeps, Ha.
Qed.

Lemma forEach_keys (now : Q) (m : list (string * animation)) :
  List.map fst (fst (fst (forEach now m))) = List.map fst m.
Proof.
  induction m as [|[id an] m IH]; [reflexivity|].
  cbn [forEach]. destruct (update now id an) as [[an' ev] done].
  destruct (forEach now m) as [[rest' evs] ids].
  cbn [fst List.map] in *. rewrite IH. reflexivity.
Qed.

Lemma forEach_nonempty (now : Q) (m : list (string * animation)) :
  m <> [] -> fst (fst (forEach now m)) <> [].
Proof.
  intros Hm Hnil. pose proof (forEach_keys now m) as Hk.
  rewrite Hnil in Hk. destruct m; [apply Hm; reflexivity|discriminate Hk].
Qed.

Lemma render_keeps (now : Q) (a : animator) :
  runs_while_animated a -> runs_while_animated (render now a).
Proof.
  intros Ha. unfold render. destruct (isRunning a) eqn:Hr; [|exact Ha].
  pose proof (@forEach_nonempty now (animations a)) as Hne.
  destruct (forEach now (animations a)) as [[m evs] ids].
  unfold runs_while_animated. cbn [isRunning animations].
  apply remove_all_keeps. unfold runs_while_animated.
  cbn [isRunning animations fst] in *.
  split; [|reflexivity]. intros _. apply Hne, Ha, Hr.
Qed.

Lemma map_set_nonempty (id : string) (an : animation)
    (m : list (string * animation)) :
  map_set id an m <> [].
Proof.
  destruct m as [|[k v] m]; cbn [map_set]; [discriminate|].
  destruct (String.eqb k id); discriminate.
Qed.

Lemma exec_keeps (c : call) (a : animator) :
  runs_while_animated a -> runs_while_animated (exec c a).
Proof.
  intros Ha. destruct c as [id cf t0 t1 t2|id| | |f now]; cbn [exec].
  - unfold addAnimation. destruct (isRunning a) eqn:Hr.
    + unfold runs_while_animated. cbn [isRunning animations].
      split; [intros _; apply map_set_nonempty|reflexivity].
    + unfold start. apply render_keeps. unfold runs_while_animated.
      cbn [isRunning animations].
      split; [intros _; apply map_set_nonempty|reflexivity].
  - apply removeAnimation_keeps, Ha.
  - unfold clearAnimations, runs_while_animated.
    rewrite stop_isRunning, stop_animations. cbn [animations].
    split; [discriminate|]. intros H. exfalso. apply H. reflexivity.
  - unfold destroy, runs_while_animated. cbn [isRunning animations].
    rewrite stop_isRunning.
    split; [discriminate|]. intros H. exfalso. apply H. reflexivity.
  - unfold fire. destruct (existsb (Nat.eqb f) (frames a)); [|exact Ha].
    apply render_keeps. exact Ha.
Qed.

Lemma run_keeps (cs : list call) :
  forall a, runs_while_animated a -> runs_while_animated (run cs a).
Proof.
  unfold run. induction cs as [|c cs IH]; intros a Ha; [exact Ha|].
  cbn [fold_left]. apply IH, exec_keeps, Ha.
Qed.

Lemma constructor_idle : runs_while_animated constructor.
Proof.
  unfold runs_while_animated. cbn. split; [discriminate|].
  intros H. exfalso. apply H. reflexivity.
Qed.

(** X24.  Used through [addAnimation], [removeAnimation],
    [clearAnimations], [destroy] and the frames of the host, the loop of a
    [CanvasAnimator] runs exactly while its map holds an animation. *)
Theorem loop_runs_while_animated (cs : list call) :
  runs_while_animated (run cs constructor).
Proof. apply run_keeps, constructor_idle. Qed.

(** ** Animations that have run for their duration *)

Lemma finished_progress (now : Q) (an : animation) :
  finished now an ->
  exists q, min_one (div (now - startTime an) (duration an)) = JFin q
            /\ (q == 1)%Q.
Proof.
  intros [Hpos Hdone]. unfold div.
  destruct (Qeq_bool (duration an) 0) eqn:Hz.
  { apply Qeq_bool_iff in Hz. rewrite Hz in Hpos.
    exfalso. exact (Qlt_irrefl 0 Hpos). }
  cbn [min_one]. eexists. split; [reflexivity|].
  apply Q.min_r. apply Qle_shift_div_l; [exact Hpos|].
  rewrite Qmult_1_l. exact Hdone.
Qed.

Lemma finished_at_least_one (now : Q) (an : animation) :
  finished now an ->
  at_least_one (min_one (div (now - startTime an) (duration an))) = true.
Proof.
  intros Hfin. destruct (finished_progress Hfin) as (q & -> & Hq).
  cbn [at_least_one]. apply Qle_bool_iff. rewrite Hq. apply Qle_refl.
Qed.

Lemma update_finished (now : Q) (id : string) (an : animation) :
  loop an = false -> finished now an ->
  snd (update now id an) = true
  /\ (has_render an = true ->
      exists p, is_one p
                /\ In (Rendered id p (now - startTime an))
                     (snd (fst (update now id an))))
  /\ (has_onComplete an = true ->
      In (Completed id) (snd (fst (update now id an)))).
Proof.
  intros Hloop Hfin. unfold update.
  rewrite (finished_at_least_one Hfin), Hloop. cbn [fst snd].
  split; [reflexivity|]. split.
  - intros ->. destruct (finished_progress Hfin) as (q & Hp & Hq).
    exists (JFin q). split; [exact Hq|]. rewrite Hp. left. reflexivity.
  - intros ->. apply in_or_app. right. left. reflexivity.
Qed.

Lemma forEach_finished (now : Q) (id : string) (an : animation)
    (m : list (string * animation)) :
  In (id, an) m -> loop an = false -> finished now an ->
  In id (snd (forEach now m))
  /\ (forall e, In e (snd (fst (update now id an))) ->
                In e (snd (fst (forEach now m)))).
Proof.
  intros Hin Hloop Hfin.
  induction m as [|[k v] m IH]; [destruct Hin|].
  cbn [forEach]. destruct Hin as [Heq | Hin].
  - injection Heq as -> ->.
    destruct (update_finished id Hloop Hfin) as (Hdone & _).
    destruct (update now id an) as [[an' ev] done].
    destruct (forEach now m) as [[rest' evs] ids].
    cbn [fst snd] in *. subst done.
    split; [left; reflexivity|]. intros e He. apply in_or_app. left. exact He.
  - specialize (IH Hin). destruct IH as [Hid Hev].
    destruct (update now k v) as [[v' ev] done].
    destruct (forEach now m) as [[rest' evs] ids].
    cbn [fst snd] in *. split.
    + destruct done; [right|]; exact Hid.
    + intros e He. apply in_or_app. right. apply Hev, He.
Qed.

Lemma map_delete_gone (id : string) (m : list (string * animation)) :
  ~ In id (List.map fst (map_delete id m)).
Proof.
  unfold map_delete. intros Hin. apply in_map_iff in Hin.
  destruct Hin as ([k v] & <- & Hin). apply filter_In in Hin.
  destruct Hin as [_ Hne]. cbn [fst] in Hne.
  rewrite String.eqb_refl in Hne. discriminate Hne.
Qed.

Lemma map_delete_subset (id k : string) (m : list (string * animation)) :
  In k (List.map fst (map_delete id m)) -> In k (List.map fst m).
Proof.
  unfold map_delete. intros Hin. apply in_map_iff in Hin.
  destruct Hin as (kv & <- & Hin). apply filter_In in Hin.
  apply in_map, Hin.
Qed.

Lemma remove_all_subset (ids : list string) :
  forall a k,
    In k (List.map fst
            (animations
               (fold_left (fun acc id => removeAnimation id acc) ids a))) ->
    In k (List.map fst (animations a)).
Proof.
  induction ids as [|id ids IH]; intros a k Hin; [exact Hin|].
  cbn [fold_left] in Hin. apply IH in Hin.
  rewrite removeAnimation_animations in Hin.
  eapply map_delete_subset, Hin.
Qed.

Lemma remove_all_gone (ids : list string) :
  forall a id,
    In id ids ->
    ~ In id (List.map fst
               (animations
                  (fold_left (fun acc id => removeAnimation id acc) ids a))).
Proof.
  induction ids as [|k ids IH]; intros a id Hin; [destruct Hin|].
  cbn [fold_left]. destruct Hin as [-> | Hin]; [|apply IH, Hin].
  intros Hk. apply remove_all_subset in Hk.
  rewrite removeAnimation_animations in Hk.
  exact (map_delete_gone _ _ Hk).
Qed.

Lemma remove_all_log (ids : list string) :
  forall a,
    log (fold_left (fun acc id => removeAnimation id acc) ids a) = log a.
Proof.
  induction ids as [|id ids IH]; intros a; [reflexivity|].
  cbn [fold_left]. rewrite IH. apply removeAnimation_log.
Qed.

Lemma remove_all_nextFrameId (ids : list string) :
  forall a,
    nextFrameId (fold_left (fun acc id => removeAnimation id acc) ids a)
    = nextFrameId a.
Proof.
  induction ids as [|id ids IH]; intros a; [reflexivity|].
  cbn [fold_left]. rewrite IH. apply removeAnimation_nextFrameId.
Qed.

(** X25.  A frame of the running loop, for an animation that does not
    loop and has run for its positive duration: the animation is rendered
    with progress one, completed, and removed from the map. *)
Theorem finished_animation_is_removed (now : Q) (a : animator)
    (id : string) (an : animation) :
  isRunning a = true -> In (id, an) (animations a) ->
  loop an = false -> finished now an ->
  ~ In id (List.map fst (animations (render now a)))
  /\ (has_render an = true ->
      exists p, is_one p
                /\ In (Rendered id p (now - startTime an))
                     (log (render now a)))
  /\ (has_onComplete an = true -> In (Completed id) (log (render now a))).
Proof.
  intros Hrun Hin Hloop Hfin. unfold render. rewrite Hrun.
  destruct (@forEach_finished now id an (animations a) Hin Hloop Hfin)
    as [Hid Hev].
  destruct (@update_finished now id an Hloop Hfin)
    as (_ & Hrender & Hcomplete).
  destruct (forEach now (animations a)) as [[m evs] ids].
  cbn [fst snd animations log] in *.
  rewrite remove_all_log. cbn [log].
  split; [apply remove_all_gone, Hid|]. split.
  - intros Hr. destruct (Hrender Hr) as (p & Hp & He).
    exists p. split; [exact Hp|].
    apply in_or_app. left. apply in_rev. rewrite rev_involutive.
    apply Hev, He.
  - intros Hc. apply in_or_app. left. apply in_rev. rewrite rev_involutive.
    apply Hev, Hcomplete, Hc.
Qed.

(** ** The frame that outlives the loop *)

Lemma forEach_all_finished (now : Q) (m : list (string * animation)) :
  Forall (fun kv => loop (snd kv) = false /\ finished now (snd kv)) m ->
  snd (forEach now m) = List.map fst m.
Proof.
  induction 1 as [|[id an] m [Hloop Hfin] _ IH]; [reflexivity|].
  cbn [snd] in Hloop, Hfin. cbn [forEach].
  destruct (@update_finished now id an Hloop Hfin) as (Hdone & _).
  destruct (update now id an) as [[an' ev] done].
  destruct (forEach now m) as [[rest' evs] ids].
  cbn [fst snd List.map] in *. subst done. rewrite IH. reflexivity.
Qed.

Lemma remove_all_stops (ids : list string) :
  forall a,
    (forall k, In k (List.map fst (animations a)) -> In k ids) ->
    ids <> [] \/ (animations a = [] /\ isRunning a = false) ->
    animations (fold_left (fun acc id => removeAnimation id acc) ids a) = []
    /\ isRunning (fold_left (fun acc id => removeAnimation id acc) ids a)
       = false.
Proof.
  induction ids as [|id ids IH]; intros a Hkeys Hstop.
  - destruct Hstop as [Hne | Hstop]; [exfalso; apply Hne; reflexivity|].
    exact Hstop.
  - cbn [fold_left]. apply IH.
    + intros k Hk. rewrite removeAnimation_animations in Hk.
      pose proof (map_delete_subset _ _ _ Hk) as Hk'.
      destruct (Hkeys k Hk') as [<- | Hin]; [|exact Hin].
      exfalso. exact (map_delete_gone _ _ Hk).
    + destruct (animations (removeAnimation id a)) as [|[k v] m] eqn:Hm.
      * right. split; [reflexivity|]. apply removeAnimation_stops, Hm.
      * left. intros Hnil. subst ids.
        assert (Hk : In k (List.map fst (animations (removeAnimation id a))))
          by (rewrite Hm; left; reflexivity).
        rewrite removeAnimation_animations in Hk.
        pose proof (map_delete_subset _ _ _ Hk) as Hk'.
        destruct (Hkeys k Hk') as [<- | []].
        exact (map_delete_gone _ _ Hk).
Qed.

(** X26.  When the last animations complete in a frame, [render()] stops
    the loop and still requests the next frame: the map is empty and
    [isRunning] is [false], yet [animationFrameId] is set and its frame is
    pending; that frame, when the host runs it, only returns. *)
Theorem last_completion_leaves_a_frame (now : Q) (a : animator) :
  isRunning a = true -> animations a <> [] ->
  Forall (fun kv => loop (snd kv) = false /\ finished now (snd kv))
    (animations a) ->
  animations (render now a) = []
  /\ isRunning (render now a) = false
  /\ animationFrameId (render now a) = Some (nextFrameId a)
  /\ In (nextFrameId a) (frames (render now a))
  /\ forall later,
       animations (fire (nextFrameId a) later (render now a)) = []
       /\ isRunning (fire (nextFrameId a) later (render now a)) = false
       /\ log (fire (nextFrameId a) later (render now a))
          = log (render now a).
Proof.
  intros Hrun Hne Hall.
  assert (Hshape :
            animations (render now a) = []
            /\ isRunning (render now a) = false
            /\ animationFrameId (render now a) = Some (nextFrameId a)
            /\ In (nextFrameId a) (frames (render now a))).
  { unfold render. rewrite Hrun.
    pose proof (forEach_all_finished Hall) as Hids.
    pose proof (forEach_keys now (animations a)) as Hkeys.
    destruct (forEach now (animations a)) as [[m evs] ids].
    cbn [fst snd] in *. subst ids.
    cbn [animations isRunning animationFrameId frames].
    rewrite remove_all_nextFrameId. cbn [nextFrameId].
    match goal with
    | |- context [fold_left ?f ?ids ?a1] =>
        destruct (@remove_all_stops ids a1) as [Hnil Hstop]
    end.
    - cbn [animations]. intros k Hk. rewrite Hkeys in Hk. exact Hk.
    - left. intros Hnil. destruct (animations a); [apply Hne; reflexivity|].
      discriminate Hnil.
    - split; [exact Hnil|]. split; [exact Hstop|].
      split; [reflexivity|]. apply in_or_app. right. left. reflexivity. }
  destruct Hshape as (Hnil & Hstop & Hid & Hin).
  repeat (split; [assumption|]).
  intros later. generalize dependent (render now a). intros b Hnil Hstop _ _.
  unfold fire.
  destruct (existsb (Nat.eqb (nextFrameId a)) (frames b)); [|auto].
  rewrite render_stopped by exact Hstop.
  cbn [animations isRunning log]. auto.
Qed.

(** ** Animations that stay *)

Lemma map_set_keys (id : string) (an : animation)
    (m : list (string * animation)) :
  forall k, In k (List.map fst (map_set id an m)) ->
            k = id \/ In k (List.map fst m).
Proof.
  induction m as [|[k0 v] m IH]; intros k Hk; cbn [map_set] in Hk.
  - destruct Hk as [<- | []]. left. reflexivity.
  - destruct (String.eqb k0 id) eqn:He.
    + right. exact Hk.
    + destruct Hk as [<- | Hk]; [right; left; reflexivity|].
      destruct (IH k Hk) as [-> | Hin]; [left; reflexivity|].
      right. right. exact Hin.
Qed.

Lemma map_set_unique (id : string) (an : animation)
    (m : list (string * animation)) :
  NoDup (List.map fst m) -> NoDup (List.map fst (map_set id an m)).
Proof.
  induction m as [|[k v] m IH]; intros Hm; cbn [map_set].
  - cbn. constructor; [intros []|constructor].
  - cbn [List.map fst] in Hm. inversion Hm as [|x l Hnotin Hrest]; subst.
    destruct (String.eqb k id) eqn:He; cbn [List.map fst].
    + constructor; assumption.
    + constructor; [|apply IH, Hrest].
      intros Hk. destruct (map_set_keys _ _ _ _ Hk) as [-> | Hin].
      * rewrite String.eqb_refl in He. discriminate He.
      * exact (Hnotin Hin).
Qed.

Lemma map_delete_unique (id : string) (m : list (string * animation)) :
  NoDup (List.map fst m) -> NoDup (List.map fst (map_delete id m)).
Proof.
  induction m as [|[k v] m IH]; intros Hm; [exact Hm|].
  cbn [List.map fst] in Hm. inversion Hm as [|x l Hnotin Hrest]; subst.
  unfold map_delete. cbn [filter fst].
  destruct (negb (String.eqb k id)); [|apply IH, Hrest].
  cbn [List.map fst]. constructor; [|apply IH, Hrest].
  intros Hk. apply Hnotin. eapply map_delete_subset, Hk.
Qed.

Lemma removeAnimation_unique (id : string) (a : animator) :
  keys_unique a -> keys_unique (removeAnimation id a).
Proof.
  unfold keys_unique. rewrite removeAnimation_animations.
  apply map_delete_unique.
Qed.

Lemma remove_all_unique (ids : list string) :
  forall a,
    keys_unique a ->
    keys_unique (fold_left (fun acc id => removeAnimation id acc) ids a).
Proof.
  induction ids as [|id ids IH]; intros a Ha; [exact Ha|].
  cbn [fold_left]. apply IH, removeAnimation_unique, Ha.
Qed.

Lemma render_unique (now : Q) (a : animator) :
  keys_unique a -> keys_unique (render now a).
Proof.
  intros Ha. unfold render. destruct (isRunning a); [|exact Ha].
  pose proof (forEach_keys now (animations a)) as Hkeys.
  destruct (forEach now (animations a)) as [[m evs] ids].
  unfold keys_unique. cbn [animations].
  apply remove_all_unique. unfold keys_unique. cbn [animations fst] in *.
  rewrite Hkeys. exact Ha.
Qed.

Lemma exec_unique (c : call) (a : animator) :
  keys_unique a -> keys_unique (exec c a).
Proof.
  intros Ha. destruct c as [id cf t0 t1 t2|id| | |f now]; cbn [exec].
  - unfold addAnimation. destruct (isRunning a).
    + unfold keys_unique. cbn [animations]. apply map_set_unique, Ha.
    + unfold start. apply render_unique. unfold keys_unique.
      cbn [animations]. apply map_set_unique, Ha.
  - apply removeAnimation_unique, Ha.
  - unfold clearAnimations, keys_unique. rewrite stop_animations.
    cbn. constructor.
  - unfold destroy, keys_unique. cbn. constructor.
  - unfold fire. destruct (existsb (Nat.eqb f) (frames a)); [|exact Ha].
    apply render_unique. exact Ha.
Qed.

Lemma run_unique (cs : list call) :
  forall a, keys_unique a -> keys_unique (run cs a).
Proof.
  unfold run. induction cs as [|c cs IH]; intros a Ha; [exact Ha|].
  cbn [fold_left]. apply IH, exec_unique, Ha.
Qed.

Lemma forEach_ids (now : Q) (m : list (string * animation)) :
  forall k, In k (snd (forEach now m)) -> In k (List.map fst m).
Proof.
  induction m as [|[id an] m IH]; intros k Hk; [destruct Hk|].
  cbn [forEach] in Hk. destruct (update now id an) as [[an' ev] done].
  destruct (forEach now m) as [[rest' evs] ids].
  cbn [fst snd List.map] in *.
  destruct done; [destruct Hk as [<- | Hk]; [left; reflexivity|]|];
    right; apply IH, Hk.
Qed.

(** The entry of an id that has one entry, after the [forEach]. *)
Lemma forEach_entry (now : Q) (id : string) (an : animation)
    (m : list (string * animation)) :
  NoDup (List.map fst m) -> In (id, an) m ->
  In (id, fst (fst (update now id an))) (fst (fst (forEach now m)))
  /\ (snd (update now id an) = false -> ~ In id (snd (forEach now m)))
  /\ (forall e, In e (snd (fst (update now id an))) ->
                In e (snd (fst (forEach now m)))).
Proof.
  induction m as [|[k v] m IH]; intros Hm Hin; [destruct Hin|].
  cbn [List.map fst] in Hm. inversion Hm as [|x l Hnotin Hrest]; subst.
  pose proof (forEach_ids now m) as Hids.
  cbn [forEach]. destruct Hin as [Heq | Hin].
  - injection Heq as -> ->.
    destruct (update now id an) as [[an' ev] done].
    destruct (forEach now m) as [[rest' evs] ids].
    cbn [fst snd] in *. split; [left; reflexivity|]. split.
    + intros -> Hid. apply Hnotin, Hids, Hid.
    + intros e He. apply in_or_app. left. exact He.
  - destruct (IH Hrest Hin) as (Hentry & Hnot & Hev).
    assert (Hne : k <> id).
    { intros ->. apply Hnotin. apply in_map_iff.
      exists (id, an). split; [reflexivity|exact Hin]. }
    destruct (update now k v) as [[v' ev] done].
    destruct (forEach now m) as [[rest' evs] ids].
    cbn [fst snd] in *. split; [right; exact Hentry|]. split.
    + intros Hdone Hid. destruct done.
      * destruct Hid as [Heq | Hid]; [exact (Hne Heq)|].
        exact (Hnot Hdone Hid).
      * exact (Hnot Hdone Hid).
    + intros e He. apply in_or_app. right. apply Hev, He.
Qed.

Lemma remove_all_other (ids : list string) (id : string) (v : animation) :
  ~ In id ids ->
  forall a,
    In (id, v) (animations a) ->
    In (id, v)
      (animations (fold_left (fun acc k => removeAnimation k acc) ids a)).
Proof.
  induction ids as [|k ids IH]; intros Hid a Hin; [exact Hin|].
  cbn [fold_left]. apply IH.
  - intros H. apply Hid. right. exact H.
  - rewrite removeAnimation_animations. unfold map_delete.
    apply filter_In. split; [exact Hin|]. cbn [fst].
    destruct (String.eqb id k) eqn:He; [|reflexivity].
    apply String.eqb_eq in He. exfalso. apply Hid. left. symmetry. exact He.
Qed.

(** What a frame of the running loop does to the entry of an id that has
    one entry. *)
Lemma render_entry (now : Q) (a : animator) (id : string) (an : animation) :
  keys_unique a -> isRunning a = true -> In (id, an) (animations a) ->
  snd (update now id an) = false ->
  In (id, fst (fst (update now id an))) (animations (render now a))
  /\ (forall e, In e (snd (fst (update now id an))) ->
                In e (log (render now a))).
Proof.
  intros Hu Hrun Hin Hstay. unfold render. rewrite Hrun.
  destruct (@forEach_entry now id an (animations a) Hu Hin)
    as (Hentry & Hnot & Hev).
  destruct (forEach now (animations a)) as [[m evs] ids].
  cbn [fst snd animations log] in *. split.
  - apply remove_all_other; [apply Hnot, Hstay|exact Hentry].
  - intros e He. rewrite remove_all_log. cbn [log].
    apply in_or_app. left. apply in_rev. rewrite rev_involutive.
    apply Hev, He.
Qed.

Lemma unfinished_progress (now : Q) (an : animation) :
  unfinished now an ->
  exists q, min_one (div (now - startTime an) (duration an)) = JFin q
            /\ (q < 1)%Q.
Proof.
  intros [Hpos Hearly]. unfold div.
  destruct (Qeq_bool (duration an) 0) eqn:Hz.
  { apply Qeq_bool_iff in Hz. rewrite Hz in Hpos.
    exfalso. exact (Qlt_irrefl 0 Hpos). }
  cbn [min_one]. eexists. split; [reflexivity|].
  eapply Qle_lt_trans; [apply Q.le_min_l|].
  apply Qlt_shift_div_r; [exact Hpos|]. rewrite Qmult_1_l. exact Hearly.
Qed.

Lemma running_with_entry (cs : list call) (id : string) (an : animation) :
  In (id, an) (animations (run cs constructor)) ->
  isRunning (run cs constructor) = true.
Proof.
  intros Hin. apply (run_keeps cs constructor_idle).
  intros Hnil. rewrite Hnil in Hin. destruct Hin.
Qed.

Lemma constructor_unique : keys_unique constructor.
Proof. unfold keys_unique. cbn. constructor. Qed.

(** X27.  In an animator used through its animations, a frame restarts a
    looping animation that has run for its positive duration: it is
    completed, and stays in the map with [startTime] the reading of the
    clock and progress zero. *)
Theorem looping_animation_restarts (cs : list call) (now : Q)
    (id : string) (an : animation) :
  In (id, an) (animations (run cs constructor)) ->
  loop an = true -> finished now an ->
  In (id, restarted now an) (animations (render now (run cs constructor)))
  /\ (has_onComplete an = true ->
      In (Completed id) (log (render now (run cs constructor)))).
Proof.
  intros Hin Hloop Hfin.
  assert (Hupd : update now id an
                 = (restarted now an,
                    ((if has_render an
                      then [Rendered id
                              (min_one (div (now - startTime an)
                                          (duration an)))
                              (now - startTime an)]
                      else [])
                     ++ (if has_onComplete an then [Completed id] else []))
                    %list,
                    false)).
  { unfold update, restarted.
    rewrite (@finished_at_least_one now an Hfin), Hloop. reflexivity. }
  destruct (@render_entry now (run cs constructor) id an) as [Hentry Hev].
  - apply run_unique, constructor_unique.
  - eapply running_with_entry, Hin.
  - exact Hin.
  - rewrite Hupd. reflexivity.
  - rewrite Hupd in Hentry, Hev. cbn [fst snd] in Hentry, Hev.
    split; [exact Hentry|]. intros Hc. apply Hev. rewrite Hc.
    apply in_or_app. right. left. reflexivity.
Qed.

(** X28.  In an animator used through its animations, a frame keeps an
    animation that has not yet run for its positive duration: it stays in
    the map with its [startTime], and with a progress below one. *)
Theorem unfinished_animation_stays (cs : list call) (now : Q)
    (id : string) (an : animation) :
  In (id, an) (animations (run cs constructor)) ->
  unfinished now an ->
  exists q,
    (q < 1)%Q
    /\ In (id, with_progress (JFin q) an)
         (animations (render now (run cs constructor))).
Proof.
  intros Hin Hearly.
  destruct (@unfinished_progress now an Hearly) as (q & Hp & Hq).
  assert (Hupd : update now id an
                 = (with_progress (JFin q) an,
                    (if has_render an
                     then [Rendered id (JFin q) (now - startTime an)]
                     else []),
                    false)).
  { unfold update. rewrite Hp. cbn [at_least_one].
    destruct (Qle_bool 1 q) eqn:Hle; [|reflexivity].
    apply Qle_bool_iff in Hle. exfalso.
    exact (Qlt_irrefl 1 (Qle_lt_trans _ _ _ Hle Hq)). }
  destruct (@render_entry now (run cs constructor) id an) as [Hentry _].
  - apply run_unique, constructor_unique.
  - eapply running_with_entry, Hin.
  - exact Hin.
  - rewrite Hupd. reflexivity.
  - rewrite Hupd in Hentry. cbn [fst] in Hentry. exists q.
    split; [exact Hq|exact Hentry].
Qed.

Lemma looping_animation_restarts_witness :
  In ("spin"%string,
      restarted 100
        (Animation true true true 100 0 (JFin (Qmin (0 / 100) 1))))
     (animations
        (render 100
           (run [AddAnimation "spin" (Config true true true 100) 0 0 0]
              constructor))).
Proof.
  refine (proj1 (@looping_animation_restarts
                   [AddAnimation "spin" (Config true true true 100) 0 0 0]
                   100 "spin"
                   (Animation true true true 100 0 (JFin (Qmin (0 / 100) 1)))
                   _ _ _)).
  - left. reflexivity.
  - reflexivity.
  - split; [reflexivity|discriminate].
Defined.

Lemma unfinished_animation_stays_witness :
  exists q,
    (q < 1)%Q
    /\ In ("fade"%string,
           with_progress (JFin q)
             (Animation true true false 100 0 (JFin (Qmin (0 / 100) 1))))
          (animations
             (render 50
                (run [AddAnimation "fade" (Config true true false 100) 0 0 0]
                   constructor))).
Proof.
  apply (@unfinished_animation_stays
           [AddAnimation "fade" (Config true true false 100) 0 0 0]
           50 "fade"
           (Animation true true false 100 0 (JFin (Qmin (0 / 100) 1)))).
  - left. reflexivity.
  - split; reflexivity.
Defined.

Lemma finished_animation_is_removed_witness :
  ~ In "fade"%string
      (List.map fst
         (animations
            (render 100
               (addAnimation "fade" (Config true true false 100) 0 0 0
                  constructor)))).
Proof.
  refine (proj1 (@finished_animation_is_removed 100
                   (addAnimation "fade" (Config true true false 100) 0 0 0
                      constructor)
                   "fade"
                   (Animation true true false 100 0 (JFin (Qmin (0 / 100) 1)))
                   _ _ _ _)).
  - reflexivity.
  - left. reflexivity.
  - reflexivity.
  - split; [reflexivity|discriminate].
Defined.

Lemma last_completion_leaves_a_frame_witness :
  isRunning
    (render 100
       (addAnimation "fade" (Config true true false 100) 0 0 0 constructor))
  = false
  /\ In 2%nat
       (frames
          (render 100
             (addAnimation "fade" (Config true true false 100) 0 0 0
                constructor))).
Proof.
  destruct (@last_completion_leaves_a_frame 100
              (addAnimation "fade" (Config true true false 100) 0 0 0
                 constructor))
    as (_ & Hstop & _ & Hin & _).
  - reflexivity.
  - discriminate.
  - repeat constructor. discriminate.
  - split; [exact Hstop|exact Hin].
Defined.

End CanvasFacts.

(** * The sequence that a search leaves *)

Module ProducerFacts.
Local Open Scope nat_scope.



End ProducerFacts.

